(** * Terminal site animation helpers: a shallow embedding

    The repository is a static, terminal-themed site.  Its only logic is a
    handful of timer-driven UI helpers:

    - [IntroController]      session-gated intro overlay with skip handlers
    - [ModalController]      modal open/close controller
    - [typeWriter], [typeWriterCancellable], [instantText]
    - [GlitchAnimator]       randomized CRT glitch cycle
    - [useSessionAnimation], [useTypewriterAnimation]   React hooks
    - [TerminalPrompt], [ProgressBar]                   React components

    Everything runs on the single browser UI thread, so each helper is
    modelled as a deterministic transition function on an explicit state:
    the object's own fields plus the part of the browser it touches
    (sessionStorage, the DOM elements it looks up, the pending timers,
    document listeners, the console).  A timer that has been scheduled and
    not cleared may fire at any later moment; delays are therefore not
    tracked, only the set of pending timers.  *)

From Stdlib Require Import ZArith List String Ascii Bool Lia Sorted.
From Stdlib Require Import QArith Qround Qminmax Lqa Qpower Qabs.
From stdpp Require Import base gmap strings list.

Local Open Scope string_scope.
Local Open Scope list_scope.

(** ** JavaScript values shared by all helpers *)

(** A JS string is a sequence of UTF-16 code units. *)
Abbreviation jsstring := (list N).

(** Code units of an ASCII literal. *)
Definition lit (s : string) : jsstring :=
  map N_of_ascii (list_ascii_of_string s).

(** [text[i]]: the code unit at [i], or [undefined] out of range. *)
Definition charAt (text : jsstring) (i : nat) : option N := nth_error text i.

(** [prev + text[i]]: string concatenation coerces [undefined] to the
    nine characters of its name. *)
Definition appendIndexed (prev text : jsstring) (i : nat) : jsstring :=
  match charAt text i with
  | Some c => prev ++ [c]
  | None => prev ++ lit "undefined"
  end.

(** Truthiness of a value that is a string, [null] or [undefined]. *)
Definition truthy {A} (v : option (list A)) : bool :=
  match v with
  | Some (_ :: _) => true
  | _ => false
  end.

Definition truthyKey (v : option string) : bool :=
  match v with
  | Some EmptyString | None => false
  | Some _ => true
  end.

(** The double-quote character, for messages that quote an id. *)
Definition dquote : string :=
  String (Ascii false true false false false true false false) EmptyString.

(** ** window.sessionStorage *)

Module Session.

(** The stored items, and the history of [setItem] calls (oldest first)
    so that the number of writes can be counted. *)
Record t := mk {
  items : gmap string string;
  setItemLog : list (string * string)
}.

Definition empty : t := mk ∅ [].

Definition getItem (key : string) (s : t) : option string := items s !! key.

Definition setItem (key value : string) (s : t) : t :=
  mk (<[key := value]> (items s)) (setItemLog s ++ [(key, value)]).

(** [if (sessionStorage.getItem(key))] *)
Definition flagSet (key : string) (s : t) : bool := truthyKey (getItem key s).

(** Number of [setItem] calls made for [key]. *)
Definition writesTo (key : string) (s : t) : nat :=
  length (filter (λ kv, kv.1 = key) (setItemLog s)).

End Session.

(** ** DOM elements *)

Module Dom.

Record Element := mkElement {
  textContent : jsstring;
  attributes : gmap string jsstring;      (* setAttribute *)
  classList : list string;                (* classList.add / remove *)
  style : gmap string string;             (* style.setProperty *)
  attached : bool                         (* has a parentNode *)
}.

Definition setTextContent (v : jsstring) (e : Element) : Element :=
  mkElement v (attributes e) (classList e) (style e) (attached e).

Definition setAttribute (name : string) (v : jsstring) (e : Element) : Element :=
  mkElement (textContent e) (<[name := v]> (attributes e)) (classList e)
            (style e) (attached e).

Definition classAdd (c : string) (e : Element) : Element :=
  mkElement (textContent e) (attributes e)
            (if bool_decide (c ∈ classList e) then classList e
             else classList e ++ [c])
            (style e) (attached e).

Definition classRemove (c : string) (e : Element) : Element :=
  mkElement (textContent e) (attributes e)
            (filter (λ x, x ≠ c) (classList e)) (style e) (attached e).

Definition setProperty (name value : string) (e : Element) : Element :=
  mkElement (textContent e) (attributes e) (classList e)
            (<[name := value]> (style e)) (attached e).

(** [element.remove()] *)
Definition remove (e : Element) : Element :=
  mkElement (textContent e) (attributes e) (classList e) (style e) false.

(** Element objects are named by their id; an object stays alive after it
    has been removed from the tree, but [getElementById] only finds
    attached ones. *)
Abbreviation Document := (gmap string Element).

Definition getElementById (id : string) (d : Document) : option Element :=
  match d !! id with
  | Some e => if attached e then Some e else None
  | None => None
  end.

End Dom.

(** ** IntroController *)

Module Intro.
Import Dom.

(** The object literal passed to the constructor: every field optional. *)
Record Options := mkOptions {
  o_introId : option string;
  o_storageKey : option string;
  o_fadeOutDuration : option Z;
  o_skipOnKey : option bool;
  o_skipOnClick : option bool;
  o_showOnRefresh : option bool;
  o_onSkip : bool;          (* a callback was supplied *)
  o_onComplete : bool
}.

Record Config := mkConfig {
  introId : option string;
  storageKey : string;
  fadeOutDuration : Z;
  skipOnKey : bool;
  skipOnClick : bool;
  showOnRefresh : bool;
  onSkip : bool;
  onComplete : bool
}.

(** [{ storageKey: 'terminalIntroShown', ..., ...config }] *)
Definition mergeConfig (o : Options) : Config :=
  mkConfig (o_introId o)
           (default "terminalIntroShown" (o_storageKey o))
           (default 500%Z (o_fadeOutDuration o))
           (default true (o_skipOnKey o))
           (default true (o_skipOnClick o))
           (default true (o_showOnRefresh o))
           (o_onSkip o) (o_onComplete o).

Inductive Callback := OnSkip | OnComplete.

#[global] Instance Callback_eq_dec : EqDecision Callback.
Proof. solve_decision. Defined.

Inductive EventType := Keydown | Click.

#[global] Instance EventType_eq_dec : EqDecision EventType.
Proof. solve_decision. Defined.

(** The controller object. [introElement] holds a reference to the
    element object (its id), [skipHandlers] the handlers it registered. *)
Record Controller := mkController {
  config : Config;
  introElement : option string;
  isSkipped : bool;
  isComplete : bool;
  skipHandlers : list (EventType * nat)
}.

(** The part of the page the controller works on. *)
Record Page := mkPage {
  document : Document;
  session : Session.t;
  navigationEntries : list string;          (* performance entries' types *)
  listeners : list (EventType * nat);       (* document.addEventListener *)
  nextHandler : nat;
  removalTimers : list nat;                 (* pending fade-out timeouts *)
  nextTimer : nat;
  warnings : list string;                   (* console.warn *)
  fired : list Callback                     (* callbacks invoked so far *)
}.

Definition State : Type := Controller * Page.

Inductive Error := IntroIdRequired.

Definition constructor (o : Options) : Error + Controller :=
  let cfg := mergeConfig o in
  if negb (truthyKey (introId cfg)) then inl IntroIdRequired
  else inr (mkController cfg None false false []).

Definition withDocument (d : Document) (p : Page) : Page :=
  mkPage d (session p) (navigationEntries p) (listeners p) (nextHandler p)
         (removalTimers p) (nextTimer p) (warnings p) (fired p).

Definition withSession (s : Session.t) (p : Page) : Page :=
  mkPage (document p) s (navigationEntries p) (listeners p) (nextHandler p)
         (removalTimers p) (nextTimer p) (warnings p) (fired p).

Definition warn (msg : string) (p : Page) : Page :=
  mkPage (document p) (session p) (navigationEntries p) (listeners p)
         (nextHandler p) (removalTimers p) (nextTimer p)
         (warnings p ++ [msg]) (fired p).

Definition fire (cb : Callback) (p : Page) : Page :=
  mkPage (document p) (session p) (navigationEntries p) (listeners p)
         (nextHandler p) (removalTimers p) (nextTimer p) (warnings p)
         (fired p ++ [cb]).

Definition _isPageReload (p : Page) : bool :=
  match navigationEntries p with
  | ty :: _ => bool_decide (ty = "reload")
  | [] => false
  end.

Definition _removeIntro (st : State) : State :=
  let '(c, p) := st in
  match introElement c with
  | Some id =>
      match document p !! id with
      | Some e =>
          if attached e then (c, withDocument (<[id := remove e]> (document p)) p)
          else st
      | None => st
      end
  | None => st
  end.

Definition _attachHandler (ty : EventType) (st : State) : State :=
  let '(c, p) := st in
  let h := nextHandler p in
  (mkController (config c) (introElement c) (isSkipped c) (isComplete c)
                (skipHandlers c ++ [(ty, h)]),
   mkPage (document p) (session p) (navigationEntries p)
          (listeners p ++ [(ty, h)]) (S h)
          (removalTimers p) (nextTimer p) (warnings p) (fired p)).

Definition _attachKeyHandler := _attachHandler Keydown.
Definition _attachClickHandler := _attachHandler Click.

(** [document.removeEventListener] for every recorded handler. *)
Definition _removeHandlers (st : State) : State :=
  let '(c, p) := st in
  (mkController (config c) (introElement c) (isSkipped c) (isComplete c) [],
   mkPage (document p) (session p) (navigationEntries p)
          (filter (λ l, l ∉ skipHandlers c) (listeners p)) (nextHandler p)
          (removalTimers p) (nextTimer p) (warnings p) (fired p)).

Definition setTimeoutRemove (p : Page) : Page :=
  mkPage (document p) (session p) (navigationEntries p) (listeners p)
         (nextHandler p) (removalTimers p ++ [nextTimer p]) (S (nextTimer p))
         (warnings p) (fired p).

Definition _hideIntro (st : State) : State :=
  let '(c, p) := st in
  match introElement c with
  | None => st
  | Some id =>
      let d := match document p !! id with
               | Some e => <[id := classAdd "hidden" e]> (document p)
               | None => document p
               end in
      _removeHandlers (c, setTimeoutRemove (withDocument d p))
  end.

Definition setIntroElement (r : option string) (c : Controller) : Controller :=
  mkController (config c) r (isSkipped c) (isComplete c) (skipHandlers c).

Definition init (st : State) : bool * State :=
  let '(c, p) := st in
  let found := id ← introId (config c);
               _ ← getElementById id (document p); Some id in
  let c := setIntroElement found c in
  match found with
  | None =>
      (false,
       (c, warn ("IntroController: Element with id " ++ dquote
                 ++ default "" (introId (config c)) ++ dquote ++ " not found")%string
                p))
  | Some _ =>
      let isReload := _isPageReload p in
      let introShown := Session.flagSet (storageKey (config c)) (session p) in
      let shouldShow :=
        if showOnRefresh (config c) then isReload else negb introShown in
      if negb shouldShow then (false, _removeIntro (c, p))
      else
        let st := (c, p) in
        let st := if skipOnKey (config c) then _attachKeyHandler st else st in
        let st := if skipOnClick (config c) then _attachClickHandler st else st in
        (true, st)
  end.

Definition skip (st : State) : State :=
  let '(c, p) := st in
  if isSkipped c || isComplete c then st
  else
    let c := mkController (config c) (introElement c) true (isComplete c)
                          (skipHandlers c) in
    let p := if onSkip (config c) then fire OnSkip p else p in
    _hideIntro (c, p).

Definition complete (st : State) : State :=
  let '(c, p) := st in
  if isSkipped c || isComplete c then st
  else
    let c := mkController (config c) (introElement c) (isSkipped c) true
                          (skipHandlers c) in
    let p := withSession
               (Session.setItem (storageKey (config c)) "true" (session p)) p in
    let p := if onComplete (config c) then fire OnComplete p else p in
    _hideIntro (c, p).

Definition destroy (st : State) : State :=
  let '(c, p) := _removeHandlers st in (setIntroElement None c, p).

(** What can happen to a controller once it exists. A key press or click
    reaches the controller only through a handler that is still
    registered on the document; a fade-out timeout fires only while
    pending. *)
Inductive Event :=
| Init | Skip | Complete | Destroy
| Dispatch (ty : EventType)
| FadeOutElapsed (timer : nat).

Definition dispatch (ty : EventType) (st : State) : State :=
  fold_left
    (λ st l, if bool_decide (l ∈ listeners st.2) then skip st else st)
    (filter (λ l, l.1 = ty) (listeners st.2)) st.

Definition fadeOutElapsed (timer : nat) (st : State) : State :=
  let '(c, p) := st in
  if bool_decide (timer ∈ removalTimers p) then
    _removeIntro
      (c, mkPage (document p) (session p) (navigationEntries p) (listeners p)
                 (nextHandler p) (filter (λ t, t ≠ timer) (removalTimers p))
                 (nextTimer p) (warnings p) (fired p))
  else st.

Definition step (ev : Event) (st : State) : State :=
  match ev with
  | Init => (init st).2
  | Skip => skip st
  | Complete => complete st
  | Destroy => destroy st
  | Dispatch ty => dispatch ty st
  | FadeOutElapsed t => fadeOutElapsed t st
  end.

Definition run (evs : list Event) (st : State) : State :=
  fold_left (λ st ev, step ev st) evs st.

(** Whether [init] finds the intro element. *)
Definition introFound (c : Controller) (p : Page) : bool :=
  match introId (config c) with
  | Some id => bool_decide (is_Some (getElementById id (document p)))
  | None => false
  end.

(** How many times [onComplete] has been invoked. *)
Definition completions (p : Page) : nat :=
  length (filter (λ cb, cb = OnComplete) (fired p)).

(** Two configurations of an intro whose element has id [id]: the
    defaults, and the once-per-session mode. Both supply the callbacks. *)
Definition defaultOptions (id : string) : Options :=
  mkOptions (Some id) None None None None None true true.

Definition oncePerSession (id : string) : Options :=
  mkOptions (Some id) None None None None (Some false) true true.

(** The controller [new IntroController(o)] yields when it does not throw. *)
Definition created (o : Options) : Controller :=
  mkController (mergeConfig o) None false false [].

(** A first visit: nothing stored, the intro element in the tree. *)
Definition freshPage (id : string) (nav : list string) : Page :=
  mkPage {[ id := mkElement [] ∅ [] ∅ true ]} Session.empty nav [] 0 [] 0 [] [].

End Intro.

(** ** ModalController: construction and [_init] *)

Module Modal.
Import Dom.

Record Config := mkConfig {
  modalId : string;
  triggerIds : option (list string);
  closeIds : option (list string);
  closeOnNavigation : bool;
  closeOnEscape : bool;
  closeOnResize : bool
}.

(** Listeners registered by [_attachListeners], by what they are put on. *)
Inductive Listener :=
| TriggerClick (id : string)
| CloseClick (id : string)
| NavLinkClick (link : nat)
| DocumentKeydown
| WindowResize.

Record Controller := mkController {
  config : Config;
  isOpen : bool;
  modal : option string;
  triggers : list string;
  closeButtons : list string
}.

Record Page := mkPage {
  document : Document;
  navLinks : nat;                 (* modal.querySelectorAll('nav a').length *)
  listeners : list Listener;
  warnings : list string
}.

(** [ids?.map(id => document.getElementById(id)).filter(Boolean) || []] *)
Definition lookupAll (ids : option (list string)) (d : Document) : list string :=
  match ids with
  | Some l => filter (λ id, is_Some (getElementById id d)) l
  | None => []
  end.

Definition _attachListeners (c : Controller) (p : Page) : Page :=
  let ls := map TriggerClick (triggers c) ++ map CloseClick (closeButtons c) in
  let ls := if closeOnNavigation (config c)
            then ls ++ map NavLinkClick (seq 0 (navLinks p)) else ls in
  let ls := if closeOnEscape (config c) then ls ++ [DocumentKeydown] else ls in
  let ls := if closeOnResize (config c) then ls ++ [WindowResize] else ls in
  mkPage (document p) (navLinks p) (listeners p ++ ls) (warnings p).

Definition _init (c : Controller) (p : Page) : Controller * Page :=
  match getElementById (modalId (config c)) (document p) with
  | None =>
      (mkController (config c) (isOpen c) None (triggers c) (closeButtons c),
       mkPage (document p) (navLinks p) (listeners p)
              (warnings p ++ [("Modal element #" ++ modalId (config c) ++ " not found")%string]))
  | Some _ =>
      let c := mkController (config c) (isOpen c) (Some (modalId (config c)))
                 (lookupAll (triggerIds (config c)) (document p))
                 (lookupAll (closeIds (config c)) (document p)) in
      (c, _attachListeners c p)
  end.

Definition constructor (cfg : Config) (p : Page) : Controller * Page :=
  _init (mkController cfg false None [] []) p.

End Modal.

(** ** typeWriter, typeWriterCancellable, instantText *)

Module Typewriter.
Import Dom.

Record Options := mkOptions {
  o_delay : option Z;
  o_startDelay : option Z;
  o_onCharacter : bool;       (* a callback was supplied *)
  o_onComplete : bool
}.

Record Config := mkConfig {
  delay : Z;
  startDelay : Z;
  cursorBlink : bool;
  onCharacter : bool;
  onComplete : bool
}.

(** [{ ...DEFAULT_CONFIG, ...options }] *)
Definition mergeConfig (o : Options) : Config :=
  mkConfig (default 80%Z (o_delay o)) (default 0%Z (o_startDelay o)) true
           (o_onCharacter o) (o_onComplete o).

Inductive Call :=
| CharacterCall (c : N) (index : nat)
| CompleteCall.

#[global] Instance Call_eq_dec : EqDecision Call.
Proof. solve_decision. Defined.

Inductive Promise := Pending | Fulfilled | Rejected (msg : string).

Inductive Phase :=
| Delayed        (* the start-delay timeout is pending *)
| Typing         (* the interval is active *)
| Idle.          (* no timer of this call is pending *)

(** One call of [typeWriter] or [typeWriterCancellable]: the variables of
    its closure, the element it writes to, and what it has called. *)
Record Run := mkRun {
  text : jsstring;
  element : Element;
  config : Config;
  index : nat;
  phase : Phase;
  promise : Promise;
  cancelled : bool;
  intervalId : option nat;
  calls : list Call
}.

(** The body of the interval callback once the cancellation test is past. *)
Definition typeNext (r : Run) : Run :=
  if bool_decide (index r < length (text r))%nat then
    let e := setTextContent (appendIndexed (textContent (element r)) (text r) (index r))
                            (element r) in
    let e := setAttribute "data-text" (textContent e) e in
    let cs := match charAt (text r) (index r) with
              | Some c => if onCharacter (config r)
                          then calls r ++ [CharacterCall c (index r)] else calls r
              | None => calls r
              end in
    mkRun (text r) e (config r) (S (index r)) (phase r) (promise r)
          (cancelled r) (intervalId r) cs
  else
    mkRun (text r) (element r) (config r) (index r) Idle Fulfilled
          (cancelled r) (intervalId r)
          (if onComplete (config r) then calls r ++ [CompleteCall] else calls r).

(** [typeWriter(text, element, options)]. The function is [async]: a
    [throw] in its body rejects the promise it returns, which is how the
    caller receives the error ([inl]). Falsy text ([undefined], [null] or
    the empty string) resolves at once. *)
Definition typeWriter (txt : option jsstring) (el : option Element) (o : Options)
  : string + Run :=
  let cfg := mergeConfig o in
  match el with
  | None => inl "typeWriter: element is required"
  | Some e =>
      if negb (truthy txt) then
        inr (mkRun (default [] txt) e cfg 0 Idle Fulfilled false None [])
      else if (0 <? startDelay cfg)%Z then
        inr (mkRun (default [] txt) e cfg 0 Delayed Pending false None [])
      else
        inr (mkRun (default [] txt) e cfg 0 Typing Pending false (Some 1%nat) [])
  end.

(** [typeWriterCancellable(text, element, options)]: the promise of the
    returned object is rejected when the element is missing. *)
Definition typeWriterCancellable (txt : option jsstring) (el : option Element)
                                 (o : Options) : string + Run :=
  let cfg := mergeConfig o in
  match el with
  | None => inl "typeWriterCancellable: element is required"
  | Some e =>
      if negb (truthy txt) then
        inr (mkRun (default [] txt) e cfg 0 Idle Fulfilled false None [])
      else if (0 <? startDelay cfg)%Z then
        inr (mkRun (default [] txt) e cfg 0 Delayed Pending false None [])
      else
        inr (mkRun (default [] txt) e cfg 0 Typing Pending false (Some 1%nat) [])
  end.

(** [instantText(text, element)] throws when the element is missing. *)
Definition instantText (txt : jsstring) (el : option Element) : string + Element :=
  match el with
  | None => inl "instantText: element is required"
  | Some e => inr (setAttribute "data-text" txt (setTextContent txt e))
  end.

(** The start-delay timeout of [typeWriter] elapses. *)
Definition startElapsed (r : Run) : Run :=
  match phase r with
  | Delayed => mkRun (text r) (element r) (config r) 0 Typing (promise r)
                     (cancelled r) (Some 1%nat) (calls r)
  | _ => r
  end.

(** The start-delay timeout of [typeWriterCancellable] elapses:
    [if (!cancelled) startTyping()]. *)
Definition startElapsedCancellable (r : Run) : Run :=
  match phase r with
  | Delayed =>
      if cancelled r then
        mkRun (text r) (element r) (config r) (index r) Idle (promise r)
              (cancelled r) (intervalId r) (calls r)
      else startElapsed r
  | _ => r
  end.

(** The interval of [typeWriter] fires. *)
Definition tick (r : Run) : Run :=
  match phase r with
  | Typing => typeNext r
  | _ => r
  end.

(** The interval of [typeWriterCancellable] fires. *)
Definition tickCancellable (r : Run) : Run :=
  match phase r with
  | Typing =>
      if cancelled r then
        mkRun (text r) (element r) (config r) (index r) Idle
              (match promise r with Pending => Rejected "Typewriter cancelled"
                                  | s => s end)
              (cancelled r) (intervalId r) (calls r)
      else typeNext r
  | _ => r
  end.

(** [cancel()]: timer handles are positive, so a set [intervalId] is
    truthy and its interval is cleared. *)
Definition cancel (r : Run) : Run :=
  mkRun (text r) (element r) (config r) (index r)
        (match intervalId r, phase r with
         | Some (S _), Typing => Idle
         | _, ph => ph
         end)
        (promise r) true (intervalId r) (calls r).

Inductive Event := StartElapsed | Tick | Cancel.

(** [typeWriter] returns only a promise, so it has no [Cancel]. *)
Definition step (ev : Event) (r : Run) : Run :=
  match ev with
  | StartElapsed => startElapsed r
  | Tick => tick r
  | Cancel => r
  end.

Definition stepCancellable (ev : Event) (r : Run) : Run :=
  match ev with
  | StartElapsed => startElapsedCancellable r
  | Tick => tickCancellable r
  | Cancel => cancel r
  end.

Definition run (evs : list Event) (r : Run) : Run :=
  fold_left (λ r ev, step ev r) evs r.

Definition runCancellable (evs : list Event) (r : Run) : Run :=
  fold_left (λ r ev, stepCancellable ev r) evs r.

(** How many times [onComplete] has been invoked. *)
Definition completions (r : Run) : nat :=
  length (filter (λ c, c = CompleteCall) (calls r)).

(** The reveal index after each event of a run, oldest first. *)
Fixpoint indices (stp : Event → Run → Run) (evs : list Event) (r : Run) : list nat :=
  match evs with
  | [] => [index r]
  | ev :: evs => index r :: indices stp evs (stp ev r)
  end.

(** The index variable exists from [startTyping] on; before that it is
    taken as 0. *)
Definition wellFormed (r : Run) : Prop :=
  (index r ≤ length (text r))%nat ∧ (phase r = Delayed → index r = 0%nat).

End Typewriter.

(** ** GlitchAnimator *)

Module Glitch.
Import Dom.

(** What [getRandomGlitchPattern] returns, already formatted as the CSS
    values written by [applyGlitchPattern]. The values are drawn with
    [Math.random]; here the drawn pattern comes with the event that needs it. *)
Record GlitchData := mkGlitchData {
  leftSpeed : string;
  rightSpeed : string;
  skewSpeed : string;
  clipBefore : string;
  clipAfter : string;
  color1 : string;
  color2 : string
}.

Definition applyGlitchPattern (e : Element) (g : GlitchData) : Element :=
  setProperty "--glitch-color-2" (color2 g)
  (setProperty "--glitch-color-1" (color1 g)
  (setProperty "--glitch-clip-after" (clipAfter g)
  (setProperty "--glitch-clip-before" (clipBefore g)
  (setProperty "--glitch-skew-speed" (skewSpeed g)
  (setProperty "--glitch-right-speed" (rightSpeed g)
  (setProperty "--glitch-left-speed" (leftSpeed g) e)))))).

(** The three timeout callbacks of the class. *)
Inductive Task :=
| ExecuteGlitch      (* set by [_scheduleNextGlitch]: runs [_executeGlitch] *)
| EndGlitch          (* set by [_executeGlitch]: ends the glitch, schedules the next *)
| EndOnce.           (* set by [triggerOnce]: ends the glitch *)

#[global] Instance Task_eq_dec : EqDecision Task.
Proof. solve_decision. Defined.

Record Animator := mkAnimator {
  elementId : string;
  isRunning : bool;
  timeoutId : option nat
}.

(** Timer handles are positive integers; [glitches] counts the patterns
    applied so far. *)
Record Page := mkPage {
  document : Document;
  timers : list (nat * Task);
  nextTimer : nat;
  glitches : nat
}.

Definition State : Type := Animator * Page.

Definition constructor (id : string) : Animator := mkAnimator id false None.

Definition setTimeout (t : Task) (p : Page) : nat * Page :=
  (nextTimer p,
   mkPage (document p) (timers p ++ [(nextTimer p, t)]) (S (nextTimer p)) (glitches p)).

Definition clearTimeout (id : nat) (p : Page) : Page :=
  mkPage (document p) (filter (λ t, t.1 ≠ id) (timers p)) (nextTimer p) (glitches p).

Definition _scheduleNextGlitch (st : State) : State :=
  let '(a, p) := st in
  if negb (isRunning a) then st
  else
    let '(id, p) := setTimeout ExecuteGlitch p in
    (mkAnimator (elementId a) (isRunning a) (Some id), p).

Definition start (st : State) : State :=
  let '(a, p) := st in
  if isRunning a then st
  else _scheduleNextGlitch (mkAnimator (elementId a) true (timeoutId a), p).

Definition stop (st : State) : State :=
  let '(a, p) := st in
  match timeoutId a with
  | Some (S n) => (mkAnimator (elementId a) false None, clearTimeout (S n) p)
  | _ => (mkAnimator (elementId a) false (timeoutId a), p)
  end.

(** The element is found, the pattern applied and the class added. *)
Definition glitchElement (id : string) (g : GlitchData) (p : Page) : Page :=
  match document p !! id with
  | Some e =>
      mkPage (<[id := classAdd "glitch" (applyGlitchPattern e g)]> (document p))
             (timers p) (nextTimer p) (S (glitches p))
  | None => p
  end.

Definition unglitchElement (id : string) (p : Page) : Page :=
  match document p !! id with
  | Some e =>
      mkPage (<[id := classRemove "glitch" e]> (document p))
             (timers p) (nextTimer p) (glitches p)
  | None => p
  end.

Definition triggerOnce (g : GlitchData) (st : State) : State :=
  let '(a, p) := st in
  match getElementById (elementId a) (document p) with
  | None => st
  | Some _ => (a, (setTimeout EndOnce (glitchElement (elementId a) g p)).2)
  end.

Definition _executeGlitch (g : GlitchData) (st : State) : State :=
  let '(a, p) := st in
  match getElementById (elementId a) (document p) with
  | None => stop st
  | Some _ => (a, (setTimeout EndGlitch (glitchElement (elementId a) g p)).2)
  end.

(** A pending timeout fires: it leaves the pending list and its callback runs. *)
Definition fireTimer (id : nat) (g : GlitchData) (st : State) : State :=
  let '(a, p) := st in
  match list_find (λ t, t.1 = id) (timers p) with
  | None => st
  | Some (_, (_, task)) =>
      let p := clearTimeout id p in
      match task with
      | ExecuteGlitch => _executeGlitch g (a, p)
      | EndGlitch => _scheduleNextGlitch (a, unglitchElement (elementId a) p)
      | EndOnce => (a, unglitchElement (elementId a) p)
      end
  end.

(** Something else takes the element out of the page. *)
Definition detachElement (st : State) : State :=
  let '(a, p) := st in
  match document p !! elementId a with
  | Some e => (a, mkPage (<[elementId a := remove e]> (document p))
                         (timers p) (nextTimer p) (glitches p))
  | None => st
  end.

Inductive Event :=
| Start
| Stop
| TriggerOnce (g : GlitchData)
| Fire (id : nat) (g : GlitchData)
| Detach.

Definition isStart (ev : Event) : bool :=
  match ev with Start => true | _ => false end.

Definition step (ev : Event) (st : State) : State :=
  match ev with
  | Start => start st
  | Stop => stop st
  | TriggerOnce g => triggerOnce g st
  | Fire id g => fireTimer id g st
  | Detach => detachElement st
  end.

Definition run (evs : list Event) (st : State) : State :=
  fold_left (λ st ev, step ev st) evs st.

(** Handles of the pending timeouts that would run [_executeGlitch]. *)
Definition scheduledGlitches (p : Page) : list nat :=
  map fst (filter (λ t, t.2 = ExecuteGlitch) (timers p)).

Definition pending (id : nat) (p : Page) : bool :=
  bool_decide (id ∈ map fst (timers p)).

(** Some drawn pattern. *)
Definition samplePattern : GlitchData :=
  mkGlitchData "0.2s" "0.25s" "0.3s"
    "polygon(0 0, 100% 0, 100% 45%, 0 45%)"
    "polygon(0 45%, 100% 45%, 100% 100%, 0 100%)"
    "#ff00ff" "#00ffff".

(** A page holding the animated element, with no timer pending. *)
Definition pageWith (id : string) : Page :=
  mkPage {[ id := mkElement [] ∅ [] ∅ true ]} [] 1 0.

End Glitch.

(** ** React hooks: useSessionAnimation and useTypewriterAnimation

    A mounted hook instance keeps its [useState] values as of the last
    render, its [useRef] cells, and the queue of state updates requested
    since.  Effects run after a render is committed and see the values of
    that render; refs are read live.  After every event React re-renders
    until no update is left.  *)

Module Hook.

Inductive Update :=
| SetHasPlayed (b : bool)
| SetDisplayText (s : jsstring)
| AppendAtIndex        (* prev => prev + text[indexRef.current], run at render *)
| SetIsComplete (b : bool).

Record Fiber := mkFiber {
  (* useState, as rendered *)
  hasPlayed : bool;
  displayText : jsstring;
  isComplete : bool;
  (* useRef *)
  isInitialized : bool;
  timeoutRef : option nat;
  indexRef : nat;
  (* the typewriter effect's last run returned its cleanup *)
  typingCleanup : bool;
  (* updates not yet rendered *)
  queue : list Update
}.

Record Window := mkWindow {
  session : Session.t;
  timers : list nat;          (* pending window.setTimeout handles *)
  nextTimer : nat
}.

Definition State : Type := Fiber * Window.

Definition enqueue (u : Update) (f : Fiber) : Fiber :=
  mkFiber (hasPlayed f) (displayText f) (isComplete f) (isInitialized f)
          (timeoutRef f) (indexRef f) (typingCleanup f) (queue f ++ [u]).

Definition setIndexRef (i : nat) (f : Fiber) : Fiber :=
  mkFiber (hasPlayed f) (displayText f) (isComplete f) (isInitialized f)
          (timeoutRef f) i (typingCleanup f) (queue f).

Definition clearTimeout (id : nat) (w : Window) : Window :=
  mkWindow (session w) (filter (λ t, t ≠ id) (timers w)) (nextTimer w).

(** [if (timeoutRef.current !== null) clearTimeout(timeoutRef.current)] *)
Definition clearTimeoutRef (f : Fiber) (w : Window) : Window :=
  match timeoutRef f with
  | Some id => clearTimeout id w
  | None => w
  end.

Section Props.

Variable text : jsstring.
Variable storageKey : string.

Definition initial : Fiber := mkFiber false [] false false None 0 false [].

(** [markAsPlayed()] *)
Definition markAsPlayed (st : State) : State :=
  let '(f, w) := st in
  (enqueue (SetHasPlayed true) f,
   mkWindow (Session.setItem storageKey "true" (session w)) (timers w) (nextTimer w)).

Definition applyUpdate (f : Fiber) (u : Update) : Fiber :=
  match u with
  | SetHasPlayed b =>
      mkFiber b (displayText f) (isComplete f) (isInitialized f)
              (timeoutRef f) (indexRef f) (typingCleanup f) (queue f)
  | SetDisplayText s =>
      mkFiber (hasPlayed f) s (isComplete f) (isInitialized f)
              (timeoutRef f) (indexRef f) (typingCleanup f) (queue f)
  | AppendAtIndex =>
      mkFiber (hasPlayed f) (appendIndexed (displayText f) text (indexRef f))
              (isComplete f) (isInitialized f)
              (timeoutRef f) (indexRef f) (typingCleanup f) (queue f)
  | SetIsComplete b =>
      mkFiber (hasPlayed f) (displayText f) b (isInitialized f)
              (timeoutRef f) (indexRef f) (typingCleanup f) (queue f)
  end.

(** A render: the queued updates are applied in order. *)
Definition render (f : Fiber) : Fiber :=
  fold_left applyUpdate (queue f)
    (mkFiber (hasPlayed f) (displayText f) (isComplete f) (isInitialized f)
             (timeoutRef f) (indexRef f) (typingCleanup f) []).

Definition sameState (f g : Fiber) : bool :=
  bool_decide (hasPlayed f = hasPlayed g) &&
  bool_decide (displayText f = displayText g) &&
  bool_decide (isComplete f = isComplete g).

(** The effect of [useSessionAnimation]; its dependency [storageKey] never
    changes, so it runs at mount only. *)
Definition sessionEffect (st : State) : State :=
  let '(f, w) := st in
  if isInitialized f then st
  else
    let f := if Session.flagSet storageKey (session w)
             then enqueue (SetHasPlayed true) f else f in
    (mkFiber (hasPlayed f) (displayText f) (isComplete f) true
             (timeoutRef f) (indexRef f) (typingCleanup f) (queue f), w).

(** "Initialize display text based on session state", dependencies
    [hasPlayed, text]. *)
Definition initEffect (st : State) : State :=
  let '(f, w) := st in
  if hasPlayed f then
    (setIndexRef (length text)
       (enqueue (SetIsComplete true) (enqueue (SetDisplayText text) f)), w)
  else st.

(** "Typewriter animation". Its dependency [markAsPlayed] is a new closure
    at every render, so the effect runs after every committed render. *)
Definition typingEffect (st : State) : State :=
  let '(f, w) := st in
  if hasPlayed f || isComplete f then st
  else if bool_decide (indexRef f < length text)%nat then
    (mkFiber (hasPlayed f) (displayText f) (isComplete f) (isInitialized f)
             (Some (nextTimer w)) (indexRef f) true (queue f),
     mkWindow (session w) (timers w ++ [nextTimer w]) (S (nextTimer w)))
  else if bool_decide (indexRef f = length text) then
    markAsPlayed (enqueue (SetIsComplete true) f, w)
  else st.

(** The cleanup returned by the previous run of the typewriter effect. *)
Definition typingCleanupRun (st : State) : State :=
  let '(f, w) := st in
  if typingCleanup f then
    (mkFiber (hasPlayed f) (displayText f) (isComplete f) (isInitialized f)
             (timeoutRef f) (indexRef f) false (queue f),
     clearTimeoutRef f w)
  else st.

(** Commit of a render: cleanups first, then the effects in hook order.
    [first] is the mount, [prevHasPlayed] the value at the previous render. *)
Definition commit (first : bool) (prevHasPlayed : bool) (st : State) : State :=
  let st := typingCleanupRun st in
  let st := if first then sessionEffect st else st in
  let st := if first || negb (bool_decide (hasPlayed st.1 = prevHasPlayed))
            then initEffect st else st in
  typingEffect st.

(** One re-render: nothing is committed when the state comes out unchanged. *)
Definition round (st : State) : State :=
  let '(f, w) := st in
  let f' := render f in
  if sameState f f' then (f', w) else commit false (hasPlayed f) (f', w).

(** Three re-renders always empty the queue (lemma [settle_quiescent]). *)
Definition settle (st : State) : State := round (round (round st)).

Definition mount (w : Window) : State := settle (commit true false (initial, w)).

(** The timeout set by the typewriter effect fires. [eager] tells whether
    React ran the updater at once, on the current state, or queued it for
    the next render, after [indexRef.current++]. *)
Definition fireTimer (id : nat) (eager : bool) (st : State) : State :=
  let '(f, w) := st in
  if bool_decide (id ∈ timers w) then
    let w := clearTimeout id w in
    let f := if eager
             then enqueue (SetDisplayText (appendIndexed (displayText f) text (indexRef f))) f
             else enqueue AppendAtIndex f in
    settle (setIndexRef (S (indexRef f)) f, w)
  else st.

(** [skip()], as returned by the last render. *)
Definition skip (st : State) : State :=
  let '(f, w) := st in
  if negb (isComplete f) then
    let w := clearTimeoutRef f w in
    let f := enqueue (SetDisplayText text) f in
    let f := setIndexRef (length text) f in
    let f := enqueue (SetIsComplete true) f in
    settle (markAsPlayed (f, w))
  else st.

(** The component goes away: the remaining cleanups run. *)
Definition unmount (st : State) : State := typingCleanupRun st.

Inductive Event :=
| Fire (id : nat) (eager : bool)
| Skip.

Definition step (ev : Event) (st : State) : State :=
  match ev with
  | Fire id eager => fireTimer id eager st
  | Skip => skip st
  end.

Definition run (evs : list Event) (st : State) : State :=
  fold_left (λ st ev, step ev st) evs st.

(** The reveal index after each event, oldest first. *)
Fixpoint indices (evs : list Event) (st : State) : list nat :=
  match evs with
  | [] => [indexRef st.1]
  | ev :: evs => indexRef st.1 :: indices evs (step ev st)
  end.

(** What a commit can leave in the queue. *)
Definition queueShape (st : State) : Prop :=
  queue st.1 = [] ∨
  (hasPlayed st.1 = true ∧ queue st.1 = [SetDisplayText text; SetIsComplete true]) ∨
  (hasPlayed st.1 = false ∧ queue st.1 = [SetIsComplete true; SetHasPlayed true]).

(** The two shapes a mounted hook has between events: the animation is
    running, one timeout pending and recorded in [timeoutRef]; or it is
    over, the full text shown and the session flag set. *)
Inductive Settled : State → Prop :=
| SettledRunning dt i id ini s n :
    (i < length text)%nat →
    Settled (mkFiber false dt false ini (Some id) i true [], mkWindow s [id] n)
| SettledCompleted ini tref s n :
    Session.flagSet storageKey s = true →
    Settled (mkFiber true text true ini tref (length text) false [],
             mkWindow s [] n).

End Props.

(** The timeouts set by successive renders fire one after the other:
    handles are handed out in order, starting from [n]. *)
Fixpoint timerEvents (n : nat) (eagers : list bool) : list Event :=
  match eagers with
  | [] => []
  | e :: eagers => Fire n e :: timerEvents (S n) eagers
  end.

(** The hook mounted in a session [s] with no timeout pending, after the
    events [evs]. *)
Definition reached (text : jsstring) (storageKey : string) (s : Session.t)
                   (n : nat) (evs : list Event) : State :=
  run text storageKey evs (mount text storageKey (mkWindow s [] n)).

End Hook.

(** ** The TerminalPrompt component *)

Module Prompt.

(** The literal of the source file: the prompt followed by the three code
    units U+00E2 U+2013 U+02C6. *)
Definition fullText : jsstring :=
  lit "user@terminal:~$ " ++ [226%N; 8211%N; 710%N].

Definition storageKey : string := "promptPlayed".

Inductive Update :=
| SetDisplayText (s : jsstring)
| AppendIndexed (i : nat)      (* prev => prev + fullText[currentIndex] *)
| SetCurrentIndex (i : nat)
| IncrementIndex               (* prev => prev + 1 *)
| SetHasPlayed (b : bool).

Record Fiber := mkFiber {
  (* useState, as rendered *)
  displayText : jsstring;
  currentIndex : nat;
  hasPlayed : bool;
  (* the timeout held by the cleanup of the animation effect's last run *)
  typingCleanup : option nat;
  (* [hasPlayed] as seen by the registered keydown handler *)
  keyHandler : option bool;
  queue : list Update
}.

(** A pending timeout remembers the [currentIndex] of the render that set it. *)
Record Window := mkWindow {
  session : Session.t;
  timers : list (nat * nat);
  nextTimer : nat
}.

Definition State : Type := Fiber * Window.

Definition initial : Fiber := mkFiber [] 0 false None None [].

Definition enqueue (u : Update) (f : Fiber) : Fiber :=
  mkFiber (displayText f) (currentIndex f) (hasPlayed f) (typingCleanup f)
          (keyHandler f) (queue f ++ [u]).

Definition clearTimeout (id : nat) (w : Window) : Window :=
  mkWindow (session w) (filter (λ t, t.1 ≠ id) (timers w)) (nextTimer w).

Definition setPlayed (w : Window) : Window :=
  mkWindow (Session.setItem storageKey "true" (session w)) (timers w) (nextTimer w).

Definition applyUpdate (f : Fiber) (u : Update) : Fiber :=
  match u with
  | SetDisplayText s =>
      mkFiber s (currentIndex f) (hasPlayed f) (typingCleanup f) (keyHandler f) (queue f)
  | AppendIndexed i =>
      mkFiber (appendIndexed (displayText f) fullText i) (currentIndex f)
              (hasPlayed f) (typingCleanup f) (keyHandler f) (queue f)
  | SetCurrentIndex i =>
      mkFiber (displayText f) i (hasPlayed f) (typingCleanup f) (keyHandler f) (queue f)
  | IncrementIndex =>
      mkFiber (displayText f) (S (currentIndex f)) (hasPlayed f) (typingCleanup f)
              (keyHandler f) (queue f)
  | SetHasPlayed b =>
      mkFiber (displayText f) (currentIndex f) b (typingCleanup f) (keyHandler f) (queue f)
  end.

Definition render (f : Fiber) : Fiber :=
  fold_left applyUpdate (queue f)
    (mkFiber (displayText f) (currentIndex f) (hasPlayed f) (typingCleanup f)
             (keyHandler f) []).

Definition sameState (f g : Fiber) : bool :=
  bool_decide (displayText f = displayText g) &&
  bool_decide (currentIndex f = currentIndex g) &&
  bool_decide (hasPlayed f = hasPlayed g).

(** The first effect, dependencies [currentIndex, hasPlayed]. *)
Definition typingEffect (st : State) : State :=
  let '(f, w) := st in
  if Session.flagSet storageKey (session w) then
    (enqueue (SetHasPlayed true)
       (enqueue (SetCurrentIndex (length fullText))
          (enqueue (SetDisplayText fullText) f)), w)
  else if bool_decide (currentIndex f < length fullText)%nat then
    (mkFiber (displayText f) (currentIndex f) (hasPlayed f) (Some (nextTimer w))
             (keyHandler f) (queue f),
     mkWindow (session w) (timers w ++ [(nextTimer w, currentIndex f)])
              (S (nextTimer w)))
  else if bool_decide (currentIndex f = length fullText) && negb (hasPlayed f) then
    (enqueue (SetHasPlayed true) f, setPlayed w)
  else st.

Definition typingCleanupRun (st : State) : State :=
  let '(f, w) := st in
  match typingCleanup f with
  | Some id =>
      (mkFiber (displayText f) (currentIndex f) (hasPlayed f) None
               (keyHandler f) (queue f), clearTimeout id w)
  | None => st
  end.

(** The second effect, dependency [hasPlayed]: (re)registers the keydown
    handler, which closes over [hasPlayed]. *)
Definition keyEffect (st : State) : State :=
  let '(f, w) := st in
  (mkFiber (displayText f) (currentIndex f) (hasPlayed f) (typingCleanup f)
           (Some (hasPlayed f)) (queue f), w).

Definition commit (first : bool) (prev : Fiber) (st : State) : State :=
  let typingDeps := first
                    || negb (bool_decide (currentIndex st.1 = currentIndex prev))
                    || negb (bool_decide (hasPlayed st.1 = hasPlayed prev)) in
  let keyDeps := first || negb (bool_decide (hasPlayed st.1 = hasPlayed prev)) in
  let st := if typingDeps then typingCleanupRun st else st in
  let st := if typingDeps then typingEffect st else st in
  if keyDeps then keyEffect st else st.

Definition round (st : State) : State :=
  let '(f, w) := st in
  let f' := render f in
  if sameState f f' then (f', w) else commit false f (f', w).

(** Three re-renders always empty the queue (lemma
    [prompt_settle_quiescent]). *)
Definition settle (st : State) : State := round (round (round st)).

Definition mount (w : Window) : State := settle (commit true initial (initial, w)).

(** The timeout of the animation effect fires. *)
Definition fireTimer (id : nat) (st : State) : State :=
  let '(f, w) := st in
  match list_find (λ t, t.1 = id) (timers w) with
  | Some (_, (_, i)) =>
      settle (enqueue IncrementIndex (enqueue (AppendIndexed i) f), clearTimeout id w)
  | None => st
  end.

(** A key is pressed: [handleKeyPress] of the registered handler runs. *)
Definition keydown (st : State) : State :=
  let '(f, w) := st in
  match keyHandler f with
  | Some false =>
      settle (enqueue (SetHasPlayed true)
                (enqueue (SetCurrentIndex (length fullText))
                   (enqueue (SetDisplayText fullText) f)),
              setPlayed w)
  | _ => st
  end.

Definition unmount (st : State) : State :=
  let '(f, w) := typingCleanupRun st in
  (mkFiber (displayText f) (currentIndex f) (hasPlayed f) (typingCleanup f)
           None (queue f), w).

Inductive Event :=
| Fire (id : nat)
| Keydown.

Definition step (ev : Event) (st : State) : State :=
  match ev with
  | Fire id => fireTimer id st
  | Keydown => keydown st
  end.

Definition run (evs : list Event) (st : State) : State :=
  fold_left (λ st ev, step ev st) evs st.

(** What a commit can leave in the queue: nothing; the three updates of
    an already played session; or the single update of a completion. *)
Definition queueShape (st : State) : Prop :=
  queue st.1 = [] ∨
  (Session.flagSet storageKey (session st.2) = true ∧
   queue st.1 = [SetDisplayText fullText; SetCurrentIndex (length fullText);
                 SetHasPlayed true]) ∨
  (Session.flagSet storageKey (session st.2) = true ∧
   currentIndex st.1 = length fullText ∧ hasPlayed st.1 = false ∧
   queue st.1 = [SetHasPlayed true]).

(** The two shapes the mounted component has between events: the
    animation is running with one timeout pending, the flag unset and the
    key handler armed; or it is over. *)
Inductive Settled : State → Prop :=
| SettledRunning dt i id s n :
    Session.flagSet storageKey s = false →
    (i < length fullText)%nat →
    Settled (mkFiber dt i false (Some id) (Some false) [], mkWindow s [(id, i)] n)
| SettledCompleted s n :
    Session.flagSet storageKey s = true →
    Settled (mkFiber fullText (length fullText) true None (Some true) [],
             mkWindow s [] n).

(** [count] timeouts firing one after the other, handles starting at [n]. *)
Fixpoint timerEvents (n count : nat) : list Event :=
  match count with
  | O => []
  | S count => Fire n :: timerEvents (S n) count
  end.

(** The reveal index after each event, oldest first. *)
Fixpoint indices (evs : list Event) (st : State) : list nat :=
  match evs with
  | [] => [currentIndex st.1]
  | ev :: evs => currentIndex st.1 :: indices evs (step ev st)
  end.

(** The component mounted in a session [s] with no timeout pending, after
    the events [evs]. *)
Definition reached (s : Session.t) (n : nat) (evs : list Event) : State :=
  run evs (mount (mkWindow s [] n)).

End Prompt.

(** ** The ProgressBar component

    A JavaScript number is an IEEE 754 double.  The finite doubles are
    taken as the rationals they denote, and an operation first computes the
    exact result and then rounds it to the nearest double, a tie going to
    the even significand ([rnd], [round64]); an infinity is [None].  The
    state update [Math.min(prev + 3, percentage)] is exact on the values the
    animation goes through for a target below [2 ^ 53] (multiples of three
    up to the target, then the target), so [tick] needs no rounding.  The
    division and the multiplication in [filled] are rounded:
    [Math.floor((58 / 100) * 100)] is 57. *)

Module ProgressBar.

Local Open Scope Q_scope.

(** [Math.min] *)
Definition min (a b : Q) : Q := if Qle_bool a b then a else b.

(** The timeout callback of the effect, on the state it finds:
    [if (currentPercent < percentage) setCurrentPercent(prev => Math.min(prev + 3, percentage))] *)
Definition tick (percentage currentPercent : Q) : Q :=
  if Qle_bool percentage currentPercent then currentPercent
  else min (currentPercent + 3) percentage.

(** [currentPercent] after [n] timeouts; [useState(0)] at mount. *)
Fixpoint currentPercent (percentage : Q) (n : nat) : Q :=
  match n with
  | O => 0
  | S n => tick percentage (currentPercent percentage n)
  end.

(** *** Double arithmetic *)

Definition pow2 (e : Z) : Q := 2 ^ e.

(** The integer part of the binary logarithm of a positive rational. *)
Definition ilog2 (q : Q) : Z :=
  let k := (Z.log2 (Qnum q) - Z.log2 (Zpos (Qden q)))%Z in
  if Qle_bool (pow2 k) q then k else (k - 1)%Z.

(** The nearest integer, a tie going to the even one. *)
Definition roundHalfEven (q : Q) : Z :=
  let f := Qfloor q in
  match Qcompare (q - inject_Z f) (1 # 2) with
  | Lt => f
  | Gt => (f + 1)%Z
  | Eq => if Z.even f then f else (f + 1)%Z
  end.

(** The exponent of the last place of the doubles around a positive [q]:
    53 significant bits, and no exponent below that of the subnormals. *)
Definition ulpExponent (q : Q) : Z := Z.max (ilog2 q - 52) (-1074).

(** A positive [q] rounded to a multiple of its last place. *)
Definition roundMagnitude (q : Q) : Q :=
  inject_Z (roundHalfEven (q / pow2 (ulpExponent q))) * pow2 (ulpExponent q).

(** Round to nearest, ties to even, with no bound on the exponent. *)
Definition rnd (q : Q) : Q :=
  match Qcompare q 0 with
  | Eq => 0
  | Gt => roundMagnitude q
  | Lt => - roundMagnitude (- q)
  end.

(** [Number.MAX_VALUE] *)
Definition maxDouble : Q := inject_Z (2 ^ 53 - 1) * pow2 971.

(** The double nearest to [q]; [None] stands for an infinity. *)
Definition round64 (q : Q) : option Q :=
  if Qle_bool (Qabs (rnd q)) maxDouble then Some (rnd q) else None.

(** The rationals that are finite doubles, but for the bound on their size. *)
Definition representable (f : Q) : Prop :=
  ∃ m e, (-1074 <= e)%Z ∧ (Z.abs m < 2 ^ 53)%Z ∧ f == inject_Z m * pow2 e.

(** [a / b], [a * b] and [a - b] on doubles. *)
Definition fdiv (a b : Q) : option Q := round64 (a / b).
Definition fmul (a b : Q) : option Q := round64 (a * b).
Definition fsub (a b : Q) : option Q := round64 (a - b).

(** *** The bar *)

(** [Math.floor((currentPercent / 100) * width)]; the floor of an infinity
    is that infinity. *)
Definition filled (currentPercent width : Q) : option Z :=
  match fdiv currentPercent 100 with
  | Some x =>
      match fmul x width with
      | Some y => Some (Qfloor y)
      | None => None
      end
  | None => None
  end.

(** [width - filled] *)
Definition empty (width : Q) (filled : Z) : option Q :=
  fsub width (inject_Z filled).

(** ToIntegerOrInfinity on a finite number: rounding towards zero. *)
Definition truncate (q : Q) : Z :=
  if Qle_bool 0 q then Qfloor q else Qceiling q.

(** [String.prototype.repeat] of a one-character string: the count is
    truncated to an integer; a negative count is a RangeError, and so is a
    count above [limit], the length of the longest string the engine makes
    (ECMAScript allows at most [2 ^ 53 - 1] code units, V8 makes
    [2 ^ 29 - 24]). *)
Definition repeat (limit : Z) (c : N) (count : Q) : option jsstring :=
  let n := truncate count in
  if ((n <? 0) || (limit <? n))%Z then None
  else Some (replicate (Z.to_nat n) c).

(** The text of the bar, [None] when rendering throws: [repeat] throws a
    RangeError also on an infinite count. *)
Definition bar (limit : Z) (currentPercent width : Q) : option jsstring :=
  match filled currentPercent width with
  | None => None
  | Some f =>
      match repeat limit 9608%N (inject_Z f), empty width f with
      | Some a, Some e =>
          match repeat limit 9617%N e with
          | Some b => Some (a ++ b)
          | None => None
          end
      | _, _ => None
      end
  end.

(** The string limit of V8 on 64-bit platforms. *)
Definition v8StringLimit : Z := 2 ^ 29 - 24.

End ProgressBar.

(** ** Closed forms of a typeWriter run *)

Module Typed.
Import Dom Typewriter.

(** The [onCharacter] calls made for the characters of [text], in order. *)
Definition characterCalls (text : jsstring) : list Call :=
  imap (λ i c, CharacterCall c i) text.

(** The element once [k] characters have been typed onto [e]. *)
Definition elementAfter (e : Element) (text : jsstring) (k : nat) : Element :=
  match k with
  | O => e
  | S _ =>
      setAttribute "data-text" (textContent e ++ take k text)
        (setTextContent (textContent e ++ take k text) e)
  end.

(** The run while the interval is active, [k] characters typed. *)
Definition typing (text : jsstring) (e : Element) (cfg : Config) (k : nat) : Run :=
  mkRun text (elementAfter e text k) cfg k Typing Pending false (Some 1%nat)
        (if onCharacter cfg then characterCalls (take k text) else []).

(** The run once the interval has cleared itself. *)
Definition finished (text : jsstring) (e : Element) (cfg : Config) : Run :=
  mkRun text (elementAfter e text (length text)) cfg (length text) Idle Fulfilled
        false (Some 1%nat)
        ((if onCharacter cfg then characterCalls text else [])
         ++ (if onComplete cfg then [CompleteCall] else [])).

(** What has to happen before the first tick: the start delay, if one is
    configured, elapses. *)
Definition startEvents (cfg : Config) : list Event :=
  if (0 <? startDelay cfg)%Z then [StartElapsed] else [].

(** A promise that is fulfilled or still pending. *)
Definition notRejected (p : Promise) : bool :=
  match p with
  | Rejected _ => false
  | _ => true
  end.

End Typed.

(** ** GlitchAnimator: an undisturbed cycle, and the one-shot helper *)

Module GlitchCycle.
Import Dom Glitch.

(** The custom properties [applyGlitchPattern] writes. *)
Definition glitchProperties : list string :=
  ["--glitch-left-speed"; "--glitch-right-speed"; "--glitch-skew-speed";
   "--glitch-clip-before"; "--glitch-clip-after";
   "--glitch-color-1"; "--glitch-color-2"].

(** [triggerGlitch(elementId)]: a throw-away animator, triggered once. *)
Definition triggerGlitch (id : string) (g : GlitchData) (p : Page) : Page :=
  (triggerOnce g (constructor id, p)).2.

(** The timeouts of a cycle nobody interferes with, firing in turn from
    handle [n] on: the one that executes a glitch (drawing the next pattern
    of [gs]), then the one that ends it. *)
Fixpoint cycleEvents (n : nat) (gs : list GlitchData) : list Event :=
  match gs with
  | [] => []
  | g :: gs => Fire n g :: Fire (S n) g :: cycleEvents (S (S n)) gs
  end.

(** The element after the patterns [gs] have been applied and ended. *)
Definition glitched (e : Element) (gs : list GlitchData) : Element :=
  fold_left (λ e g, classRemove "glitch" (classAdd "glitch" (applyGlitchPattern e g)))
            gs e.

End GlitchCycle.

(** ** IntroController: what a controller's flags say about its past *)
Module IntroLife.
Import Dom Intro.

(** The callbacks a controller with these flags has invoked. *)
Definition expectedCallbacks (c : Controller) : list Callback :=
  if isSkipped c then (if onSkip (config c) then [OnSkip] else [])
  else if isComplete c then (if onComplete (config c) then [OnComplete] else [])
  else [].

(** The session storage it has left behind, from [s0]. *)
Definition expectedSession (c : Controller) (s0 : Session.t) : Session.t :=
  if isComplete c then Session.setItem (storageKey (config c)) "true" s0 else s0.

(** The handlers [init] registers, the first of them with handle [h]. *)
Definition addedHandlers (cfg : Config) (h : nat) : list (EventType * nat) :=
  (if skipOnKey cfg then [(Keydown, h)] else [])
  ++ (if skipOnClick cfg then [(Click, if skipOnKey cfg then S h else h)] else []).

Definition enabled (ty : EventType) (cfg : Config) : bool :=
  match ty with Keydown => skipOnKey cfg | Click => skipOnClick cfg end.

(** Between its creation and now, a controller has invoked the callbacks and
    written the storage its flags stand for. *)
Definition lifeInv (c0 : Controller) (p0 : Page) (st : State) : Prop :=
  config st.1 = config c0 ∧
  isSkipped st.1 && isComplete st.1 = false ∧
  fired st.2 = fired p0 ++ expectedCallbacks st.1 ∧
  session st.2 = expectedSession st.1 (session p0).

End IntroLife.

(** ** The hooks: what is displayed *)
Module Shown.


(** TerminalPrompt is settled and shows the first [currentIndex]
    characters: its timeout callback appends the character at the index its
    render saw. *)
Definition promptShown (st : Prompt.State) : Prop :=
  Prompt.Settled st ∧
  Prompt.displayText st.1 = take (Prompt.currentIndex st.1) Prompt.fullText.

End Shown.

(** ** ModalController: opening and closing *)
Module ModalOps.
Import Dom Modal.

(** [config.onOpen] and [config.onClose]: functions, the empty ones by
    default, so every [open()] and [close()] that gets past its guard
    invokes one. *)
Inductive Callback := OnOpen | OnClose.

#[global] Instance ModalCallback_eq_dec : EqDecision Callback.
Proof. solve_decision. Defined.

(** The two timeout callbacks: the one of [open()], which starts the
    transition, and the one of an animated [close()], which hides the modal
    once the transition is over.  Delays ([10] and
    [config.transitionDuration]) are not tracked: a pending timeout may fire
    at any time. *)
Inductive Task := RevealModal | HideModal.

#[global] Instance ModalTask_eq_dec : EqDecision Task.
Proof. solve_decision. Defined.

(** The controller object with the one configuration field the listeners
    need beside those of [Modal.Config]. *)
Record Instance := mkInstance {
  controller : Modal.Controller;
  resizeBreakpoint : Z
}.

Record Browser := mkBrowser {
  page : Modal.Page;
  bodyOverflow : string;             (* document.body.style.overflow *)
  timers : list (nat * Task);
  nextTimer : nat;
  fired : list Callback
}.

Definition State : Type := Instance * Browser.

Definition withDocument (d : Document) (p : Modal.Page) : Modal.Page :=
  Modal.mkPage d (navLinks p) (listeners p) (warnings p).

Definition setIsOpen (b : bool) (c : Modal.Controller) : Modal.Controller :=
  Modal.mkController (config c) b (modal c) (triggers c) (closeButtons c).

(** [new ModalController(config)] *)
Definition create (cfg : Modal.Config) (breakpoint : Z) (b : Browser) : State :=
  let '(c, p) := Modal.constructor cfg (page b) in
  (mkInstance c breakpoint,
   mkBrowser p (bodyOverflow b) (timers b) (nextTimer b) (fired b)).

(** The two labels written into the triggers: U+2715 and U+2630. *)
Definition closeLabel : jsstring := [10005%N].
Definition menuLabel : jsstring := [9776%N].

(** [trigger.innerHTML = label; trigger.setAttribute('aria-expanded', v)]
    for every trigger, in order. *)
Definition updateTrigger (label v : jsstring) (e : Element) : Element :=
  setAttribute "aria-expanded" v (setTextContent label e).

Definition updateTriggers (label v : jsstring) (ts : list string)
                          (d : Document) : Document :=
  fold_left (λ d t, alter (updateTrigger label v) t d) ts d.

Definition open (st : State) : State :=
  let '(i, b) := st in
  let c := controller i in
  match modal c with
  | None => st
  | Some m =>
      if isOpen c then st
      else
        let d := alter (setProperty "display" "flex") m (document (page b)) in
        let d := alter (setAttribute "aria-hidden" (lit "false")) m d in
        let d := updateTriggers closeLabel (lit "true") (triggers c) d in
        (mkInstance (setIsOpen true c) (resizeBreakpoint i),
         mkBrowser (withDocument d (page b)) "hidden"
                   (timers b ++ [(nextTimer b, RevealModal)]) (S (nextTimer b))
                   (fired b ++ [OnOpen]))
  end.

(** The class changes of the two branches of [close]. *)
Definition hideClasses (instant : bool) (e : Element) : Element :=
  if instant
  then classRemove "opacity-100"
         (classAdd "invisible" (classAdd "opacity-0" (setProperty "display" "none" e)))
  else classAdd "invisible" (classAdd "opacity-0" (classRemove "opacity-100" e)).

Definition close (instant : bool) (st : State) : State :=
  let '(i, b) := st in
  let c := controller i in
  match modal c with
  | None => st
  | Some m =>
      if negb (isOpen c) then st
      else
        let d := alter (hideClasses instant) m (document (page b)) in
        let d := alter (setAttribute "aria-hidden" (lit "true")) m d in
        let d := updateTriggers menuLabel (lit "false") (triggers c) d in
        (mkInstance (setIsOpen false c) (resizeBreakpoint i),
         mkBrowser (withDocument d (page b))
                   (if instant then EmptyString else bodyOverflow b)
                   (if instant then timers b
                    else timers b ++ [(nextTimer b, HideModal)])
                   (if instant then nextTimer b else S (nextTimer b))
                   (fired b ++ [OnClose]))
  end.

Definition toggle (st : State) : State :=
  if isOpen (controller st.1) then close false st else open st.

Definition destroy (st : State) : State := close true st.

(** The body of a timeout callback. *)
Definition runTask (t : Task) (m : string) (b : Browser) : Browser :=
  match t with
  | RevealModal =>
      mkBrowser
        (withDocument
           (alter (λ e, classAdd "opacity-100"
                          (classRemove "invisible" (classRemove "opacity-0" e)))
                  m (document (page b)))
           (page b))
        (bodyOverflow b) (timers b) (nextTimer b) (fired b)
  | HideModal =>
      mkBrowser
        (withDocument (alter (setProperty "display" "none") m (document (page b)))
                      (page b))
        EmptyString (timers b) (nextTimer b) (fired b)
  end.

(** A pending timeout fires. *)
Definition fireTimer (id : nat) (st : State) : State :=
  let '(i, b) := st in
  match list_find (λ t, t.1 = id) (timers b), modal (controller i) with
  | Some (_, (_, task)), Some m =>
      (i, runTask task m
            (mkBrowser (page b) (bodyOverflow b)
                       (filter (λ t, t.1 ≠ id) (timers b)) (nextTimer b) (fired b)))
  | _, _ => st
  end.

(** What the page and the caller can do.  A click reaches the listeners
    put on its target: an element, named by its id, or one of the modal's
    navigation links, named by its position. *)
Inductive Event :=
| Open
| Close (instant : bool)
| Toggle
| Destroy
| ClickElement (id : string)
| ClickNavLink (link : nat)
| Keydown (key : string)
| Resize (innerWidth : Z)
| Fire (id : nat).

(** One registered listener is handed the event. *)
Definition react (ev : Event) (l : Listener) (st : State) : State :=
  match ev, l with
  | ClickElement id, TriggerClick id' =>
      if bool_decide (id = id') then toggle st else st
  | ClickElement id, CloseClick id' =>
      if bool_decide (id = id') then close false st else st
  | ClickNavLink n, NavLinkClick n' =>
      if bool_decide (n = n') then close true st else st
  | Keydown key, DocumentKeydown =>
      if bool_decide (key = "Escape") && isOpen (controller st.1)
      then close false st else st
  | Resize w, WindowResize =>
      if (resizeBreakpoint st.1 <=? w)%Z && isOpen (controller st.1)
      then close false st else st
  | _, _ => st
  end.

(** The listeners run in the order of their registration. *)
Definition dispatch (ev : Event) (st : State) : State :=
  fold_left (λ st l, react ev l st) (listeners (page st.2)) st.

Definition step (ev : Event) (st : State) : State :=
  match ev with
  | Open => open st
  | Close instant => close instant st
  | Toggle => toggle st
  | Destroy => destroy st
  | Fire id => fireTimer id st
  | _ => dispatch ev st
  end.

Definition run (evs : list Event) (st : State) : State :=
  fold_left (λ st ev, step ev st) evs st.

(** [n] invocations that alternate, [onOpen] first. *)
Fixpoint alternation (n : nat) : list Callback :=
  match n with
  | O => []
  | S n => alternation n ++ [if Nat.even n then OnOpen else OnClose]
  end.

(** How often [id] is listed. *)
Definition occurrences (id : string) (ids : list string) : nat :=
  length (filter (λ x, x = id) ids).

(** A browser showing [p], nothing pending. *)
Definition browserOf (p : Modal.Page) : Browser :=
  mkBrowser p EmptyString [] 0 [].

(** An open controller on a page that holds only its modal. *)
Definition openOn (id : string) : State :=
  (mkInstance
     (Modal.mkController (Modal.mkConfig id None None true true true) true
        (Some id) [] []) 768,
   mkBrowser (Modal.mkPage {[ id := mkElement [] ∅ [] ∅ true ]} 0 [] [])
             "hidden" [] 0 []).

(** Nothing of a controller is on the page yet: no listener, no timeout. *)
Definition pristine (b : Browser) : bool :=
  match listeners (page b), timers b with
  | [], [] => true
  | _, _ => false
  end.

(** The controller made on [b], after the events [evs]. *)
Definition reached (cfg : Modal.Config) (breakpoint : Z) (b : Browser)
                   (evs : list Event) : State :=
  run evs (create cfg breakpoint b).

(** The element with id [k] is in the document and has the property [P]. *)
Definition elementHas (P : Element → Prop) (k : string) (d : Document) : Prop :=
  ∃ e, d !! k = Some e ∧ P e.

(** What [open()] and [close()] write, by the state they lead to. *)
Definition hiddenValue (isOpen : bool) : jsstring :=
  if isOpen then lit "false" else lit "true".
Definition expandedValue (isOpen : bool) : jsstring :=
  if isOpen then lit "true" else lit "false".
Definition triggerLabel (isOpen : bool) : jsstring :=
  if isOpen then closeLabel else menuLabel.

(** What never changes once the constructor has returned. *)
Definition wiring (st : State) :=
  (config (controller st.1), modal (controller st.1),
   triggers (controller st.1), closeButtons (controller st.1),
   resizeBreakpoint st.1,
   listeners (page st.2), navLinks (page st.2), warnings (page st.2)).

(** The element functions that touch classes and style only. *)
Definition cosmetic (f : Element → Element) : Prop :=
  ∀ e, textContent (f e) = textContent e ∧ attributes (f e) = attributes e.

(** The invariant of a controller that found its modal [m]: the callbacks
    invoked since [f0] alternate, [isOpen] is the parity of their number,
    and from the first call on the ARIA attributes and the trigger labels
    say whether the modal is open. *)
Definition modalInv (m : string) (f0 : list Callback) (st : State) : Prop :=
  modal (controller st.1) = Some m ∧
  is_Some (document (page st.2) !! m) ∧
  (∀ t, t ∈ triggers (controller st.1) → is_Some (document (page st.2) !! t)) ∧
  ∃ n, fired st.2 = f0 ++ alternation n ∧
       isOpen (controller st.1) = Nat.odd n ∧
       (n ≠ 0%nat →
        elementHas (λ e, attributes e !! "aria-hidden"
                         = Some (hiddenValue (Nat.odd n)))
                   m (document (page st.2)) ∧
        ∀ t, t ∈ triggers (controller st.1) →
             elementHas (λ e, textContent e = triggerLabel (Nat.odd n) ∧
                              attributes e !! "aria-expanded"
                              = Some (expandedValue (Nat.odd n)))
                        t (document (page st.2))).

(** The listeners [ls] are handed the event one after the other. *)
Definition reacts (ev : Event) (ls : list Listener) (st : State) : State :=
  fold_left (λ st l, react ev l st) ls st.

(** The listeners [_attachListeners] registers, by kind. *)
Definition navListeners (cfg : Config) (k : nat) : list Listener :=
  if closeOnNavigation cfg then map NavLinkClick (seq 0 k) else [].
Definition keyListeners (cfg : Config) : list Listener :=
  if closeOnEscape cfg then [DocumentKeydown] else [].
Definition resizeListeners (cfg : Config) : list Listener :=
  if closeOnResize cfg then [WindowResize] else [].

End ModalOps.

(** * Properties *)

(** ** Generic facts about event runs *)

Section Runs.

Context {S E : Type} (stp : E → S → S).

Lemma run_invariant (P : S → Prop) :
  (∀ ev s, P s → P (stp ev s)) →
  ∀ evs s, P s → P (fold_left (λ s ev, stp ev s) evs s).
Proof.
  intros Hstep evs. induction evs as [|ev evs IH]; intros s Hs; simpl.
  - exact Hs.
  - apply IH, Hstep, Hs.
Qed.

(** A quantity that no step changes on the states of an invariant is the
    same at the end of a run. *)
Lemma run_preserves {A} (P : S → Prop) (m : S → A) :
  (∀ ev s, P s → P (stp ev s) ∧ m (stp ev s) = m s) →
  ∀ evs s, P s → m (fold_left (λ s ev, stp ev s) evs s) = m s.
Proof.
  intros Hstep evs. induction evs as [|ev evs IH]; intros s Hs; simpl.
  - reflexivity.
  - destruct (Hstep ev s Hs) as [HP Hm]. rewrite IH by exact HP. exact Hm.
Qed.

End Runs.

(** ** sessionStorage *)

Lemma flagSet_setItem key s : Session.flagSet key (Session.setItem key "true" s) = true.
Proof.
  unfold Session.flagSet, Session.getItem, Session.setItem. simpl.
  rewrite lookup_insert_eq. reflexivity.
Qed.


Lemma writesTo_setItem key v s :
  Session.writesTo key (Session.setItem key v s) = S (Session.writesTo key s).
Proof.
  unfold Session.writesTo, Session.setItem. simpl.
  rewrite filter_app, length_app, filter_cons, decide_True by done.
  simpl. lia.
Qed.

(** ** IntroController *)

Section IntroFacts.
Import Dom Intro.

Lemma removeHandlers_fields st :
  isSkipped (_removeHandlers st).1 = isSkipped st.1 ∧
  isComplete (_removeHandlers st).1 = isComplete st.1 ∧
  config (_removeHandlers st).1 = config st.1 ∧
  fired (_removeHandlers st).2 = fired st.2 ∧
  session (_removeHandlers st).2 = session st.2.
Proof. destruct st as [c p]. simpl. auto. Qed.

Lemma hideIntro_fields st :
  isSkipped (_hideIntro st).1 = isSkipped st.1 ∧
  isComplete (_hideIntro st).1 = isComplete st.1 ∧
  config (_hideIntro st).1 = config st.1 ∧
  fired (_hideIntro st).2 = fired st.2 ∧
  session (_hideIntro st).2 = session st.2.
Proof.
  destruct st as [c p]. unfold _hideIntro.
  destruct (introElement c); simpl; auto.
Qed.

Lemma removeIntro_fields st :
  (_removeIntro st).1 = st.1 ∧
  fired (_removeIntro st).2 = fired st.2 ∧
  session (_removeIntro st).2 = session st.2 ∧
  listeners (_removeIntro st).2 = listeners st.2.
Proof.
  destruct st as [c p]. unfold _removeIntro.
  destruct (introElement c) as [id|]; simpl; auto.
  destruct (document p !! id) as [e|]; simpl; auto.
  destruct (attached e); simpl; auto.
Qed.

Lemma init_fields st :
  isSkipped (init st).2.1 = isSkipped st.1 ∧
  isComplete (init st).2.1 = isComplete st.1 ∧
  config (init st).2.1 = config st.1 ∧
  fired (init st).2.2 = fired st.2 ∧
  session (init st).2.2 = session st.2.
Proof.
  destruct st as [c p]. unfold init.
  destruct (introId (config c) ≫= _) as [id|]; [|simpl; auto].
  destruct (negb _).
  - destruct (removeIntro_fields (setIntroElement (Some id) c, p)) as (H1 & H2 & H3 & _).
    cbn [fst snd]. rewrite H1, H2, H3. simpl. auto.
  - destruct (skipOnKey _), (skipOnClick _); simpl; auto.
Qed.

Lemma skip_fields st :
  config (skip st).1 = config st.1 ∧
  isComplete (skip st).1 = isComplete st.1 ∧
  session (skip st).2 = session st.2 ∧
  completions (skip st).2 = completions st.2.
Proof.
  destruct st as [c p]. unfold skip.
  destruct (isSkipped c || isComplete c); [simpl; auto|].
  match goal with |- context [_hideIntro ?s] =>
    destruct (hideIntro_fields s) as (_ & H2 & H3 & H4 & H5) end.
  unfold completions. rewrite H2, H3, H4, H5. cbn [fst snd config isComplete].
  repeat split; destruct (onSkip (config c)); simpl; try reflexivity.
  rewrite filter_app, length_app. simpl. lia.
Qed.

Lemma skip_skipped st : isSkipped st.1 = true → skip st = st.
Proof. destruct st as [c p]. simpl. intros ->. reflexivity. Qed.

Lemma skip_sets_skipped st :
  isComplete st.1 = false → isSkipped (skip st).1 = true.
Proof.
  destruct st as [c p]. unfold skip. cbn [fst]. intros ->.
  destruct (isSkipped c) eqn:Hs; [exact Hs|]. cbn [orb].
  match goal with |- context [_hideIntro ?s] =>
    destruct (hideIntro_fields s) as (H1 & _) end.
  rewrite H1. reflexivity.
Qed.

Lemma complete_stopped st :
  isSkipped st.1 || isComplete st.1 = true → complete st = st.
Proof. destruct st as [c p]. simpl. intros ->. reflexivity. Qed.

Lemma complete_running st :
  isSkipped st.1 = false → isComplete st.1 = false →
  isSkipped (complete st).1 = false ∧
  isComplete (complete st).1 = true ∧
  session (complete st).2
    = Session.setItem (storageKey (config st.1)) "true" (session st.2) ∧
  fired (complete st).2
    = fired st.2 ++ (if onComplete (config st.1) then [OnComplete] else []).
Proof.
  destruct st as [c p]. unfold complete. cbn [fst snd]. intros -> ->. cbn [orb].
  match goal with |- context [_hideIntro ?s] =>
    destruct (hideIntro_fields s) as (H1 & H2 & _ & H4 & H5) end.
  rewrite H1, H2, H4, H5. cbn [fst snd isSkipped isComplete config].
  destruct (onComplete (config c)); simpl; rewrite ?app_nil_r; auto.
Qed.

Lemma destroy_fields st :
  isSkipped (destroy st).1 = isSkipped st.1 ∧
  isComplete (destroy st).1 = isComplete st.1 ∧
  fired (destroy st).2 = fired st.2 ∧
  session (destroy st).2 = session st.2.
Proof. destruct st as [c p]. simpl. auto. Qed.

Lemma fadeOutElapsed_fields t st :
  (fadeOutElapsed t st).1 = st.1 ∧
  fired (fadeOutElapsed t st).2 = fired st.2 ∧
  session (fadeOutElapsed t st).2 = session st.2.
Proof.
  destruct st as [c p]. unfold fadeOutElapsed.
  destruct (bool_decide _); [|simpl; auto].
  match goal with |- context [_removeIntro ?s] =>
    destruct (removeIntro_fields s) as (H1 & H2 & H3 & _) end.
  rewrite H1, H2, H3. simpl. auto.
Qed.

(** A key press or click only ever calls [skip]. *)
Lemma dispatch_preserves {A} (m : State → A) ty :
  (∀ st, m (skip st) = m st) → ∀ st, m (dispatch ty st) = m st.
Proof.
  intros Hm st. unfold dispatch.
  generalize (filter (λ l : EventType * nat, l.1 = ty) (listeners st.2)).
  intros ls. revert st. induction ls as [|l ls IH]; intros st; simpl.
  - reflexivity.
  - rewrite IH. destruct (bool_decide _); [apply Hm | reflexivity].
Qed.

Lemma step_completions ev st :
  ev ≠ Complete → completions (step ev st).2 = completions st.2.
Proof.
  intros Hev. unfold completions. destruct ev; simpl; try congruence.
  - destruct (init_fields st) as (_ & _ & _ & -> & _). reflexivity.
  - apply (skip_fields st).
  - destruct (destroy_fields st) as (_ & _ & -> & _). reflexivity.
  - apply (dispatch_preserves (λ st, completions st.2)). intros s. apply skip_fields.
  - destruct (fadeOutElapsed_fields timer st) as (_ & -> & _). reflexivity.
Qed.

Lemma dispatch_skipped ty st : isSkipped st.1 = true → dispatch ty st = st.
Proof.
  intros Hs. unfold dispatch.
  generalize (filter (λ l : EventType * nat, l.1 = ty) (listeners st.2)).
  intros ls. induction ls as [|l ls IH]; simpl.
  - reflexivity.
  - destruct (bool_decide _); [rewrite skip_skipped by exact Hs|]; exact IH.
Qed.

Lemma step_keeps_skipped ev st :
  isSkipped st.1 = true → isSkipped (step ev st).1 = true.
Proof.
  intros Hs. destruct ev; simpl.
  - destruct (init_fields st) as (-> & _). exact Hs.
  - rewrite skip_skipped; assumption.
  - rewrite complete_stopped; [assumption | rewrite Hs; reflexivity].
  - destruct (destroy_fields st) as (-> & _). exact Hs.
  - rewrite dispatch_skipped; assumption.
  - destruct (fadeOutElapsed_fields timer st) as (-> & _). exact Hs.
Qed.

(** Once skipped, a controller does nothing on [complete()]. *)
Lemma step_skipped_completions ev st :
  isSkipped st.1 = true →
  isSkipped (step ev st).1 = true ∧ completions (step ev st).2 = completions st.2.
Proof.
  intros Hs. split; [apply step_keeps_skipped, Hs|].
  destruct ev; try (apply step_completions; discriminate).
  simpl. rewrite complete_stopped; [reflexivity | rewrite Hs; reflexivity].
Qed.

Lemma skip_running_intro c p :
  isSkipped c = false → isComplete c = false →
  isSkipped (skip (c, p)).1 = true ∧
  isComplete (skip (c, p)).1 = false ∧
  fired (skip (c, p)).2 = fired p ++ (if onSkip (config c) then [OnSkip] else []) ∧
  (∀ id e, introElement c = Some id → document p !! id = Some e →
           document (skip (c, p)).2 !! id = Some (classAdd "hidden" e) ∧
           skipHandlers (skip (c, p)).1 = []).
Proof.
  destruct c as [cfg ie sk co hs]. simpl. intros -> ->.
  unfold skip. cbn [isSkipped isComplete orb config introElement skipHandlers].
  unfold _hideIntro. cbn [introElement].
  destruct ie as [id|], (onSkip cfg); cbn; rewrite ?app_nil_r;
    (split; [reflexivity|]); (split; [reflexivity|]); (split; [reflexivity|]);
    intros id' e; try discriminate; intros [= <-] He;
    rewrite He; cbn; (split; [apply lookup_insert_eq | reflexivity]).
Qed.

End IntroFacts.

(** ** typeWriter and typeWriterCancellable *)

Section TypewriterFacts.
Import Dom Typewriter.

Lemma typeNext_text r : text (typeNext r) = text r.
Proof. unfold typeNext. destruct (bool_decide _); reflexivity. Qed.

Lemma typeNext_index r :
  (index r ≤ length (text r) → index (typeNext r) ≤ length (text r))%nat ∧
  (index r ≤ index (typeNext r))%nat.
Proof.
  unfold typeNext. case_bool_decide; simpl; lia.
Qed.

(** Every step keeps the text, and moves the index forward within it. *)
Lemma step_index (stp : Event → Run → Run) ev r :
  stp = step ∨ stp = stepCancellable →
  wellFormed r →
  text (stp ev r) = text r ∧ wellFormed (stp ev r) ∧
  (index r ≤ index (stp ev r))%nat.
Proof.
  pose proof (typeNext_text r) as Ht. pose proof (typeNext_index r) as Hi.
  unfold wellFormed.
  assert (Hph : phase r = Typing → phase (typeNext r) ≠ Delayed).
  { unfold typeNext. intros E. destruct (bool_decide _); simpl; congruence. }
  intros [-> | ->] [Hb Hd]; destruct ev; simpl;
    unfold startElapsed, startElapsedCancellable, startElapsed, tick,
      tickCancellable, cancel;
    destruct (phase r) eqn:Hp, (cancelled r); simpl;
    rewrite ?Ht, ?Hp; repeat split; try tauto; try lia; try congruence;
    try (intros E; exfalso; apply Hph; auto; fail);
    try (destruct (intervalId r) as [[|?]|]; congruence);
    try (rewrite Hd by reflexivity; lia).
Qed.

Lemma indices_sorted_bounded (stp : Event → Run → Run) evs :
  stp = step ∨ stp = stepCancellable →
  ∀ r, wellFormed r →
  Sorted le (indices stp evs r) ∧
  Forall (λ i, index r ≤ i ∧ i ≤ length (text r))%nat (indices stp evs r).
Proof.
  intros Hstp. induction evs as [|ev evs IH]; intros r Hr; simpl.
  - destruct Hr. split; repeat constructor; lia.
  - destruct (step_index stp ev r Hstp Hr) as (Ht & Hwf & Hi).
    destruct (IH (stp ev r) Hwf) as [Hs Hb].
    rewrite Ht in Hb. destruct Hr as [Hr _]. split.
    + constructor; [exact Hs|].
      destruct evs; simpl; constructor; lia.
    + constructor; [lia|]. eapply Forall_impl; [exact Hb|]. simpl. intros; lia.
Qed.

(** After [cancel()] neither the pending start delay nor a further tick
    types or completes anything. *)
Lemma cancelled_step ev r :
  cancelled r = true →
  cancelled (stepCancellable ev r) = true ∧
  calls (stepCancellable ev r) = calls r ∧
  element (stepCancellable ev r) = element r ∧
  index (stepCancellable ev r) = index r.
Proof.
  intros Hc. destruct ev; simpl;
    unfold startElapsedCancellable, tickCancellable, cancel;
    rewrite ?Hc; destruct (phase r); simpl; auto.
Qed.

Lemma cancel_fields r :
  cancelled (cancel r) = true ∧ calls (cancel r) = calls r ∧
  element (cancel r) = element r ∧ index (cancel r) = index r.
Proof. unfold cancel. simpl. auto. Qed.

(** A run that is idle has no timer left: nothing can happen to it but a
    [cancel()], which only sets the flag. *)
Lemma idle_step ev r :
  phase r = Idle →
  phase (stepCancellable ev r) = Idle ∧
  step ev r = r ∧
  calls (stepCancellable ev r) = calls r ∧
  element (stepCancellable ev r) = element r ∧
  promise (stepCancellable ev r) = promise r.
Proof.
  intros Hp. destruct ev; simpl;
    unfold startElapsedCancellable, startElapsed, tickCancellable, tick, cancel;
    rewrite ?Hp; simpl; auto.
  destruct (intervalId r) as [[|n]|]; auto.
Qed.

End TypewriterFacts.

(** ** GlitchAnimator *)

Section GlitchFacts.
Import Dom Glitch.

Lemma scheduled_clearTimeout id p :
  scheduledGlitches (clearTimeout id p) `sublist_of` scheduledGlitches p.
Proof.
  unfold scheduledGlitches, clearTimeout. simpl.
  induction (timers p) as [|t ts IH]; simpl.
  - constructor.
  - rewrite !filter_cons.
    destruct (decide (t.1 ≠ id)); destruct (decide (t.2 = ExecuteGlitch)); simpl;
      rewrite ?filter_cons; try rewrite decide_True by assumption;
      try rewrite decide_False by assumption; simpl;
      try (constructor; exact IH); exact IH.
Qed.

Lemma scheduled_setTimeout t p :
  t ≠ ExecuteGlitch →
  scheduledGlitches (setTimeout t p).2 = scheduledGlitches p.
Proof.
  intros Ht. unfold scheduledGlitches, setTimeout. simpl.
  rewrite filter_app, filter_cons, decide_False by exact Ht.
  simpl. rewrite app_nil_r. reflexivity.
Qed.

Lemma glitchElement_timers id g p : timers (glitchElement id g p) = timers p.
Proof. unfold glitchElement. destruct (document p !! id); reflexivity. Qed.

Lemma unglitchElement_timers id p : timers (unglitchElement id p) = timers p.
Proof. unfold unglitchElement. destruct (document p !! id); reflexivity. Qed.

Lemma unglitchElement_glitches id p : glitches (unglitchElement id p) = glitches p.
Proof. unfold unglitchElement. destruct (document p !! id); reflexivity. Qed.

Lemma scheduled_timers p q : timers p = timers q → scheduledGlitches p = scheduledGlitches q.
Proof. unfold scheduledGlitches. intros ->. reflexivity. Qed.

Lemma stop_fields st :
  isRunning (stop st).1 = false ∧
  scheduledGlitches (stop st).2 `sublist_of` scheduledGlitches st.2 ∧
  glitches (stop st).2 = glitches st.2.
Proof.
  destruct st as [a p]. unfold stop.
  destruct (timeoutId a) as [[|n]|]; simpl; repeat split; try reflexivity.
  apply scheduled_clearTimeout.
Qed.

(** [start()] on a running animator returns at once. *)
Lemma start_running st : isRunning st.1 = true → start st = st.
Proof. destruct st as [a p]. simpl. intros ->. reflexivity. Qed.

(** [_scheduleNextGlitch()] on a stopped animator returns at once. *)
Lemma scheduleNextGlitch_stopped st :
  isRunning st.1 = false → _scheduleNextGlitch st = st.
Proof. destruct st as [a p]. simpl. intros ->. reflexivity. Qed.

(** While the animator is stopped, nothing but [start()] adds a timeout
    that executes a glitch. *)
Lemma stopped_step ev st :
  isStart ev = false → isRunning st.1 = false →
  isRunning (step ev st).1 = false ∧
  scheduledGlitches (step ev st).2 `sublist_of` scheduledGlitches st.2.
Proof.
  intros Hev Hr. destruct ev as [| |g|id g|]; try discriminate; simpl.
  - destruct (stop_fields st) as (? & ? & _). auto.
  - destruct st as [a p]. unfold triggerOnce.
    destruct (getElementById _ _); cbn [fst snd]; split; auto.
    rewrite scheduled_setTimeout by discriminate.
    erewrite scheduled_timers; [reflexivity | apply glitchElement_timers].
  - destruct st as [a p]. simpl in Hr. unfold fireTimer.
    destruct (list_find _ _) as [[i [i' task]]|]; [|split; [exact Hr | reflexivity]].
    destruct task.
    + unfold _executeGlitch. destruct (getElementById _ _).
      * cbn [fst snd]. split; [exact Hr|].
        rewrite scheduled_setTimeout by discriminate.
        erewrite scheduled_timers; [|apply glitchElement_timers].
        apply scheduled_clearTimeout.
      * destruct (stop_fields (a, clearTimeout id p)) as (? & ? & _).
        split; [assumption|]. etransitivity; [eassumption|].
        apply scheduled_clearTimeout.
    + rewrite scheduleNextGlitch_stopped by exact Hr. cbn [fst snd]. split; [exact Hr|].
      erewrite scheduled_timers; [|apply unglitchElement_timers].
      apply scheduled_clearTimeout.
    + cbn [fst snd]. split; [exact Hr|].
      erewrite scheduled_timers; [|apply unglitchElement_timers].
      apply scheduled_clearTimeout.
  - destruct st as [a p]. unfold detachElement.
    destruct (document p !! elementId a); simpl; split; auto.
Qed.

Lemma stopped_run evs :
  forallb (λ ev, negb (isStart ev)) evs = true →
  ∀ st, isRunning st.1 = false →
  isRunning (run evs st).1 = false ∧
  scheduledGlitches (run evs st).2 `sublist_of` scheduledGlitches st.2.
Proof.
  induction evs as [|ev evs IH]; simpl; intros Hevs st Hr.
  - split; [exact Hr | reflexivity].
  - apply andb_prop in Hevs as [Hev Hevs]. apply negb_true_iff in Hev.
    destruct (stopped_step ev st Hev Hr) as [Hr' Hs].
    destruct (IH Hevs _ Hr') as [Hr'' Hs'].
    split; [exact Hr''|]. etransitivity; eassumption.
Qed.

End GlitchFacts.

(** ** ProgressBar *)

Section ProgressBarFacts.
Import ProgressBar.
Local Open Scope Q_scope.

Lemma min_le_r a b : min a b <= b.
Proof.
  unfold min. destruct (Qle_bool a b) eqn:E.
  - apply Qle_bool_iff, E.
  - apply Qle_refl.
Qed.

Lemma min_ge c a b : c <= a → c <= b → c <= min a b.
Proof. unfold min. destruct (Qle_bool a b); auto. Qed.

Lemma tick_bounds percentage cp :
  0 <= cp → cp <= percentage →
  0 <= tick percentage cp ∧ tick percentage cp <= percentage.
Proof.
  intros H0 Hle. unfold tick. destruct (Qle_bool percentage cp); [auto|].
  split; [apply min_ge; lra | apply min_le_r].
Qed.

Lemma currentPercent_bounds percentage n :
  0 <= percentage →
  0 <= currentPercent percentage n ∧ currentPercent percentage n <= percentage.
Proof.
  intros Hp. induction n as [|n [IH0 IH1]]; simpl.
  - split; [apply Qle_refl | exact Hp].
  - apply tick_bounds; assumption.
Qed.

Lemma pow2_pos e : 0 < pow2 e.
Proof. apply Qpower_0_lt. reflexivity. Qed.

Lemma pow2_plus a b : pow2 (a + b) == pow2 a * pow2 b.
Proof. apply Qpower_plus. discriminate. Qed.

Lemma pow2_le a b : (a <= b)%Z → pow2 a <= pow2 b.
Proof. intros H. apply Qpower_le_compat_l; [exact H | discriminate]. Qed.

Lemma pow2_inject n : (0 <= n)%Z → pow2 n == inject_Z (2 ^ n).
Proof. intros H. unfold pow2. rewrite (Zpower_Qpower 2 n H). reflexivity. Qed.

Lemma pow2_cancel e : pow2 (- e) * pow2 e == 1.
Proof. rewrite <- pow2_plus. replace (- e + e)%Z with 0%Z by lia. reflexivity. Qed.

Lemma Qdiv_pow2 x e : x / pow2 e == x * pow2 (- e).
Proof.
  unfold Qdiv. apply Qmult_comp; [reflexivity|].
  unfold pow2. rewrite Qpower_opp. reflexivity.
Qed.

Lemma ilog2_lower q : 0 < q → pow2 (ilog2 q) <= q.
Proof.
  intros Hq. unfold ilog2.
  destruct (Qle_bool _ q) eqn:E; [apply Qle_bool_iff, E|].
  destruct q as [n d]. cbn [Qnum Qden].
  assert (Hn : (0 < n)%Z) by (unfold Qlt in Hq; cbn in Hq; lia).
  pose proof (Z.log2_spec n Hn) as [Hn1 _].
  pose proof (Z.log2_spec (Zpos d) eq_refl) as [_ Hd2].
  pose proof (Z.log2_nonneg n) as Hln.
  pose proof (Z.log2_nonneg (Zpos d)) as Hld.
  replace (Z.log2 n - Z.log2 (Z.pos d) - 1)%Z
    with (Z.log2 n + - Z.succ (Z.log2 (Z.pos d)))%Z by lia.
  rewrite pow2_plus, <- Qdiv_pow2, !pow2_inject by lia.
  rewrite (Qmake_Qdiv n d).
  apply Qle_shift_div_l;
    [change 0 with (inject_Z 0); rewrite <- Zlt_Qlt; lia|].
  assert (E1 : inject_Z (2 ^ Z.log2 n) / inject_Z (2 ^ Z.succ (Z.log2 (Z.pos d)))
               * inject_Z (Z.pos d)
               == inject_Z (2 ^ Z.log2 n) * inject_Z (Z.pos d)
                  / inject_Z (2 ^ Z.succ (Z.log2 (Z.pos d))))
    by (unfold Qdiv; ring).
  rewrite E1. apply Qle_shift_div_r;
    [change 0 with (inject_Z 0); rewrite <- Zlt_Qlt; lia|].
  rewrite <- !inject_Z_mult, <- Zle_Qle. nia.
Qed.

Lemma roundHalfEven_comp q q' : q == q' → roundHalfEven q = roundHalfEven q'.
Proof.
  intros H. unfold roundHalfEven. rewrite (Qfloor_comp _ _ H).
  assert (E : Qcompare (q - inject_Z (Qfloor q')) (1 # 2)
              = Qcompare (q' - inject_Z (Qfloor q')) (1 # 2))
    by (apply Qcompare_comp; [rewrite H; reflexivity | reflexivity]).
  rewrite E. reflexivity.
Qed.

Lemma roundHalfEven_le q K : q <= inject_Z K → (roundHalfEven q <= K)%Z.
Proof.
  intros H. unfold roundHalfEven.
  pose proof (Qfloor_le q) as Hf.
  assert (Hfk : (Qfloor q <= K)%Z) by (rewrite Zle_Qle; lra).
  assert (Hup : 0 < q - inject_Z (Qfloor q) → (Qfloor q + 1 <= K)%Z).
  { intros Hr. assert (Hlt : (Qfloor q < K)%Z) by (rewrite Zlt_Qlt; lra). lia. }
  destruct (Qcompare (q - inject_Z (Qfloor q)) (1 # 2)) eqn:E.
  - apply Qeq_alt in E. destruct (Z.even _); [exact Hfk | apply Hup; lra].
  - exact Hfk.
  - apply Qgt_alt in E. apply Hup. lra.
Qed.

Lemma roundHalfEven_ge q K : inject_Z K <= q → (K <= roundHalfEven q)%Z.
Proof.
  intros H. unfold roundHalfEven.
  assert (Hfk : (K <= Qfloor q)%Z)
    by (rewrite <- (Qfloor_Z K); apply Qfloor_resp_le, H).
  destruct (Qcompare (q - inject_Z (Qfloor q)) (1 # 2)); [destruct (Z.even _)| |]; lia.
Qed.

Lemma ilog2_upper q : 0 < q → q < pow2 (ilog2 q + 1).
Proof.
  intros Hq. unfold ilog2.
  destruct (Qle_bool _ q) eqn:E.
  - destruct q as [n d]. cbn [Qnum Qden].
    assert (Hn : (0 < n)%Z) by (unfold Qlt in Hq; cbn in Hq; lia).
    pose proof (Z.log2_spec n Hn) as [_ Hn2].
    pose proof (Z.log2_spec (Zpos d) eq_refl) as [Hd1 _].
    pose proof (Z.log2_nonneg n) as Hln.
    pose proof (Z.log2_nonneg (Zpos d)) as Hld.
    replace (Z.log2 n - Z.log2 (Z.pos d) + 1)%Z
      with (Z.succ (Z.log2 n) + - Z.log2 (Z.pos d))%Z by lia.
    rewrite pow2_plus, <- Qdiv_pow2, !pow2_inject by lia.
    rewrite (Qmake_Qdiv n d).
    apply Qlt_shift_div_l;
      [change 0 with (inject_Z 0); rewrite <- Zlt_Qlt; lia|].
    assert (E1 : inject_Z n / inject_Z (Z.pos d) * inject_Z (2 ^ Z.log2 (Z.pos d))
                 == inject_Z n * inject_Z (2 ^ Z.log2 (Z.pos d))
                    / inject_Z (Z.pos d))
      by (unfold Qdiv; ring).
    rewrite E1. apply Qlt_shift_div_r; [reflexivity|].
    rewrite <- !inject_Z_mult, <- Zlt_Qlt. nia.
  - replace (Z.log2 (Qnum q) - Z.log2 (Z.pos (Qden q)) - 1 + 1)%Z
      with (Z.log2 (Qnum q) - Z.log2 (Z.pos (Qden q)))%Z by lia.
    apply Qnot_le_lt. intros Hle. apply Qle_bool_iff in Hle. congruence.
Qed.

Lemma ulpExponent_min x : (-1074 <= ulpExponent x)%Z.
Proof. unfold ulpExponent. lia. Qed.

Lemma ulpExponent_lower x :
  0 < x → (-1074 < ulpExponent x)%Z → pow2 (ulpExponent x + 52) <= x.
Proof.
  intros Hx He. unfold ulpExponent in *.
  replace (Z.max (ilog2 x - 52) (-1074) + 52)%Z with (ilog2 x) by lia.
  apply ilog2_lower, Hx.
Qed.

Lemma representable_scaled f m ef e :
  f == inject_Z m * pow2 ef → (e <= ef)%Z →
  f / pow2 e == inject_Z (m * 2 ^ (ef - e)).
Proof.
  intros Hf He. rewrite Qdiv_pow2, Hf, inject_Z_mult, <- pow2_inject by lia.
  replace (ef - e)%Z with (ef + - e)%Z by lia. rewrite pow2_plus. ring.
Qed.

Lemma representable_small f m ef e :
  f == inject_Z m * pow2 ef → (Z.abs m < 2 ^ 53)%Z → (ef < e)%Z →
  f < pow2 (e + 52).
Proof.
  intros Hf Hm He. rewrite Hf.
  apply Qlt_le_trans with (pow2 (53 + ef)); [|apply pow2_le; lia].
  rewrite pow2_plus, (pow2_inject 53) by lia.
  apply Qmult_lt_r; [apply pow2_pos|]. rewrite <- Zlt_Qlt. lia.
Qed.

(** Rounding does not cross a double. *)
Lemma roundMagnitude_le x f :
  0 < x → x <= f → representable f → roundMagnitude x <= f.
Proof.
  intros Hx Hxf (m & ef & Hef & Hm & Hf). unfold roundMagnitude.
  pose proof (pow2_pos (ulpExponent x)) as Hp.
  destruct (Z_le_gt_dec (ulpExponent x) ef) as [He|He].
  - pose proof (representable_scaled f m ef _ Hf He) as Hs.
    assert (Hq : x / pow2 (ulpExponent x)
                 <= inject_Z (m * 2 ^ (ef - ulpExponent x))).
    { rewrite <- Hs. apply Qle_shift_div_l; [exact Hp|].
      unfold Qdiv. rewrite <- Qmult_assoc, (Qmult_comm (/ _)), Qmult_inv_r, Qmult_1_r
        by (intros E; rewrite E in Hp; discriminate).
      exact Hxf. }
    apply roundHalfEven_le in Hq.
    apply Qle_trans with (inject_Z (m * 2 ^ (ef - ulpExponent x)) * pow2 (ulpExponent x)).
    + apply Qmult_le_compat_r; [rewrite <- Zle_Qle; exact Hq | apply Qlt_le_weak, Hp].
    + rewrite <- Hs. unfold Qdiv.
      rewrite <- Qmult_assoc, (Qmult_comm (/ _)), Qmult_inv_r, Qmult_1_r
        by (intros E; rewrite E in Hp; discriminate).
      apply Qle_refl.
  - exfalso.
    assert (Hlow : pow2 (ulpExponent x + 52) <= x)
      by (apply ulpExponent_lower; [exact Hx | lia]).
    pose proof (representable_small f m ef (ulpExponent x) Hf Hm ltac:(lia)) as Hs.
    lra.
Qed.

Lemma roundMagnitude_ge x f :
  0 < x → f <= x → representable f → f <= roundMagnitude x.
Proof.
  intros Hx Hxf (m & ef & Hef & Hm & Hf). unfold roundMagnitude.
  pose proof (pow2_pos (ulpExponent x)) as Hp.
  destruct (Z_le_gt_dec (ulpExponent x) ef) as [He|He].
  - pose proof (representable_scaled f m ef _ Hf He) as Hs.
    assert (Hq : inject_Z (m * 2 ^ (ef - ulpExponent x))
                 <= x / pow2 (ulpExponent x)).
    { rewrite <- Hs. apply Qle_shift_div_l; [exact Hp|].
      unfold Qdiv. rewrite <- Qmult_assoc, (Qmult_comm (/ _)), Qmult_inv_r, Qmult_1_r
        by (intros E; rewrite E in Hp; discriminate).
      exact Hxf. }
    apply roundHalfEven_ge in Hq.
    apply Qle_trans with (inject_Z (m * 2 ^ (ef - ulpExponent x)) * pow2 (ulpExponent x)).
    + rewrite <- Hs. unfold Qdiv.
      rewrite <- Qmult_assoc, (Qmult_comm (/ _)), Qmult_inv_r, Qmult_1_r
        by (intros E; rewrite E in Hp; discriminate).
      apply Qle_refl.
    + apply Qmult_le_compat_r; [rewrite <- Zle_Qle; exact Hq | apply Qlt_le_weak, Hp].
  - assert (Hlow : pow2 (ulpExponent x + 52) <= x)
      by (apply ulpExponent_lower; [exact Hx | lia]).
    pose proof (representable_small f m ef (ulpExponent x) Hf Hm ltac:(lia)) as Hs.
    apply Qlt_le_weak, Qlt_le_trans with (pow2 (ulpExponent x + 52)); [exact Hs|].
    assert (Hq : inject_Z (2 ^ 52) <= x / pow2 (ulpExponent x)).
    { apply Qle_shift_div_l; [exact Hp|].
      rewrite <- pow2_inject, <- pow2_plus by lia.
      rewrite Z.add_comm. exact Hlow. }
    apply roundHalfEven_ge in Hq.
    rewrite Z.add_comm, pow2_plus, (pow2_inject 52) by lia.
    apply Qmult_le_compat_r; [rewrite <- Zle_Qle; exact Hq | apply Qlt_le_weak, Hp].
Qed.

Lemma rnd_zero x : x == 0 → rnd x = 0.
Proof. intros H. unfold rnd. rewrite (proj1 (Qeq_alt x 0) H). reflexivity. Qed.

Lemma rnd_pos x : 0 < x → rnd x = roundMagnitude x.
Proof. intros H. unfold rnd. rewrite (proj1 (Qgt_alt x 0) H). reflexivity. Qed.

Lemma rnd_neg x : x < 0 → rnd x = - roundMagnitude (- x).
Proof. intros H. unfold rnd. rewrite (proj1 (Qlt_alt x 0) H). reflexivity. Qed.

Lemma representable_zero : representable 0.
Proof. exists 0%Z, 0%Z. split; [lia|]. split; [lia | reflexivity]. Qed.

Lemma representable_integer k : (Z.abs k < 2 ^ 53)%Z → representable (inject_Z k).
Proof.
  intros H. exists k, 0%Z. split; [lia|]. split; [exact H|].
  change (pow2 0) with 1. ring.
Qed.

Lemma representable_eq f g : f == g → representable f → representable g.
Proof. intros E (m & e & H1 & H2 & H3). exists m, e. rewrite <- E. auto. Qed.

Lemma representable_double k :
  (Z.abs k < 2 ^ 53)%Z → representable (2 * inject_Z k).
Proof.
  intros H. exists k, 1%Z. split; [lia|]. split; [exact H|].
  change (pow2 1) with 2. ring.
Qed.

Lemma representable_max : representable maxDouble.
Proof. exists (2 ^ 53 - 1)%Z, 971%Z. split; [lia|]. split; [lia | reflexivity]. Qed.

Lemma rnd_le x f : 0 <= x → x <= f → representable f → rnd x <= f.
Proof.
  intros Hx Hxf Hf. destruct (Qlt_le_dec 0 x) as [Hp|Hz].
  - rewrite rnd_pos by exact Hp. apply roundMagnitude_le; assumption.
  - rewrite rnd_zero by lra. lra.
Qed.

Lemma rnd_ge x f : 0 <= x → f <= x → representable f → f <= rnd x.
Proof.
  intros Hx Hxf Hf. destruct (Qlt_le_dec 0 x) as [Hp|Hz].
  - rewrite rnd_pos by exact Hp. apply roundMagnitude_ge; assumption.
  - rewrite rnd_zero by lra. lra.
Qed.

(** On the negative side rounding does not cross [-1] or [0]. *)
Lemma rnd_le_minus_one x : x <= -1 → rnd x <= -1.
Proof.
  intros Hx. rewrite rnd_neg by lra.
  assert (H : 1 <= roundMagnitude (- x)).
  { apply roundMagnitude_ge; [lra | lra|].
    apply (representable_integer 1). reflexivity. }
  lra.
Qed.

Lemma rnd_nonpos x : x <= 0 → rnd x <= 0.
Proof.
  intros Hx. destruct (Qlt_le_dec x 0) as [Hn|Hz].
  - rewrite rnd_neg by exact Hn.
    assert (H : 0 <= roundMagnitude (- x)).
    { apply roundMagnitude_ge; [lra | lra | apply representable_zero]. }
    lra.
  - rewrite rnd_zero by lra. lra.
Qed.

(** A double rounds to itself. *)
Lemma rnd_representable x : 0 <= x → representable x → rnd x == x.
Proof.
  intros Hx Hr. apply Qle_antisym;
    [apply rnd_le | apply rnd_ge]; try assumption; apply Qle_refl.
Qed.

Lemma maxDouble_large : inject_Z (2 ^ 53) <= maxDouble.
Proof. vm_compute. discriminate. Qed.

Lemma round64_finite x f :
  0 <= x → x <= f → representable f → f <= maxDouble →
  round64 x = Some (rnd x) ∧ 0 <= rnd x ∧ rnd x <= f.
Proof.
  intros Hx Hxf Hf Hmax.
  assert (H0 : 0 <= rnd x) by (apply rnd_ge; [exact Hx | exact Hx | apply representable_zero]).
  assert (H1 : rnd x <= f) by (apply rnd_le; assumption).
  split; [|auto]. unfold round64.
  assert (E : Qle_bool (Qabs (rnd x)) maxDouble = true).
  { apply Qle_bool_iff. rewrite Qabs_pos by exact H0. lra. }
  rewrite E. reflexivity.
Qed.

Lemma round64_rnd x r : round64 x = Some r → r = rnd x.
Proof. unfold round64. destruct (Qle_bool _ _); congruence. Qed.

Lemma truncate_comp q q' : q == q' → truncate q = truncate q'.
Proof.
  intros H. unfold truncate.
  assert (E : Qle_bool 0 q = Qle_bool 0 q').
  { destruct (Qle_bool 0 q) eqn:E1, (Qle_bool 0 q') eqn:E2; try reflexivity.
    - apply Qle_bool_iff in E1. rewrite H in E1. apply Qle_bool_iff in E1. congruence.
    - apply Qle_bool_iff in E2. rewrite <- H in E2. apply Qle_bool_iff in E2.
      congruence. }
  rewrite E, (Qfloor_comp _ _ H), (Qceiling_comp _ _ H). reflexivity.
Qed.

Lemma truncate_inject_Z k : truncate (inject_Z k) = k.
Proof.
  unfold truncate. destruct (Qle_bool 0 (inject_Z k));
    [apply Qfloor_Z | apply Qceiling_Z].
Qed.

Lemma repeat_inject_Z limit c k :
  (0 <= k <= limit)%Z →
  repeat limit c (inject_Z k) = Some (replicate (Z.to_nat k) c).
Proof.
  intros Hk. unfold repeat. rewrite truncate_inject_Z.
  destruct (Z.ltb_spec k 0), (Z.ltb_spec limit k); try lia. reflexivity.
Qed.

Lemma repeat_negative_integer limit c k :
  (k < 0)%Z → repeat limit c (inject_Z k) = None.
Proof.
  intros Hk. unfold repeat. rewrite truncate_inject_Z.
  destruct (Z.ltb_spec k 0); [reflexivity | lia].
Qed.

Lemma repeat_too_long limit c k :
  (limit < k)%Z → repeat limit c (inject_Z k) = None.
Proof.
  intros Hk. unfold repeat. rewrite truncate_inject_Z.
  destruct (Z.ltb_spec limit k); [rewrite orb_true_r; reflexivity | lia].
Qed.

Lemma repeat_eq limit c q k :
  q == inject_Z k → (0 <= k <= limit)%Z →
  repeat limit c q = Some (replicate (Z.to_nat k) c).
Proof.
  intros H Hk. unfold repeat. rewrite (truncate_comp _ _ H), truncate_inject_Z.
  destruct (Z.ltb_spec k 0), (Z.ltb_spec limit k); try lia. reflexivity.
Qed.

Lemma repeat_negative limit c q : q <= -1 → repeat limit c q = None.
Proof.
  intros H. unfold repeat, truncate.
  assert (E : Qle_bool 0 q = false).
  { destruct (Qle_bool 0 q) eqn:E; [|reflexivity]. apply Qle_bool_iff in E. lra. }
  rewrite E.
  assert (Hc : (Qceiling q <= -1)%Z).
  { change (-1)%Z with (Qceiling (inject_Z (-1))).
    apply Qceiling_resp_le. exact H. }
  destruct (Z.ltb_spec (Qceiling q) 0); [reflexivity | lia].
Qed.

Lemma inject_Z_minus a b : inject_Z a - inject_Z b == inject_Z (a - b).
Proof. unfold Zminus. rewrite inject_Z_plus, inject_Z_opp. reflexivity. Qed.

(** Within the range of the component's contract the number of filled
    cells lies between 0 and the width. *)
Lemma filled_bounds cp (width : Z) :
  0 <= cp → cp <= 100 → (0 <= width < 2 ^ 53)%Z →
  ∃ f, filled cp (inject_Z width) = Some f ∧ (0 <= f <= width)%Z.
Proof.
  intros H0 H100 Hw.
  assert (Hq : 0 <= inject_Z width)
    by (change 0 with (inject_Z 0); rewrite <- Zle_Qle; lia).
  assert (Hwmax : inject_Z width <= maxDouble).
  { apply Qle_trans with (inject_Z (2 ^ 53)); [|apply maxDouble_large].
    rewrite <- Zle_Qle. lia. }
  assert (Hone : 1 <= maxDouble) by (vm_compute; discriminate).
  destruct (round64_finite (cp / 100) 1) as (E1 & Hx0 & Hx1);
    [apply Qle_shift_div_l; lra | apply Qle_shift_div_r; lra
    | apply (representable_integer 1); reflexivity | exact Hone|].
  destruct (round64_finite (rnd (cp / 100) * inject_Z width) (inject_Z width))
    as (E2 & Hy0 & Hy1);
    [apply Qmult_le_0_compat; assumption
    | rewrite <- (Qmult_1_l (inject_Z width)) at 2;
      apply Qmult_le_compat_r; assumption
    | apply representable_integer; lia | exact Hwmax|].
  unfold filled, fdiv, fmul. rewrite E1, E2. eexists; split; [reflexivity|].
  split.
  - change 0%Z with (Qfloor 0). apply Qfloor_resp_le, Hy0.
  - rewrite <- (Qfloor_Z width) at 2. apply Qfloor_resp_le, Hy1.
Qed.

(** The subtraction [width - filled] is exact on integers below [2 ^ 53]. *)
Lemma empty_exact (width f : Z) :
  (0 <= f <= width)%Z → (width < 2 ^ 53)%Z →
  ∃ e, empty (inject_Z width) f = Some e ∧ e == inject_Z (width - f).
Proof.
  intros Hf Hw. pose proof (inject_Z_minus width f) as Em.
  assert (Hr : representable (inject_Z width - inject_Z f)).
  { apply (representable_eq (inject_Z (width - f))); [symmetry; exact Em|].
    apply representable_integer. lia. }
  assert (H0 : 0 <= inject_Z width - inject_Z f).
  { rewrite Em. change 0 with (inject_Z 0). rewrite <- Zle_Qle. lia. }
  destruct (round64_finite (inject_Z width - inject_Z f)
              (inject_Z width - inject_Z f)) as (E & _ & _);
    [exact H0 | apply Qle_refl | exact Hr|
    | unfold empty, fsub; rewrite E; eexists; split; [reflexivity|];
      rewrite (rnd_representable _ H0 Hr); exact Em].
  rewrite Em. apply Qle_trans with (inject_Z (2 ^ 53)); [|apply maxDouble_large].
  rewrite <- Zle_Qle. lia.
Qed.

(** When more cells are filled than the width has, the second [repeat]
    throws. *)
Lemma empty_overfull limit (width f : Z) c :
  (width < f)%Z →
  match empty (inject_Z width) f with
  | Some e => repeat limit c e = None
  | None => True
  end.
Proof.
  intros Hf. unfold empty, fsub.
  destruct (round64 _) as [r|] eqn:E; [|exact I].
  apply round64_rnd in E. subst r. apply repeat_negative, rnd_le_minus_one.
  rewrite inject_Z_minus. change (-1) with (inject_Z (-1)). rewrite <- Zle_Qle. lia.
Qed.

(** The bar of an integer width that a string can have: rendering succeeds
    exactly when the number of filled cells is finite and lies between 0 and
    the width. *)
Lemma bar_integer_width limit cp (width : Z) :
  (width <= limit)%Z → (limit < 2 ^ 53)%Z →
  bar limit cp (inject_Z width)
  = match filled cp (inject_Z width) with
    | Some f =>
        if ((0 <=? f)%Z && (f <=? width)%Z)%bool
        then Some (replicate (Z.to_nat f) 9608%N
                   ++ replicate (Z.to_nat (width - f)) 9617%N)
        else None
    | None => None
    end.
Proof.
  intros Hw Hl. unfold bar.
  destruct (filled cp (inject_Z width)) as [f|]; [|reflexivity].
  destruct (Z.leb_spec 0 f) as [H0|H0]; cbn [andb].
  - destruct (Z.leb_spec f width) as [H1|H1].
    + rewrite repeat_inject_Z by lia.
      destruct (empty_exact width f) as (e & -> & He); [lia | lia|].
      rewrite (repeat_eq _ _ e (width - f)) by (exact He || lia). reflexivity.
    + pose proof (empty_overfull limit width f 9617%N H1) as H.
      destruct (repeat limit 9608%N (inject_Z f)); [|reflexivity].
      destruct (empty (inject_Z width) f) as [e|]; [rewrite H|]; reflexivity.
  - rewrite repeat_negative_integer by exact H0. reflexivity.
Qed.

Lemma bar_width limit cp (width : Z) :
  0 <= cp → cp <= 100 → (0 <= width <= limit)%Z → (limit < 2 ^ 53)%Z →
  ∃ f s, filled cp (inject_Z width) = Some f ∧ (0 <= f <= width)%Z ∧
         bar limit cp (inject_Z width) = Some s ∧
         s = replicate (Z.to_nat f) 9608%N
             ++ replicate (Z.to_nat (width - f)) 9617%N ∧
         Z.of_nat (length s) = width.
Proof.
  intros H0 H100 Hw Hl.
  destruct (filled_bounds cp width H0 H100 ltac:(lia)) as (f & Ef & Hf).
  exists f. eexists. split; [exact Ef|]. split; [exact Hf|].
  rewrite bar_integer_width, Ef by lia.
  destruct (Z.leb_spec 0 f), (Z.leb_spec f width); try lia. cbn [andb].
  split; [reflexivity|]. split; [reflexivity|].
  rewrite length_app, !length_replicate. lia.
Qed.

(** A target of at least 200 fills more cells than the width has, or
    overflows. *)
Lemma filled_overshoot cp (width : Z) :
  (1 <= width < 2 ^ 53)%Z → 200 <= cp →
  match filled cp (inject_Z width) with
  | Some f => (width < f)%Z
  | None => True
  end.
Proof.
  intros Hw Hcp. unfold filled, fdiv, fmul.
  destruct (round64 (cp / 100)) as [x|] eqn:E1; [|exact I].
  apply round64_rnd in E1.
  destruct (round64 (x * inject_Z width)) as [y|] eqn:E2; [|exact I].
  apply round64_rnd in E2.
  assert (Hq : 1 <= inject_Z width)
    by (change 1 with (inject_Z 1); rewrite <- Zle_Qle; lia).
  assert (Hx : 2 <= x).
  { subst x. apply rnd_ge;
      [apply Qle_shift_div_l; lra | apply Qle_shift_div_l; lra|].
    apply (representable_integer 2). reflexivity. }
  assert (Hm : 2 * inject_Z width <= x * inject_Z width)
    by (apply Qmult_le_compat_r; lra).
  assert (Hy : 2 * inject_Z width <= y).
  { subst y. apply rnd_ge; [lra | exact Hm|].
    apply representable_double. lia. }
  assert (Hfl : (2 * width <= Qfloor y)%Z).
  { rewrite <- (Qfloor_Z (2 * width)). apply Qfloor_resp_le.
    rewrite inject_Z_mult. exact Hy. }
  lia.
Qed.

End ProgressBarFacts.

(** ** useTypewriterAnimation *)

Section HookFacts.
Import Hook.
Variable text : jsstring.
Variable storageKey : string.

#[local] Arguments appendIndexed : simpl never.
#[local] Arguments Session.setItem : simpl never.
#[local] Arguments Session.flagSet : simpl never.

Lemma appendIndexed_neq prev txt i : appendIndexed prev txt i ≠ prev.
Proof.
  unfold appendIndexed. intros H.
  assert (Hl : length (appendIndexed prev txt i) = length prev) by (unfold appendIndexed; rewrite H; reflexivity).
  unfold appendIndexed in Hl.
  destruct (charAt txt i); rewrite length_app in Hl; simpl in Hl; lia.
Qed.

Lemma sameState_text f g : displayText f ≠ displayText g → sameState f g = false.
Proof.
  intros H. unfold sameState. rewrite (bool_decide_false _ H).
  destruct (bool_decide _); reflexivity.
Qed.

Lemma sameState_played f g : hasPlayed f ≠ hasPlayed g → sameState f g = false.
Proof.
  intros H. unfold sameState. rewrite (bool_decide_false _ H). reflexivity.
Qed.

Lemma sameState_complete f g : isComplete f ≠ isComplete g → sameState f g = false.
Proof.
  intros H. unfold sameState. rewrite (bool_decide_false _ H).
  apply andb_false_r.
Qed.

Lemma sameState_refl f g :
  hasPlayed f = hasPlayed g → displayText f = displayText g →
  isComplete f = isComplete g → sameState f g = true.
Proof.
  intros H1 H2 H3. unfold sameState. rewrite !bool_decide_true by assumption.
  reflexivity.
Qed.

Lemma round_idle f w : queue f = [] → round text storageKey (f, w) = (f, w).
Proof.
  destruct f. simpl. intros ->. unfold round, render. simpl.
  rewrite sameState_refl by reflexivity. reflexivity.
Qed.

Lemma clearTimeout_single id s n :
  clearTimeout id (mkWindow s [id] n) = mkWindow s [] n.
Proof.
  unfold clearTimeout. simpl. rewrite filter_cons, decide_False by auto.
  reflexivity.
Qed.

Lemma clearTimeout_none id s n :
  clearTimeout id (mkWindow s [] n) = mkWindow s [] n.
Proof. reflexivity. Qed.

Ltac decide_guards :=
  repeat match goal with
  | |- context [bool_decide ?P] =>
      first [ rewrite (bool_decide_true P) by (first [reflexivity | lia | congruence])
            | rewrite (bool_decide_false P) by (first [lia | congruence]) ]
  end.

Lemma round_eq f w :
  round text storageKey (f, w)
  = if sameState f (render text f) then (render text f, w)
    else commit text storageKey false (hasPlayed f) (render text f, w).
Proof. reflexivity. Qed.

Ltac hook_eval :=
  unfold enqueue, setIndexRef;
  cbn -[bool_decide length sameState commit clearTimeout round];
  rewrite ?clearTimeout_single, ?clearTimeout_none.

Ltac hook_round :=
  hook_eval;
  match goal with
  | |- context [round _ _ (?f, ?w)] => rewrite (round_eq f w)
  end;
  hook_eval;
  first [ rewrite sameState_text by (cbn; first [apply appendIndexed_neq | apply not_eq_sym, appendIndexed_neq])
        | rewrite sameState_complete by (cbn; discriminate)
        | rewrite sameState_played by (cbn; discriminate)
        | rewrite sameState_refl by reflexivity ];
  unfold commit, typingCleanupRun, initEffect, typingEffect, sessionEffect, markAsPlayed, clearTimeoutRef;
  repeat (first [progress decide_guards | progress hook_eval]).

Lemma fire_more dt i id ini s n eager :
  (S i < length text)%nat →
  fireTimer text storageKey id eager
    (mkFiber false dt false ini (Some id) i true [], mkWindow s [id] n)
  = (mkFiber false (appendIndexed dt text (if eager then i else S i)) false ini
             (Some n) (S i) true [],
     mkWindow s [n] (S n)).
Proof.
  intros Hi. unfold fireTimer. cbn [timers fst snd].
  rewrite bool_decide_true by (apply list_elem_of_here).
  unfold settle. rewrite clearTimeout_single.
  destruct eager; hook_round; rewrite !round_idle by reflexivity; reflexivity.
Qed.

(** The last re-render after the session flag has been seen: the text is
    replaced by the full text, whatever was displayed. *)
Lemma round_reveal dt ic ini tref i w :
  round text storageKey
    (mkFiber true dt ic ini tref i false [SetDisplayText text; SetIsComplete true], w)
  = (mkFiber true text true ini tref i false [], w).
Proof.
  rewrite round_eq. hook_eval.
  destruct (decide (dt = text)) as [->|Hne]; [destruct ic|].
  - rewrite sameState_refl by reflexivity. reflexivity.
  - rewrite sameState_complete by (cbn; discriminate).
    unfold commit, typingCleanupRun, initEffect, typingEffect.
    repeat (first [progress decide_guards | progress hook_eval]). reflexivity.
  - rewrite sameState_text by exact Hne.
    unfold commit, typingCleanupRun, initEffect, typingEffect.
    repeat (first [progress decide_guards | progress hook_eval]). reflexivity.
Qed.

Lemma fire_last dt i id ini s n eager :
  S i = length text →
  fireTimer text storageKey id eager
    (mkFiber false dt false ini (Some id) i true [], mkWindow s [id] n)
  = (mkFiber true text true ini (Some id) (length text) false [],
     mkWindow (Session.setItem storageKey "true" s) [] n).
Proof.
  intros Hi. unfold fireTimer. cbn [timers fst snd].
  rewrite bool_decide_true by (apply list_elem_of_here).
  unfold settle. rewrite clearTimeout_single.
  destruct eager; hook_round; hook_round; hook_eval; apply round_reveal.
Qed.

Lemma skip_running dt i id ini s n :
  skip text storageKey
    (mkFiber false dt false ini (Some id) i true [], mkWindow s [id] n)
  = (mkFiber true text true ini (Some id) (length text) false [],
     mkWindow (Session.setItem storageKey "true" s) [] n).
Proof.
  unfold skip, settle, markAsPlayed, clearTimeoutRef. hook_eval.
  hook_round. hook_round. rewrite round_idle by reflexivity. reflexivity.
Qed.

Lemma completed_step ev ini tref s n :
  step text storageKey ev
    (mkFiber true text true ini tref (length text) false [], mkWindow s [] n)
  = (mkFiber true text true ini tref (length text) false [], mkWindow s [] n).
Proof.
  destruct ev; reflexivity.
Qed.

Lemma mount_played s n :
  Session.flagSet storageKey s = true →
  mount text storageKey (mkWindow s [] n)
  = if bool_decide (0 < length text)%nat
    then (mkFiber true text true true (Some n) (length text) false [],
          mkWindow s [] (S n))
    else (mkFiber true text true true None (length text) false [],
          mkWindow (Session.setItem storageKey "true" s) [] n).
Proof.
  intros Hs. unfold mount, settle, commit, typingCleanupRun, sessionEffect, initEffect, typingEffect, initial, markAsPlayed.
  hook_eval. rewrite Hs. hook_eval.
  case_bool_decide as Hlen.
  - hook_round. hook_eval. rewrite round_reveal. apply round_idle. reflexivity.
  - assert (Hl : length text = 0%nat) by lia. rewrite <- Hl.
    decide_guards. hook_round. hook_eval. rewrite Hl. rewrite round_reveal. apply round_idle. reflexivity.
Qed.

Lemma mount_fresh s n :
  Session.flagSet storageKey s = false →
  mount text storageKey (mkWindow s [] n)
  = if bool_decide (0 < length text)%nat
    then (mkFiber false [] false true (Some n) 0 true [], mkWindow s [n] (S n))
    else (mkFiber true text true true None (length text) false [],
          mkWindow (Session.setItem storageKey "true" s) [] n).
Proof.
  intros Hs. unfold mount, settle, commit, typingCleanupRun, sessionEffect, initEffect, typingEffect, initial, markAsPlayed.
  hook_eval. rewrite Hs. hook_eval.
  case_bool_decide as Hlen.
  - rewrite !round_idle by reflexivity. reflexivity.
  - assert (Hl : length text = 0%nat) by lia. rewrite <- Hl.
    decide_guards. hook_round. hook_eval. rewrite Hl. rewrite round_reveal. apply round_idle. reflexivity.
Qed.

Lemma fire_other dt i id id' ini s n eager :
  id' ≠ id →
  fireTimer text storageKey id' eager
    (mkFiber false dt false ini (Some id) i true [], mkWindow s [id] n)
  = (mkFiber false dt false ini (Some id) i true [], mkWindow s [id] n).
Proof.
  intros Hne. unfold fireTimer. cbn [timers fst snd].
  rewrite bool_decide_false; [reflexivity|].
  rewrite list_elem_of_singleton. exact Hne.
Qed.

Lemma mount_settled s n :
  Settled text storageKey (mount text storageKey (mkWindow s [] n)).
Proof.
  destruct (Session.flagSet storageKey s) eqn:Hs.
  - rewrite mount_played by exact Hs. case_bool_decide.
    + constructor. exact Hs.
    + constructor. apply flagSet_setItem.
  - rewrite mount_fresh by exact Hs. case_bool_decide.
    + constructor. assumption.
    + constructor. apply flagSet_setItem.
Qed.

(** Every event leads from a settled state to a settled state, and moves
    the reveal index forward, never past the end of the text. *)
Lemma step_settled ev st :
  Settled text storageKey st →
  Settled text storageKey (step text storageKey ev st) ∧
  (indexRef st.1 ≤ indexRef (step text storageKey ev st).1 ≤ length text)%nat.
Proof.
  intros [dt i id ini s n Hi | ini tref s n Hs].
  - destruct ev as [id' eager|]; cbn [step].
    + destruct (decide (id' = id)) as [->|Hne].
      * destruct (decide (S i < length text)%nat) as [Hlt|Hge].
        -- rewrite fire_more by exact Hlt. cbn [fst indexRef].
           split; [constructor; exact Hlt | lia].
        -- rewrite fire_last by lia. cbn [fst indexRef].
           split; [constructor; apply flagSet_setItem | lia].
      * rewrite fire_other by exact Hne. cbn [fst indexRef].
        split; [constructor; exact Hi | lia].
    + rewrite skip_running. cbn [fst indexRef].
      split; [constructor; apply flagSet_setItem | lia].
  - rewrite completed_step. cbn [fst indexRef].
    split; [constructor; exact Hs | lia].
Qed.

(** The session flag is written exactly when the animation ends, and the
    end is final. *)
Lemma step_session ev st :
  Settled text storageKey st →
  (isComplete st.1 = true → step text storageKey ev st = st) ∧
  (isComplete (step text storageKey ev st).1 = false →
   isComplete st.1 = false ∧
   session (step text storageKey ev st).2 = session st.2) ∧
  (isComplete st.1 = false → isComplete (step text storageKey ev st).1 = true →
   session (step text storageKey ev st).2
   = Session.setItem storageKey "true" (session st.2)).
Proof.
  intros [dt i id ini s n Hi | ini tref s n Hs].
  - destruct ev as [id' eager|]; cbn [step].
    + destruct (decide (id' = id)) as [->|Hne].
      * destruct (decide (S i < length text)%nat) as [Hlt|Hge].
        -- rewrite fire_more by exact Hlt. cbn. repeat split; congruence.
        -- rewrite fire_last by lia. cbn. repeat split; congruence.
      * rewrite fire_other by exact Hne. cbn. repeat split; congruence.
    + rewrite skip_running. cbn. repeat split; congruence.
  - rewrite completed_step. cbn. repeat split; congruence.
Qed.

Lemma run_settled evs st :
  Settled text storageKey st → Settled text storageKey (run text storageKey evs st).
Proof.
  apply (run_invariant (step text storageKey)).
  intros ev s Hs. apply step_settled, Hs.
Qed.

Lemma settled_index st :
  Settled text storageKey st → (indexRef st.1 ≤ length text)%nat.
Proof. intros [dt i id ini s n Hi | ini tref s n Hs]; simpl; lia. Qed.

Lemma indices_settled evs :
  ∀ st, Settled text storageKey st →
  Sorted le (indices text storageKey evs st) ∧
  Forall (λ i, indexRef st.1 ≤ i ≤ length text)%nat (indices text storageKey evs st).
Proof.
  induction evs as [|ev evs IH]; intros st Hst; simpl.
  - pose proof (settled_index st Hst). split; repeat constructor; lia.
  - destruct (step_settled ev st Hst) as [Hst' Hi].
    destruct (IH _ Hst') as [Hs Hb]. split.
    + constructor; [exact Hs|]. destruct evs; simpl; constructor; lia.
    + constructor; [lia|]. eapply Forall_impl; [exact Hb|]. simpl. intros; lia.
Qed.

(** Once completed, nothing changes any more. *)
Lemma completed_run evs ini tref s n :
  run text storageKey evs
    (mkFiber true text true ini tref (length text) false [], mkWindow s [] n)
  = (mkFiber true text true ini tref (length text) false [], mkWindow s [] n).
Proof.
  induction evs as [|ev evs IH]; simpl; [reflexivity|].
  rewrite completed_step. exact IH.
Qed.

(** Left alone, a running animation reaches the end of the text after as
    many timeouts as characters remain, and then marks itself played. *)
Lemma timers_complete eagers :
  ∀ dt i id ini s,
  (i + length eagers = length text)%nat → eagers ≠ [] →
  ∃ tref,
    run text storageKey (timerEvents id eagers)
      (mkFiber false dt false ini (Some id) i true [], mkWindow s [id] (S id))
    = (mkFiber true text true ini tref (length text) false [],
       mkWindow (Session.setItem storageKey "true" s) [] (id + length eagers)).
Proof.
  induction eagers as [|e eagers IH]; intros dt i id ini s Hlen Hne; [congruence|].
  simpl in Hlen. cbn [timerEvents run fold_left step].
  destruct eagers as [|e' eagers].
  - rewrite fire_last by (simpl in Hlen; lia). simpl. eexists. f_equal. f_equal. lia.
  - rewrite fire_more by (simpl in Hlen; lia).
    destruct (IH (appendIndexed dt text (if e then i else S i)) (S i) (S id) ini s)
      as [tref Htref]; [simpl in *; lia | discriminate |].
    change (fold_left _ ?l ?s) with (run text storageKey l s).
    rewrite Htref. eexists. f_equal. f_equal. simpl. lia.
Qed.


Lemma run_session evs :
  ∀ st, Settled text storageKey st →
  isComplete (run text storageKey evs st).1 = false →
  isComplete st.1 = false ∧ session (run text storageKey evs st).2 = session st.2.
Proof.
  induction evs as [|ev evs IH]; intros st Hst Hrun; simpl in *.
  - auto.
  - destruct (step_settled ev st Hst) as [Hst' _].
    destruct (IH _ Hst' Hrun) as [Hc Hs].
    destruct (step_session ev st Hst) as (_ & Hstep & _).
    destruct (Hstep Hc) as [Hc' Hs']. split; [exact Hc' | congruence].
Qed.

Lemma mount_session s n :
  isComplete (mount text storageKey (mkWindow s [] n)).1 = false →
  session (mount text storageKey (mkWindow s [] n)).2 = s.
Proof.
  destruct (Session.flagSet storageKey s) eqn:Hs.
  - rewrite mount_played by exact Hs. case_bool_decide; simpl; congruence.
  - rewrite mount_fresh by exact Hs. case_bool_decide; simpl; congruence.
Qed.

(** What [skip()] does to an animation that has not ended. *)
Lemma skip_settled st :
  Settled text storageKey st → isComplete st.1 = false →
  displayText (skip text storageKey st).1 = text ∧
  isComplete (skip text storageKey st).1 = true ∧
  indexRef (skip text storageKey st).1 = length text ∧
  timers (skip text storageKey st).2 = [] ∧
  session (skip text storageKey st).2
    = Session.setItem storageKey "true" (session st.2) ∧
  ∀ evs, run text storageKey evs (skip text storageKey st)
         = skip text storageKey st.
Proof.
  intros [dt i id ini s n Hi | ini tref s n Hs] Hc; [|discriminate].
  rewrite skip_running. cbn. repeat split.
  intros evs. apply completed_run.
Qed.

(** Unmounting leaves no timeout behind. *)
Lemma unmount_settled st :
  Settled text storageKey st → timers (unmount st).2 = [].
Proof.
  intros [dt i id ini s n Hi | ini tref s n Hs]; [|reflexivity].
  unfold unmount, typingCleanupRun, clearTimeoutRef. cbn [typingCleanup timeoutRef snd].
  rewrite clearTimeout_single. reflexivity.
Qed.

Lemma applyUpdate_frame us :
  ∀ f, queue (fold_left (applyUpdate text) us f) = queue f ∧
       typingCleanup (fold_left (applyUpdate text) us f) = typingCleanup f ∧
       timeoutRef (fold_left (applyUpdate text) us f) = timeoutRef f ∧
       indexRef (fold_left (applyUpdate text) us f) = indexRef f.
Proof.
  induction us as [|u us IH]; intros f; simpl; [auto|].
  destruct (IH (applyUpdate text f u)) as (-> & -> & -> & ->).
  destruct u; simpl; auto.
Qed.

Lemma render_queue f : queue (render text f) = [].
Proof. unfold render. destruct (applyUpdate_frame (queue f) (mkFiber (hasPlayed f) (displayText f) (isComplete f) (isInitialized f) (timeoutRef f) (indexRef f) (typingCleanup f) [])) as (-> & _). reflexivity. Qed.

Ltac split_ifs :=
  repeat match goal with
  | |- context [if ?c then _ else _] => destruct c eqn:?
  end.

Lemma commit_shape prev f w :
  queue f = [] → queueShape text (commit text storageKey false prev (f, w)).
Proof.
  destruct f as [hp dt ic ini tref i cl q]. simpl. intros ->.
  unfold queueShape, commit, typingCleanupRun, initEffect, typingEffect, markAsPlayed.
  destruct cl, hp, ic, prev;
    repeat (first [progress decide_guards | progress hook_eval]);
    split_ifs; hook_eval; auto.
Qed.

Lemma round_shape st : queueShape text (round text storageKey st).
Proof.
  destruct st as [f w]. rewrite (round_eq f w).
  destruct (sameState f (render text f)).
  - left. apply render_queue.
  - apply commit_shape, render_queue.
Qed.

(** The updates an effect leaves behind are consumed by the next
    re-render, which leaves fewer: after three, none. *)
Lemma round_shape_played f w :
  hasPlayed f = true → queue f = [SetDisplayText text; SetIsComplete true] →
  queue (round text storageKey (f, w)).1 = [].
Proof.
  destruct f as [hp dt ic ini tref i cl q]. intros Hp Hq. simpl in Hp, Hq. subst.
  rewrite round_eq. hook_eval.
  destruct (sameState _ _); [reflexivity|].
  unfold commit, typingCleanupRun, initEffect, typingEffect.
  destruct cl; repeat (first [progress decide_guards | progress hook_eval]);
    reflexivity.
Qed.

Lemma round_shape_fresh f w :
  hasPlayed f = false → queue f = [SetIsComplete true; SetHasPlayed true] →
  hasPlayed (round text storageKey (f, w)).1 = true ∧
  queue (round text storageKey (f, w)).1 = [SetDisplayText text; SetIsComplete true].
Proof.
  destruct f as [hp dt ic ini tref i cl q]. intros Hp Hq. simpl in Hp, Hq. subst.
  rewrite round_eq. hook_eval.
  rewrite sameState_played by (cbn; discriminate).
  unfold commit, typingCleanupRun, initEffect, typingEffect.
  destruct cl; repeat (first [progress decide_guards | progress hook_eval]);
    auto.
Qed.

Lemma settle_quiescent st : queue (settle text storageKey st).1 = [].
Proof.
  unfold settle.
  destruct (round_shape st) as [H0 | [[Hp Hq] | [Hp Hq]]];
    destruct (round text storageKey st) as [f w]; cbn [fst snd] in *.
  - rewrite !round_idle by assumption. exact H0.
  - pose proof (round_shape_played f w Hp Hq) as H1.
    destruct (round text storageKey (f, w)) as [f1 w1]. cbn [fst snd] in H1.
    rewrite round_idle by exact H1. exact H1.
  - destruct (round_shape_fresh f w Hp Hq) as [Hp1 Hq1].
    destruct (round text storageKey (f, w)) as [f1 w1]. cbn [fst snd] in *.
    apply round_shape_played; assumption.
Qed.

End HookFacts.

(** ** TerminalPrompt *)

Section PromptFacts.
Import Prompt.

#[local] Arguments appendIndexed : simpl never.
#[local] Arguments Session.setItem : simpl never.
#[local] Arguments Session.flagSet : simpl never.

Lemma fullText_length : length fullText = 20%nat.
Proof. reflexivity. Qed.

Lemma prompt_sameState_index f g :
  currentIndex f ≠ currentIndex g → sameState f g = false.
Proof.
  intros H. unfold sameState. rewrite (bool_decide_false _ H).
  destruct (bool_decide _); reflexivity.
Qed.

Lemma prompt_sameState_played f g : hasPlayed f ≠ hasPlayed g → sameState f g = false.
Proof.
  intros H. unfold sameState. rewrite (bool_decide_false _ H).
  apply andb_false_r.
Qed.

Lemma prompt_sameState_text f g : displayText f ≠ displayText g → sameState f g = false.
Proof.
  intros H. unfold sameState. rewrite (bool_decide_false _ H). reflexivity.
Qed.

Lemma prompt_sameState_refl f g :
  displayText f = displayText g → currentIndex f = currentIndex g →
  hasPlayed f = hasPlayed g → sameState f g = true.
Proof.
  intros H1 H2 H3. unfold sameState. rewrite !bool_decide_true by assumption.
  reflexivity.
Qed.

Lemma prompt_round_eq f w :
  round (f, w)
  = if sameState f (render f) then (render f, w) else commit false f (render f, w).
Proof. reflexivity. Qed.

Lemma prompt_round_idle f w : queue f = [] → round (f, w) = (f, w).
Proof.
  destruct f. simpl. intros ->. unfold round, render. simpl.
  rewrite prompt_sameState_refl by reflexivity. reflexivity.
Qed.

Lemma prompt_clearTimeout_single id i s n :
  clearTimeout id (mkWindow s [(id, i)] n) = mkWindow s [] n.
Proof.
  unfold clearTimeout. simpl. rewrite filter_cons, decide_False by (simpl; auto).
  reflexivity.
Qed.

Lemma prompt_clearTimeout_none id s n :
  clearTimeout id (mkWindow s [] n) = mkWindow s [] n.
Proof. reflexivity. Qed.

Lemma setPlayed_flag w : Session.flagSet storageKey (session (setPlayed w)) = true.
Proof. apply flagSet_setItem. Qed.

Ltac prompt_guards :=
  repeat match goal with
  | |- context [bool_decide ?P] =>
      first [ rewrite (bool_decide_true P) by (first [reflexivity | lia | congruence])
            | rewrite (bool_decide_false P) by (first [lia | congruence]) ]
  | H : Session.flagSet _ _ = _ |- _ => rewrite H
  | |- context [Session.flagSet storageKey (Session.setItem storageKey "true" ?s)] =>
      rewrite (flagSet_setItem storageKey s)
  end.

Ltac prompt_eval :=
  unfold enqueue, setPlayed;
  cbn -[bool_decide length sameState commit clearTimeout round fullText storageKey];
  rewrite ?orb_true_r, ?orb_false_r, ?prompt_clearTimeout_single, ?prompt_clearTimeout_none.

Ltac prompt_round :=
  prompt_eval;
  match goal with
  | |- context [round (?f, ?w)] => rewrite (prompt_round_eq f w)
  end;
  prompt_eval;
  first [ rewrite prompt_sameState_index by (cbn; lia)
        | rewrite prompt_sameState_played by (cbn; discriminate)
        | rewrite prompt_sameState_refl by reflexivity ];
  unfold commit, typingCleanupRun, typingEffect, keyEffect;
  repeat (first [progress prompt_guards | progress prompt_eval]).

(** The last re-render after the flag has been seen. *)
Lemma prompt_round_reveal dt cl kh w :
  round (mkFiber dt (length fullText) true cl kh
           [SetDisplayText fullText; SetCurrentIndex (length fullText); SetHasPlayed true], w)
  = (mkFiber fullText (length fullText) true cl kh [], w).
Proof.
  rewrite prompt_round_eq. prompt_eval.
  destruct (decide (dt = fullText)) as [->|Hne].
  - rewrite prompt_sameState_refl by reflexivity. reflexivity.
  - rewrite prompt_sameState_text by exact Hne.
    unfold commit. repeat (first [progress prompt_guards | progress prompt_eval]).
    reflexivity.
Qed.

Lemma prompt_mount_played s n :
  Session.flagSet storageKey s = true →
  mount (mkWindow s [] n)
  = (mkFiber fullText (length fullText) true None (Some true) [], mkWindow s [] n).
Proof.
  intros Hs. pose proof fullText_length as Hlen.
  unfold mount, settle, commit, typingCleanupRun, typingEffect, keyEffect, initial.
  prompt_eval. rewrite Hs. prompt_eval.
  prompt_round. rewrite prompt_round_reveal. apply prompt_round_idle. reflexivity.
Qed.

Lemma prompt_mount_fresh s n :
  Session.flagSet storageKey s = false →
  mount (mkWindow s [] n)
  = (mkFiber [] 0 false (Some n) (Some false) [], mkWindow s [(n, 0%nat)] (S n)).
Proof.
  intros Hs. pose proof fullText_length as Hlen.
  unfold mount, settle, commit, typingCleanupRun, typingEffect, keyEffect, initial.
  prompt_eval. rewrite Hs. prompt_guards. prompt_eval.
  rewrite !prompt_round_idle by reflexivity. reflexivity.
Qed.

Lemma prompt_fire_more dt i id s n :
  Session.flagSet storageKey s = false → (S i < length fullText)%nat →
  fireTimer id (mkFiber dt i false (Some id) (Some false) [], mkWindow s [(id, i)] n)
  = (mkFiber (appendIndexed dt fullText i) (S i) false (Some n) (Some false) [],
     mkWindow s [(n, S i)] (S n)).
Proof.
  intros Hs Hi. unfold fireTimer. cbn [timers fst snd list_find].
  cbn -[bool_decide length sameState commit clearTimeout round fullText storageKey settle].
  rewrite decide_True by reflexivity. cbn [fmap option_fmap option_map].
  unfold settle. prompt_round. rewrite !prompt_round_idle by reflexivity. reflexivity.
Qed.

Lemma prompt_fire_last dt i id s n :
  Session.flagSet storageKey s = false → S i = length fullText →
  fireTimer id (mkFiber dt i false (Some id) (Some false) [], mkWindow s [(id, i)] n)
  = (mkFiber fullText (length fullText) true None (Some true) [],
     mkWindow (Session.setItem storageKey "true" s) [] n).
Proof.
  intros Hs Hi. unfold fireTimer. cbn [timers fst snd list_find].
  cbn -[bool_decide length sameState commit clearTimeout round fullText storageKey settle].
  rewrite decide_True by reflexivity. cbn [fmap option_fmap option_map].
  unfold settle. prompt_round. prompt_round. rewrite Hi. apply prompt_round_reveal.
Qed.

Lemma prompt_fire_other dt i id id' s n :
  id' ≠ id →
  fireTimer id' (mkFiber dt i false (Some id) (Some false) [], mkWindow s [(id, i)] n)
  = (mkFiber dt i false (Some id) (Some false) [], mkWindow s [(id, i)] n).
Proof.
  intros Hne. unfold fireTimer. cbn [timers fst snd list_find].
  cbn -[bool_decide length sameState commit clearTimeout round fullText storageKey settle].
  rewrite decide_False by (simpl; congruence). reflexivity.
Qed.

Lemma prompt_keydown_running dt i id s n :
  keydown (mkFiber dt i false (Some id) (Some false) [], mkWindow s [(id, i)] n)
  = (mkFiber fullText (length fullText) true None (Some true) [],
     mkWindow (Session.setItem storageKey "true" s) [] n).
Proof.
  pose proof fullText_length as Hlen.
  unfold keydown, settle. prompt_round. prompt_eval.
  rewrite prompt_round_reveal. apply prompt_round_idle. reflexivity.
Qed.

Lemma prompt_completed_step ev s n :
  step ev (mkFiber fullText (length fullText) true None (Some true) [], mkWindow s [] n)
  = (mkFiber fullText (length fullText) true None (Some true) [], mkWindow s [] n).
Proof. destruct ev; reflexivity. Qed.

Lemma prompt_mount_settled s n : Settled (mount (mkWindow s [] n)).
Proof.
  destruct (Session.flagSet storageKey s) eqn:Hs.
  - rewrite prompt_mount_played by exact Hs. constructor. exact Hs.
  - rewrite prompt_mount_fresh by exact Hs. constructor; [exact Hs|].
    rewrite fullText_length. lia.
Qed.

Lemma prompt_step_settled ev st :
  Settled st →
  Settled (step ev st) ∧
  (currentIndex st.1 ≤ currentIndex (step ev st).1 ≤ length fullText)%nat.
Proof.
  intros [dt i id s n Hs Hi | s n Hs].
  - destruct ev as [id'|]; cbn [step].
    + destruct (decide (id' = id)) as [->|Hne].
      * destruct (decide (S i < length fullText)%nat) as [Hlt|Hge].
        -- rewrite prompt_fire_more by assumption. cbn [fst currentIndex].
           split; [constructor; assumption | lia].
        -- rewrite prompt_fire_last by (assumption || lia). cbn [fst currentIndex].
           split; [constructor; apply flagSet_setItem | lia].
      * rewrite prompt_fire_other by exact Hne. cbn [fst currentIndex].
        split; [constructor; assumption | lia].
    + rewrite prompt_keydown_running. cbn [fst currentIndex].
      split; [constructor; apply flagSet_setItem | lia].
  - rewrite prompt_completed_step. cbn [fst currentIndex].
    split; [constructor; exact Hs | lia].
Qed.

Lemma prompt_step_session ev st :
  Settled st →
  (hasPlayed st.1 = true → step ev st = st) ∧
  (hasPlayed (step ev st).1 = false →
   hasPlayed st.1 = false ∧ session (step ev st).2 = session st.2) ∧
  (hasPlayed st.1 = false → hasPlayed (step ev st).1 = true →
   session (step ev st).2 = Session.setItem storageKey "true" (session st.2)).
Proof.
  intros [dt i id s n Hs Hi | s n Hs].
  - destruct ev as [id'|]; cbn [step].
    + destruct (decide (id' = id)) as [->|Hne].
      * destruct (decide (S i < length fullText)%nat) as [Hlt|Hge].
        -- rewrite prompt_fire_more by assumption. cbn. repeat split; congruence.
        -- rewrite prompt_fire_last by (assumption || lia). cbn.
           repeat split; congruence.
      * rewrite prompt_fire_other by exact Hne. cbn. repeat split; congruence.
    + rewrite prompt_keydown_running. cbn. repeat split; congruence.
  - rewrite prompt_completed_step. cbn. repeat split; congruence.
Qed.

Lemma prompt_run_settled evs st : Settled st → Settled (run evs st).
Proof.
  apply (run_invariant step). intros ev s Hs. apply prompt_step_settled, Hs.
Qed.

Lemma prompt_completed_run evs s n :
  run evs (mkFiber fullText (length fullText) true None (Some true) [], mkWindow s [] n)
  = (mkFiber fullText (length fullText) true None (Some true) [], mkWindow s [] n).
Proof.
  induction evs as [|ev evs IH]; simpl; [reflexivity|].
  rewrite prompt_completed_step. exact IH.
Qed.

Lemma prompt_timers_complete count :
  ∀ dt i id s,
  Session.flagSet storageKey s = false →
  (i + count = length fullText)%nat → count ≠ 0%nat →
  run (timerEvents id count)
    (mkFiber dt i false (Some id) (Some false) [], mkWindow s [(id, i)] (S id))
  = (mkFiber fullText (length fullText) true None (Some true) [],
     mkWindow (Session.setItem storageKey "true" s) [] (id + count)).
Proof.
  induction count as [|count IH]; intros dt i id s Hs Hlen Hne; [congruence|].
  cbn [timerEvents run fold_left step].
  destruct count as [|count].
  - rewrite prompt_fire_last by (assumption || lia). simpl. do 2 f_equal. lia.
  - rewrite prompt_fire_more by (assumption || lia).
    change (fold_left _ ?l ?s) with (run l s).
    rewrite IH by (assumption || lia). do 2 f_equal. lia.
Qed.

Lemma prompt_run_session evs :
  ∀ st, Settled st →
  hasPlayed (run evs st).1 = false →
  hasPlayed st.1 = false ∧ session (run evs st).2 = session st.2.
Proof.
  induction evs as [|ev evs IH]; intros st Hst Hrun; simpl in *.
  - auto.
  - destruct (prompt_step_settled ev st Hst) as [Hst' _].
    destruct (IH _ Hst' Hrun) as [Hc Hs].
    destruct (prompt_step_session ev st Hst) as (_ & Hstep & _).
    destruct (Hstep Hc) as [Hc' Hs']. split; [exact Hc' | congruence].
Qed.

Lemma prompt_mount_session s n :
  hasPlayed (mount (mkWindow s [] n)).1 = false →
  session (mount (mkWindow s [] n)).2 = s.
Proof.
  destruct (Session.flagSet storageKey s) eqn:Hs.
  - rewrite prompt_mount_played by exact Hs. simpl. congruence.
  - rewrite prompt_mount_fresh by exact Hs. reflexivity.
Qed.

(** What a key press does to an animation that has not ended. *)
Lemma prompt_keydown_settled st :
  Settled st → hasPlayed st.1 = false →
  displayText (keydown st).1 = fullText ∧
  hasPlayed (keydown st).1 = true ∧
  currentIndex (keydown st).1 = length fullText ∧
  timers (keydown st).2 = [] ∧
  session (keydown st).2 = Session.setItem storageKey "true" (session st.2) ∧
  ∀ evs, run evs (keydown st) = keydown st.
Proof.
  intros [dt i id s n Hs Hi | s n Hs] Hc; [|discriminate].
  rewrite prompt_keydown_running. cbn -[fullText]. repeat split.
  intros evs. apply prompt_completed_run.
Qed.

Lemma prompt_unmount_settled st : Settled st → timers (unmount st).2 = [].
Proof.
  intros [dt i id s n Hs Hi | s n Hs]; [|reflexivity].
  unfold unmount, typingCleanupRun. cbn [typingCleanup fst snd].
  rewrite prompt_clearTimeout_single. reflexivity.
Qed.

Lemma prompt_applyUpdate_frame us :
  ∀ f, queue (fold_left applyUpdate us f) = queue f.
Proof.
  induction us as [|u us IH]; intros f; simpl; [auto|].
  rewrite IH. destruct u; reflexivity.
Qed.

Lemma prompt_render_queue f : queue (render f) = [].
Proof. unfold render. rewrite prompt_applyUpdate_frame. reflexivity. Qed.

Lemma prompt_session_clearTimeout id w : session (clearTimeout id w) = session w.
Proof. reflexivity. Qed.

Ltac prompt_cases Hs :=
  repeat (first
    [ progress prompt_eval
    | rewrite prompt_session_clearTimeout
    | rewrite Hs
    | match goal with
      | |- context [bool_decide ?P] => destruct (bool_decide P) eqn:?
      end ]).

Ltac prompt_split_ifs :=
  repeat match goal with
  | |- context [if ?c then _ else _] => destruct c eqn:?
  end.

Lemma prompt_commit_shape prev f w :
  queue f = [] → queueShape (commit false prev (f, w)).
Proof.
  destruct f as [dt ci hp cl kh q]. simpl. intros ->.
  unfold queueShape, commit, typingCleanupRun, typingEffect, keyEffect.
  prompt_eval.
  destruct (negb (bool_decide (ci = currentIndex prev)));
    destruct (negb (bool_decide (hp = hasPlayed prev)));
    destruct cl; prompt_eval;
    destruct (Session.flagSet storageKey (session w)) eqn:Hs; prompt_eval;
    rewrite ?Hs; prompt_eval; auto;
    prompt_split_ifs; prompt_eval; rewrite ?flagSet_setItem; auto 10;
    match goal with
    | H : bool_decide _ && negb _ = true |- _ =>
        apply andb_prop in H as [H1 H2];
        apply bool_decide_eq_true in H1; apply negb_true_iff in H2; auto 10
    end.
Qed.

Lemma prompt_round_shape st : queueShape (round st).
Proof.
  destruct st as [f w]. rewrite (prompt_round_eq f w).
  destruct (sameState f (render f)).
  - left. apply prompt_render_queue.
  - apply prompt_commit_shape, prompt_render_queue.
Qed.

(** The three updates of a played session, on a state already at the end
    of the text and played, are consumed without a further effect. *)
Lemma prompt_round_shape_end f w :
  currentIndex f = length fullText → hasPlayed f = true →
  queue f = [SetDisplayText fullText; SetCurrentIndex (length fullText);
             SetHasPlayed true] →
  queue (round (f, w)).1 = [].
Proof.
  destruct f as [dt ci hp cl kh q]. intros Hc Hp Hq. simpl in Hc, Hp, Hq. subst.
  rewrite prompt_round_reveal. reflexivity.
Qed.

Lemma prompt_round_shape_played f w :
  Session.flagSet storageKey (session w) = true →
  queue f = [SetDisplayText fullText; SetCurrentIndex (length fullText);
             SetHasPlayed true] →
  queue (round (f, w)).1 = [] ∨
  (currentIndex (round (f, w)).1 = length fullText ∧
   hasPlayed (round (f, w)).1 = true ∧
   queue (round (f, w)).1
   = [SetDisplayText fullText; SetCurrentIndex (length fullText);
      SetHasPlayed true]).
Proof.
  destruct f as [dt ci hp cl kh q]. intros Hs Hq. simpl in Hq. subst.
  rewrite prompt_round_eq. prompt_eval.
  destruct (sameState _ _); [left; reflexivity|].
  unfold commit, typingCleanupRun, typingEffect, keyEffect. prompt_eval.
  destruct cl; prompt_cases Hs; auto.
Qed.

Lemma prompt_round_shape_completion f w :
  Session.flagSet storageKey (session w) = true →
  currentIndex f = length fullText → hasPlayed f = false →
  queue f = [SetHasPlayed true] →
  currentIndex (round (f, w)).1 = length fullText ∧
  hasPlayed (round (f, w)).1 = true ∧
  queue (round (f, w)).1
  = [SetDisplayText fullText; SetCurrentIndex (length fullText); SetHasPlayed true].
Proof.
  destruct f as [dt ci hp cl kh q]. intros Hs Hc Hp Hq. simpl in Hc, Hp, Hq. subst.
  rewrite prompt_round_eq. prompt_eval.
  rewrite prompt_sameState_played by (cbn; discriminate).
  unfold commit, typingCleanupRun, typingEffect, keyEffect. prompt_eval.
  destruct cl; prompt_cases Hs; auto.
Qed.

Lemma prompt_settle_quiescent st : queue (settle st).1 = [].
Proof.
  unfold settle.
  destruct (prompt_round_shape st) as [H0 | [[Hs Hq] | (Hs & Hc & Hp & Hq)]];
    destruct (round st) as [f w]; cbn [fst snd] in *.
  - rewrite !prompt_round_idle by assumption. exact H0.
  - destruct (prompt_round_shape_played f w Hs Hq) as [H1 | (Hc1 & Hp1 & Hq1)];
      destruct (round (f, w)) as [f1 w1]; cbn [fst snd] in *.
    + rewrite prompt_round_idle by exact H1. exact H1.
    + apply prompt_round_shape_end; assumption.
  - destruct (prompt_round_shape_completion f w Hs Hc Hp Hq) as (Hc1 & Hp1 & Hq1).
    destruct (round (f, w)) as [f1 w1]; cbn [fst snd] in *.
    apply prompt_round_shape_end; assumption.
Qed.


End PromptFacts.

(** * The claims *)

(** Reached states are settled. *)
Lemma hook_reached_settled text key s n evs :
  Hook.Settled text key (Hook.reached text key s n evs).
Proof. apply run_settled, mount_settled. Qed.

Lemma prompt_reached_settled s n evs : Prompt.Settled (Prompt.reached s n evs).
Proof. apply prompt_run_settled, prompt_mount_settled. Qed.

(** While the animation runs, the session is as it was at mount. *)
Lemma hook_reached_session text key s n evs :
  Hook.isComplete (Hook.reached text key s n evs).1 = false →
  Hook.session (Hook.reached text key s n evs).2 = s.
Proof.
  intros Hc. unfold Hook.reached in *.
  destruct (run_session text key evs _ (mount_settled text key s n) Hc) as [Hm ->].
  apply mount_session, Hm.
Qed.

Lemma prompt_reached_session s n evs :
  Prompt.hasPlayed (Prompt.reached s n evs).1 = false →
  Prompt.session (Prompt.reached s n evs).2 = s.
Proof.
  intros Hc. unfold Prompt.reached in *.
  destruct (prompt_run_session evs _ (prompt_mount_settled s n) Hc) as [Hm ->].
  apply prompt_mount_session, Hm.
Qed.

(** ** C1 *)

(** C1.  [IntroController.skip()] does not set the session flag: it never
    calls [sessionStorage.setItem], although [init] is meant to show the
    intro "only once per session" and [complete()] writes the flag.  An
    intro in once-per-session mode is shown on a first visit and skipped, by
    a call of [skip()] or by a key press: the flag is still unset, no
    [setItem] call has been made, and a controller created on the next
    navigation of the same session shows the intro again.  The same visit
    ended by [complete()] writes the flag once, and the next controller does
    not show the intro. *)
Lemma intro_skip_leaves_flag_unset :
  (Intro.init (Intro.created (Intro.oncePerSession "intro"),
               Intro.freshPage "intro" ["navigate"])).1 = true ∧
  Intro.isSkipped
    (Intro.run [Intro.Init; Intro.Skip]
       (Intro.created (Intro.oncePerSession "intro"),
        Intro.freshPage "intro" ["navigate"])).1 = true ∧
  Session.flagSet "terminalIntroShown"
    (Intro.session
       (Intro.run [Intro.Init; Intro.Skip]
          (Intro.created (Intro.oncePerSession "intro"),
           Intro.freshPage "intro" ["navigate"])).2) = false ∧
  Session.writesTo "terminalIntroShown"
    (Intro.session
       (Intro.run [Intro.Init; Intro.Skip]
          (Intro.created (Intro.oncePerSession "intro"),
           Intro.freshPage "intro" ["navigate"])).2) = 0%nat ∧
  (Intro.init
     (Intro.created (Intro.oncePerSession "intro"),
      Intro.withSession
        (Intro.session
           (Intro.run [Intro.Init; Intro.Skip]
              (Intro.created (Intro.oncePerSession "intro"),
               Intro.freshPage "intro" ["navigate"])).2)
        (Intro.freshPage "intro" ["navigate"]))).1 = true ∧
  Intro.run [Intro.Init; Intro.Dispatch Intro.Keydown]
    (Intro.created (Intro.oncePerSession "intro"),
     Intro.freshPage "intro" ["navigate"])
  = Intro.run [Intro.Init; Intro.Skip]
      (Intro.created (Intro.oncePerSession "intro"),
       Intro.freshPage "intro" ["navigate"]) ∧
  Session.flagSet "terminalIntroShown"
    (Intro.session
       (Intro.run [Intro.Init; Intro.Complete]
          (Intro.created (Intro.oncePerSession "intro"),
           Intro.freshPage "intro" ["navigate"])).2) = true ∧
  Session.writesTo "terminalIntroShown"
    (Intro.session
       (Intro.run [Intro.Init; Intro.Complete]
          (Intro.created (Intro.oncePerSession "intro"),
           Intro.freshPage "intro" ["navigate"])).2) = 1%nat ∧
  (Intro.init
     (Intro.created (Intro.oncePerSession "intro"),
      Intro.withSession
        (Intro.session
           (Intro.run [Intro.Init; Intro.Complete]
              (Intro.created (Intro.oncePerSession "intro"),
               Intro.freshPage "intro" ["navigate"])).2)
        (Intro.freshPage "intro" ["navigate"]))).1 = false.
Proof. vm_compute. repeat split. Qed.

(** ** C2 *)

Section IntroInit.
Import Dom Intro.

Lemma init_shows c p :
  (init (c, p)).1
  = introFound c p &&
    (if showOnRefresh (config c) then _isPageReload p
     else negb (Session.flagSet (storageKey (config c)) (session p))).
Proof.
  unfold init, introFound.
  destruct (introId (config c)) as [id|]; [|reflexivity]. cbn [mbind option_bind].
  destruct (getElementById id (document p)) as [e|] eqn:He; cbn [mbind option_bind].
  - rewrite bool_decide_true by eauto. cbn [andb config setIntroElement].
    destruct (if showOnRefresh (config c) then _ else _); [|reflexivity].
    cbn [negb]. destruct (skipOnKey _), (skipOnClick _); reflexivity.
  - rewrite bool_decide_false by (intros [? ?]; discriminate). reflexivity.
Qed.

(** When [init] decides not to show the intro it attaches no handler and
    leaves no intro element in the tree. *)
Lemma init_hidden c p :
  (init (c, p)).1 = false →
  listeners (init (c, p)).2.2 = listeners p ∧
  skipHandlers (init (c, p)).2.1 = skipHandlers c ∧
  session (init (c, p)).2.2 = session p ∧
  removalTimers (init (c, p)).2.2 = removalTimers p ∧
  ∀ id, introId (config c) = Some id →
        getElementById id (document (init (c, p)).2.2) = None.
Proof.
  unfold init.
  destruct (introId (config c)) as [id|]; cbn [mbind option_bind];
    [|intros _; repeat split; discriminate].
  destruct (getElementById id (document p)) as [e|] eqn:He; cbn [mbind option_bind].
  - cbn [config setIntroElement].
    destruct (if showOnRefresh (config c) then _ else _); cbn [negb].
    + destruct (skipOnKey _), (skipOnClick _); discriminate.
    + intros _. match goal with |- context [_removeIntro ?s] =>
        destruct (removeIntro_fields s) as (H1 & _ & H3 & H4) end.
      cbn [fst snd]. rewrite H1, H3, H4. cbn [fst snd skipHandlers setIntroElement].
      repeat split.
      * unfold _removeIntro. cbn [introElement setIntroElement].
        unfold getElementById in He.
        destruct (document p !! id) as [e'|]; [|discriminate].
        destruct (attached e'); [|discriminate]. reflexivity.
      * intros id' [= <-]. unfold _removeIntro. cbn [introElement setIntroElement].
        unfold getElementById in *.
        destruct (document p !! id) as [e'|]; [|discriminate].
        destruct (attached e'); [|discriminate]. cbn [snd document withDocument].
        rewrite lookup_insert_eq. reflexivity.
  - intros _. cbn. repeat split. intros id' [= <-]. exact He.
Qed.

End IntroInit.

(** C2, as stated, fails on IntroController with its default
    configuration: [showOnRefresh] is true, so [init] does not look at the
    session flag.  With the flag set and the page reloaded, [init] answers
    that the intro is to be shown and arms both skip handlers, the intro
    element staying in the tree. *)
Lemma intro_shown_again_on_reload :
  Session.flagSet "terminalIntroShown"
    (Session.setItem "terminalIntroShown" "true" Session.empty) = true ∧
  (Intro.init
     (Intro.created (Intro.defaultOptions "intro"),
      Intro.withSession (Session.setItem "terminalIntroShown" "true" Session.empty)
        (Intro.freshPage "intro" ["reload"]))).1 = true ∧
  Intro.listeners
    (Intro.init
       (Intro.created (Intro.defaultOptions "intro"),
        Intro.withSession (Session.setItem "terminalIntroShown" "true" Session.empty)
          (Intro.freshPage "intro" ["reload"]))).2.2
  = [(Intro.Keydown, 0%nat); (Intro.Click, 1%nat)] ∧
  is_Some
    (Dom.getElementById "intro"
       (Intro.document
          (Intro.init
             (Intro.created (Intro.defaultOptions "intro"),
              Intro.withSession
                (Session.setItem "terminalIntroShown" "true" Session.empty)
                (Intro.freshPage "intro" ["reload"]))).2.2)).
Proof. vm_compute. repeat split. eauto. Qed.

(** C2 (amended): when the session flag is already set at mount,
    TerminalPrompt comes out of its mount completed, showing the full text,
    without any timeout having been set (the handle counter is untouched)
    and no later event changes anything.  [IntroController.init] consults
    the flag only when [showOnRefresh] is false: then, the flag being set,
    it returns false.  With [showOnRefresh] true it returns true exactly
    when the element exists and the navigation is a reload.  Whenever it
    returns false it attaches no skip handler, sets no timeout, writes
    nothing to the session, and the intro element is out of the tree. *)
Theorem played_session_skips_animation
    (s : Session.t) (n : nat) (c : Intro.Controller) (p : Intro.Page) :
  Session.flagSet Prompt.storageKey s = true →
  Session.flagSet (Intro.storageKey (Intro.config c)) (Intro.session p) = true →
  (Prompt.mount (Prompt.mkWindow s [] n)
     = (Prompt.mkFiber Prompt.fullText (length Prompt.fullText) true None
                       (Some true) [],
        Prompt.mkWindow s [] n) ∧
   ∀ evs, Prompt.reached s n evs = Prompt.mount (Prompt.mkWindow s [] n)) ∧
  (Intro.init (c, p)).1
    = (if Intro.showOnRefresh (Intro.config c)
       then Intro.introFound c p && Intro._isPageReload p
       else false) ∧
  (if (Intro.init (c, p)).1 then True
   else Intro.listeners (Intro.init (c, p)).2.2 = Intro.listeners p ∧
        Intro.skipHandlers (Intro.init (c, p)).2.1 = Intro.skipHandlers c ∧
        Intro.session (Intro.init (c, p)).2.2 = Intro.session p ∧
        Intro.removalTimers (Intro.init (c, p)).2.2 = Intro.removalTimers p ∧
        ∀ id, Intro.introId (Intro.config c) = Some id →
              Dom.getElementById id (Intro.document (Intro.init (c, p)).2.2) = None).
Proof.
  intros Hp Hi. split; [split|split].
  - apply prompt_mount_played, Hp.
  - intros evs. unfold Prompt.reached.
    rewrite prompt_mount_played by exact Hp. apply prompt_completed_run.
  - rewrite init_shows, Hi. cbn [negb].
    destruct (Intro.showOnRefresh _); [reflexivity | apply andb_false_r].
  - destruct (Intro.init (c, p)).1 eqn:E; [exact I | apply init_hidden, E].
Qed.

Lemma played_session_skips_animation_witness :
  Session.flagSet Prompt.storageKey
    (Session.setItem Prompt.storageKey "true" Session.empty) = true ∧
  Session.flagSet "terminalIntroShown"
    (Session.setItem "terminalIntroShown" "true" Session.empty) = true ∧
  (Intro.init
     (Intro.created (Intro.oncePerSession "intro"),
      Intro.withSession (Session.setItem "terminalIntroShown" "true" Session.empty)
        (Intro.freshPage "intro" ["navigate"]))).1 = false.
Proof.
  split; [reflexivity|]. split; [reflexivity|].
  destruct (played_session_skips_animation
              (Session.setItem Prompt.storageKey "true" Session.empty) 1
              (Intro.created (Intro.oncePerSession "intro"))
              (Intro.withSession
                 (Session.setItem "terminalIntroShown" "true" Session.empty)
                 (Intro.freshPage "intro" ["navigate"]))
              eq_refl eq_refl) as (_ & H & _).
  exact H.
Defined.

(** ** C3 *)

(** C3, as stated, fails on two of the operations it cites: called with
    no element, [typeWriter] throws (its promise is rejected with the
    error), and the IntroController constructor throws when the intro id is
    missing. *)
Lemma missing_element_raises_error :
  Typewriter.typeWriter (Some (lit "hello")) None
    (Typewriter.mkOptions None None false false)
  = inl "typeWriter: element is required" ∧
  Intro.constructor (Intro.mkOptions None None None None None None false false)
  = inl Intro.IntroIdRequired.
Proof. split; reflexivity. Qed.

(** C3 (amended): [ModalController._init] (run by the constructor) and
    [IntroController.init], given the id of an element that is not in the
    page, return early: they log one console warning and change nothing
    else, [init] answering false.  [typeWriter], [typeWriterCancellable]
    and [instantText] given no element, and the IntroController constructor
    given no intro id, raise an error to the caller instead. *)
Theorem missing_element_returns_early_or_raises
    (cfg : Modal.Config) (mp : Modal.Page)
    (c : Intro.Controller) (p : Intro.Page)
    (txt : option jsstring) (instant : jsstring) (o : Typewriter.Options)
    (io : Intro.Options) :
  Dom.getElementById (Modal.modalId cfg) (Modal.document mp) = None →
  Intro.introFound c p = false →
  truthyKey (Intro.o_introId io) = false →
  Modal.constructor cfg mp
    = (Modal.mkController cfg false None [] [],
       Modal.mkPage (Modal.document mp) (Modal.navLinks mp) (Modal.listeners mp)
         (Modal.warnings mp
          ++ [("Modal element #" ++ Modal.modalId cfg ++ " not found")%string])) ∧
  Intro.init (c, p)
    = (false,
       (Intro.setIntroElement None c,
        Intro.warn ("IntroController: Element with id " ++ dquote
                    ++ default "" (Intro.introId (Intro.config c)) ++ dquote
                    ++ " not found")%string p)) ∧
  Typewriter.typeWriter txt None o = inl "typeWriter: element is required" ∧
  Typewriter.typeWriterCancellable txt None o
    = inl "typeWriterCancellable: element is required" ∧
  Typewriter.instantText instant None = inl "instantText: element is required" ∧
  Intro.constructor io = inl Intro.IntroIdRequired.
Proof.
  intros Hm Hi Ho. repeat apply conj; try reflexivity.
  - unfold Modal.constructor, Modal._init. cbn [Modal.config]. rewrite Hm. reflexivity.
  - unfold Intro.init, Intro.introFound in *.
    cbn [Intro.config Intro.setIntroElement].
    destruct (Intro.introId (Intro.config c)) as [id|]; [|reflexivity].
    cbn [mbind option_bind].
    destruct (Dom.getElementById id (Intro.document p)); [|reflexivity].
    rewrite bool_decide_true in Hi by eauto. discriminate.
  - unfold Intro.constructor. cbn [Intro.mergeConfig Intro.introId].
    rewrite Ho. reflexivity.
Qed.

Lemma missing_element_returns_early_or_raises_witness :
  Dom.getElementById "menu" (∅ : gmap string Dom.Element) = None ∧
  Intro.introFound (Intro.created (Intro.defaultOptions "intro"))
    (Intro.freshPage "other" ["reload"]) = false ∧
  truthyKey (Some "") = false ∧
  (Intro.init (Intro.created (Intro.defaultOptions "intro"),
               Intro.freshPage "other" ["reload"])).1 = false.
Proof.
  split; [reflexivity|]. split; [reflexivity|]. split; [reflexivity|].
  assert (Hm : Dom.getElementById "menu" (∅ : gmap string Dom.Element) = None)
    by reflexivity.
  destruct (missing_element_returns_early_or_raises
              (Modal.mkConfig "menu" None None true true true)
              (Modal.mkPage ∅ 0 [] [])
              (Intro.created (Intro.defaultOptions "intro"))
              (Intro.freshPage "other" ["reload"])
              None [] (Typewriter.mkOptions None None false false)
              (Intro.mkOptions (Some "") None None None None None false false)
              Hm eq_refl eq_refl) as (_ & H & _).
  rewrite H. reflexivity.
Defined.

(** ** C4 *)

Lemma typeWriter_started txt e o :
  ∃ r, Typewriter.typeWriter txt (Some e) o = inr r ∧
       Typewriter.typeWriterCancellable txt (Some e) o = inr r ∧
       Typewriter.text r = default [] txt ∧
       Typewriter.index r = 0%nat ∧
       Typewriter.element r = e ∧
       Typewriter.calls r = [] ∧
       Typewriter.wellFormed r.
Proof.
  unfold Typewriter.typeWriter, Typewriter.typeWriterCancellable, Typewriter.wellFormed.
  destruct (negb (truthy txt)); [|destruct (0 <? _)%Z];
    eexists; repeat split; simpl; lia.
Qed.

Lemma prompt_indices_settled evs :
  ∀ st, Prompt.Settled st →
  Sorted le (Prompt.indices evs st) ∧
  Forall (λ i, Prompt.currentIndex st.1 ≤ i ≤ length Prompt.fullText)%nat
         (Prompt.indices evs st).
Proof.
  induction evs as [|ev evs IH]; intros st Hst; cbn [Prompt.indices].
  - destruct (prompt_step_settled (Prompt.Keydown) st Hst) as [_ Hi].
    split; [repeat constructor | constructor; [lia | constructor]].
  - destruct (prompt_step_settled ev st Hst) as [Hst' Hi].
    destruct (IH _ Hst') as [Hs Hb]. split.
    + constructor; [exact Hs|]. destruct evs; cbn [Prompt.indices]; constructor; lia.
    + constructor; [lia|]. eapply Forall_impl; [exact Hb|].
      cbn beta. intros; lia.
Qed.

(** C4: for every text and every sequence of timer ticks and skip events,
    the reveal index never decreases and never exceeds the length of the
    text.  This holds of the index variable of [typeWriter] and of
    [typeWriterCancellable] (where the skip is [cancel()]), of [indexRef] in
    [useTypewriterAnimation] and of [currentIndex] in TerminalPrompt. *)
Theorem reveal_index_monotone_bounded
    (text : jsstring) (txt : option jsstring) (e : Dom.Element)
    (o : Typewriter.Options) (tevs : list Typewriter.Event)
    (key : string) (s : Session.t) (n : nat) (hevs : list Hook.Event)
    (ps : Session.t) (pn : nat) (pevs : list Prompt.Event) :
  match Typewriter.typeWriter txt (Some e) o with
  | inr r =>
      Sorted le (Typewriter.indices Typewriter.step tevs r) ∧
      Forall (λ i, i ≤ length (default [] txt))%nat
             (Typewriter.indices Typewriter.step tevs r)
  | inl _ => False
  end ∧
  match Typewriter.typeWriterCancellable txt (Some e) o with
  | inr r =>
      Sorted le (Typewriter.indices Typewriter.stepCancellable tevs r) ∧
      Forall (λ i, i ≤ length (default [] txt))%nat
             (Typewriter.indices Typewriter.stepCancellable tevs r)
  | inl _ => False
  end ∧
  Sorted le (Hook.indices text key hevs (Hook.mount text key (Hook.mkWindow s [] n))) ∧
  Forall (λ i, i ≤ length text)%nat
         (Hook.indices text key hevs (Hook.mount text key (Hook.mkWindow s [] n))) ∧
  Sorted le (Prompt.indices pevs (Prompt.mount (Prompt.mkWindow ps [] pn))) ∧
  Forall (λ i, i ≤ length Prompt.fullText)%nat
         (Prompt.indices pevs (Prompt.mount (Prompt.mkWindow ps [] pn))).
Proof.
  destruct (typeWriter_started txt e o) as (r & -> & -> & Ht & _ & _ & _ & Hwf).
  destruct (indices_sorted_bounded Typewriter.step tevs (or_introl eq_refl) r Hwf)
    as [Hs1 Hb1].
  destruct (indices_sorted_bounded Typewriter.stepCancellable tevs
              (or_intror eq_refl) r Hwf) as [Hs2 Hb2].
  destruct (indices_settled text key hevs _ (mount_settled text key s n)) as [Hs3 Hb3].
  destruct (prompt_indices_settled pevs _ (prompt_mount_settled ps pn)) as [Hs4 Hb4].
  rewrite Ht in Hb1, Hb2.
  repeat apply conj; try assumption;
    (eapply Forall_impl; [eassumption|]); simpl; intros; lia.
Qed.

(** ** C5 *)

(** In a settled state the index is at the end of the text exactly when
    the animation is completed, and then the flag is set. *)
Lemma hook_settled_end text key st :
  Hook.Settled text key st →
  Hook.indexRef st.1 = length text →
  Hook.isComplete st.1 = true ∧ Hook.hasPlayed st.1 = true ∧
  Session.flagSet key (Hook.session st.2) = true.
Proof.
  intros [dt i id ini s n Hi | ini tref s n Hs]; simpl.
  - lia.
  - auto.
Qed.

Lemma prompt_settled_end st :
  Prompt.Settled st →
  Prompt.currentIndex st.1 = length Prompt.fullText →
  Prompt.hasPlayed st.1 = true ∧
  Session.flagSet Prompt.storageKey (Prompt.session st.2) = true.
Proof.
  intros [dt i id s n Hs Hi | s n Hs]; cbn [fst snd Prompt.currentIndex
    Prompt.hasPlayed Prompt.session].
  - lia.
  - auto.
Qed.

(** Left to its timers, the hook completes. *)
Lemma hook_timers_reach_completion text key s n eagers :
  Session.flagSet key s = false →
  length eagers = length text →
  Hook.isComplete (Hook.reached text key s n (Hook.timerEvents n eagers)).1 = true ∧
  Hook.displayText (Hook.reached text key s n (Hook.timerEvents n eagers)).1 = text ∧
  Hook.indexRef (Hook.reached text key s n (Hook.timerEvents n eagers)).1
    = length text ∧
  Hook.session (Hook.reached text key s n (Hook.timerEvents n eagers)).2
    = Session.setItem key "true" s.
Proof.
  intros Hs Hlen. unfold Hook.reached. rewrite mount_fresh by exact Hs.
  case_bool_decide as Hpos.
  - destruct (timers_complete text key eagers [] 0 n true s) as [tref ->].
    + simpl. lia.
    + intros ->. simpl in Hlen. lia.
    + simpl. auto.
  - destruct eagers; [|simpl in Hlen; lia]. simpl. auto.
Qed.

Lemma prompt_timers_reach_completion s n :
  Session.flagSet Prompt.storageKey s = false →
  Prompt.reached s n (Prompt.timerEvents n (length Prompt.fullText))
  = (Prompt.mkFiber Prompt.fullText (length Prompt.fullText) true None (Some true) [],
     Prompt.mkWindow (Session.setItem Prompt.storageKey "true" s) []
                     (n + length Prompt.fullText)).
Proof.
  intros Hs. unfold Prompt.reached. rewrite prompt_mount_fresh by exact Hs.
  apply prompt_timers_complete; [exact Hs | reflexivity |].
  rewrite fullText_length. discriminate.
Qed.

(** C5: in a run that is not skipped the animation completes when the
    reveal index reaches the length of the text, and the session flag is
    set.  For the hook and for TerminalPrompt: mounted with the flag unset
    and left to their timers, they reach the end of the text after one
    timeout per character, are then completed, and have written the flag
    (once); and in whatever way a state with the index at the end of the
    text is reached, it is completed with the flag set.  For
    IntroController, whose end is signalled by [complete()]: on an intro
    neither skipped nor complete it sets [isComplete] and writes the flag. *)
Theorem completion_sets_flag
    (text : jsstring) (key : string) (s : Session.t) (n : nat)
    (eagers : list bool) (evs : list Hook.Event)
    (ps : Session.t) (pn : nat) (pevs : list Prompt.Event)
    (c : Intro.Controller) (p : Intro.Page) :
  Session.flagSet key s = false →
  length eagers = length text →
  Hook.indexRef (Hook.reached text key s n evs).1 = length text →
  Session.flagSet Prompt.storageKey ps = false →
  Prompt.currentIndex (Prompt.reached ps pn pevs).1 = length Prompt.fullText →
  Intro.isSkipped c = false →
  Intro.isComplete c = false →
  (Hook.isComplete (Hook.reached text key s n (Hook.timerEvents n eagers)).1 = true ∧
   Hook.indexRef (Hook.reached text key s n (Hook.timerEvents n eagers)).1
     = length text ∧
   Hook.session (Hook.reached text key s n (Hook.timerEvents n eagers)).2
     = Session.setItem key "true" s ∧
   Hook.isComplete (Hook.reached text key s n evs).1 = true ∧
   Session.flagSet key (Hook.session (Hook.reached text key s n evs).2) = true) ∧
  (Prompt.hasPlayed
     (Prompt.reached ps pn (Prompt.timerEvents pn (length Prompt.fullText))).1 = true ∧
   Prompt.currentIndex
     (Prompt.reached ps pn (Prompt.timerEvents pn (length Prompt.fullText))).1
     = length Prompt.fullText ∧
   Prompt.session
     (Prompt.reached ps pn (Prompt.timerEvents pn (length Prompt.fullText))).2
     = Session.setItem Prompt.storageKey "true" ps ∧
   Prompt.hasPlayed (Prompt.reached ps pn pevs).1 = true ∧
   Session.flagSet Prompt.storageKey
     (Prompt.session (Prompt.reached ps pn pevs).2) = true) ∧
  (Intro.isComplete (Intro.complete (c, p)).1 = true ∧
   Intro.session (Intro.complete (c, p)).2
     = Session.setItem (Intro.storageKey (Intro.config c)) "true" (Intro.session p) ∧
   Session.flagSet (Intro.storageKey (Intro.config c))
     (Intro.session (Intro.complete (c, p)).2) = true).
Proof.
  intros Hs Hlen Hend Hps Hpend Hsk Hco.
  destruct (hook_timers_reach_completion text key s n eagers Hs Hlen)
    as (H1 & _ & H2 & H3).
  destruct (hook_settled_end text key _ (hook_reached_settled text key s n evs) Hend)
    as (H4 & _ & H5).
  destruct (prompt_settled_end _ (prompt_reached_settled ps pn pevs) Hpend)
    as (H6 & H7).
  destruct (complete_running (c, p) Hsk Hco) as (_ & H8 & H9 & _).
  rewrite (prompt_timers_reach_completion ps pn Hps).
  cbn [fst snd Prompt.hasPlayed Prompt.currentIndex Prompt.session] in *.
  repeat apply conj; try assumption; try reflexivity.
  rewrite H9. apply flagSet_setItem.
Qed.

Lemma completion_sets_flag_witness :
  Session.flagSet "typed" Session.empty = false ∧
  length [true; false] = length (lit "ab") ∧
  Hook.indexRef
    (Hook.reached (lit "ab") "typed" Session.empty 1
       [Hook.Fire 1 false; Hook.Fire 2 true]).1 = length (lit "ab") ∧
  Session.flagSet Prompt.storageKey Session.empty = false ∧
  Prompt.currentIndex
    (Prompt.reached Session.empty 1 (Prompt.timerEvents 1 20)).1
  = length Prompt.fullText ∧
  Intro.isSkipped (Intro.created (Intro.defaultOptions "intro")) = false ∧
  Intro.isComplete (Intro.created (Intro.defaultOptions "intro")) = false ∧
  Hook.isComplete
    (Hook.reached (lit "ab") "typed" Session.empty 1
       (Hook.timerEvents 1 [true; false])).1 = true.
Proof.
  do 7 (split; [reflexivity|]).
  destruct (completion_sets_flag
              (lit "ab") "typed" Session.empty 1 [true; false]
              [Hook.Fire 1 false; Hook.Fire 2 true]
              Session.empty 1 (Prompt.timerEvents 1 20)
              (Intro.created (Intro.defaultOptions "intro"))
              (Intro.freshPage "intro" ["reload"])
              eq_refl eq_refl eq_refl eq_refl eq_refl eq_refl eq_refl)
    as [(H & _) _].
  exact H.
Defined.

(** ** C6 *)

Lemma cancelled_run evs :
  ∀ r, Typewriter.cancelled r = true →
  Typewriter.calls (Typewriter.runCancellable evs r) = Typewriter.calls r ∧
  Typewriter.element (Typewriter.runCancellable evs r) = Typewriter.element r.
Proof.
  induction evs as [|ev evs IH]; intros r Hc; simpl.
  - auto.
  - destruct (cancelled_step ev r Hc) as (Hc' & Hcalls & Hel & _).
    destruct (IH _ Hc') as [H1 H2]. split; congruence.
Qed.

Lemma skipped_run evs :
  ∀ st, Intro.isSkipped st.1 = true →
  Intro.completions (Intro.run evs st).2 = Intro.completions st.2.
Proof.
  apply (run_preserves Intro.step (λ st, Intro.isSkipped st.1 = true)
           (λ st, Intro.completions st.2)).
  intros ev st Hs. apply step_skipped_completions, Hs.
Qed.

(** C6: skipping a running intro never fires [onComplete]: not in
    [skip()] itself, and not in anything that happens afterwards, a later
    [complete()] included.  The same holds of [typeWriterCancellable] once
    [cancel()] has been called.  The only step of an IntroController that
    fires [onComplete] is [complete()] on an intro neither skipped nor
    complete, which fires it once when the callback is given. *)
Theorem skip_never_fires_onComplete
    (c : Intro.Controller) (p : Intro.Page) (evs : list Intro.Event)
    (r : Typewriter.Run) (tevs : list Typewriter.Event) :
  Intro.isSkipped c = false →
  Intro.isComplete c = false →
  Intro.completions (Intro.skip (c, p)).2 = Intro.completions p ∧
  Intro.completions (Intro.run evs (Intro.skip (c, p))).2 = Intro.completions p ∧
  Typewriter.completions (Typewriter.runCancellable tevs (Typewriter.cancel r))
    = Typewriter.completions r ∧
  (∀ ev st,
     Intro.completions (Intro.step ev st).2 = Intro.completions st.2 ∨
     (ev = Intro.Complete ∧ Intro.isSkipped st.1 = false ∧
      Intro.isComplete st.1 = false)) ∧
  Intro.completions (Intro.complete (c, p)).2
    = (Intro.completions p
       + (if Intro.onComplete (Intro.config c) then 1 else 0))%nat.
Proof.
  intros Hs Hc.
  assert (Hskip : Intro.completions (Intro.skip (c, p)).2 = Intro.completions p)
    by apply (skip_fields (c, p)).
  repeat apply conj.
  - exact Hskip.
  - rewrite skipped_run; [exact Hskip|]. apply skip_sets_skipped. exact Hc.
  - unfold Typewriter.completions.
    destruct (cancel_fields r) as (Hcan & Hcalls & _).
    destruct (cancelled_run tevs _ Hcan) as [-> _]. rewrite Hcalls. reflexivity.
  - intros ev st.
    destruct ev; try (left; apply step_completions; discriminate).
    destruct (Intro.isSkipped st.1 || Intro.isComplete st.1) eqn:E.
    + left. simpl. rewrite complete_stopped by exact E. reflexivity.
    + right. apply orb_false_elim in E. tauto.
  - destruct (complete_running (c, p) Hs Hc) as (_ & _ & _ & Hf).
    unfold Intro.completions. rewrite Hf. cbn [snd fst].
    rewrite filter_app, length_app.
    destruct (Intro.onComplete (Intro.config c)); reflexivity.
Qed.

Lemma skip_never_fires_onComplete_witness :
  Intro.isSkipped (Intro.created (Intro.defaultOptions "intro")) = false ∧
  Intro.isComplete (Intro.created (Intro.defaultOptions "intro")) = false ∧
  Intro.completions
    (Intro.run [Intro.Complete; Intro.Dispatch Intro.Keydown]
       (Intro.skip
          ((Intro.init (Intro.created (Intro.defaultOptions "intro"),
                        Intro.freshPage "intro" ["reload"])).2))).2 = 0%nat.
Proof.
  split; [reflexivity|]. split; [reflexivity|].
  destruct (skip_never_fires_onComplete
              (Intro.init (Intro.created (Intro.defaultOptions "intro"),
                           Intro.freshPage "intro" ["reload"])).2.1
              (Intro.init (Intro.created (Intro.defaultOptions "intro"),
                           Intro.freshPage "intro" ["reload"])).2.2
              [Intro.Complete; Intro.Dispatch Intro.Keydown]
              (Typewriter.mkRun [] (Dom.mkElement [] ∅ [] ∅ true)
                 (Typewriter.mergeConfig (Typewriter.mkOptions None None false true))
                 0 Typewriter.Idle Typewriter.Pending false None [])
              [Typewriter.Tick]
              eq_refl eq_refl) as (_ & H & _).
  exact H.
Defined.

(** ** C7 *)

Lemma pending_clearTimeout id p :
  Glitch.pending id (Glitch.clearTimeout id p) = false.
Proof.
  unfold Glitch.pending, Glitch.clearTimeout. cbn [Glitch.timers].
  apply bool_decide_false. intros Hin.
  apply list_elem_of_In, in_map_iff in Hin as ((i & t) & Hi & Hin).
  apply list_elem_of_In, list_elem_of_filter in Hin as [Hne _].
  simpl in *. congruence.
Qed.

Lemma hook_skip_clears text key st :
  Hook.Settled text key st →
  Hook.timers (Hook.skip text key st).2 = [] ∧
  ∀ later, Hook.run text key later (Hook.skip text key st) = Hook.skip text key st.
Proof.
  intros Hst. destruct (Hook.isComplete st.1) eqn:Hc.
  - destruct Hst as [dt i id ini s n Hi | ini tref s n Hs]; [discriminate|].
    cbn. split; [reflexivity|]. intros later. apply completed_run.
  - destruct (skip_settled text key st Hst Hc) as (_ & _ & _ & H1 & _ & H2). auto.
Qed.

Lemma prompt_keydown_clears st :
  Prompt.Settled st →
  Prompt.timers (Prompt.keydown st).2 = [] ∧
  ∀ later, Prompt.run later (Prompt.keydown st) = Prompt.keydown st.
Proof.
  intros Hst. destruct (Prompt.hasPlayed st.1) eqn:Hc.
  - destruct Hst as [dt i id s n Hs Hi | s n Hs]; [discriminate|].
    cbn -[Prompt.fullText]. split; [reflexivity|]. intros later.
    apply prompt_completed_run.
  - destruct (prompt_keydown_settled st Hst Hc) as (_ & _ & _ & H1 & _ & H2). auto.
Qed.

(** With no timeout pending, no timeout can fire. *)
Lemma hook_fire_nothing text key id eager st :
  Hook.timers st.2 = [] → Hook.fireTimer text key id eager st = st.
Proof. destruct st as [f w]. simpl. intros ->. reflexivity. Qed.

Lemma prompt_fire_nothing id st :
  Prompt.timers st.2 = [] → Prompt.fireTimer id st = st.
Proof. destruct st as [f w]. simpl. intros ->. reflexivity. Qed.

(** C7, as stated, fails on GlitchAnimator: [stop()] clears only the
    timeout recorded in [timeoutId].  Stopped during a glitch, it leaves the
    glitch-duration timeout (handle 2) pending.  If the animator is started
    again before that timeout fires, the timeout schedules a further glitch
    of its own (handle 4) next to the one [start()] scheduled (handle 3);
    the next [stop()] clears handle 4 only, and handle 3 then fires a glitch
    on the stopped animator. *)
Lemma stop_leaves_glitch_timeouts_pending :
  Glitch.timers
    (Glitch.run [Glitch.Start; Glitch.Fire 1 Glitch.samplePattern; Glitch.Stop]
       (Glitch.constructor "logo", Glitch.pageWith "logo")).2
  = [(2%nat, Glitch.EndGlitch)] ∧
  Glitch.timers
    (Glitch.run [Glitch.Start; Glitch.Fire 1 Glitch.samplePattern; Glitch.Stop;
                 Glitch.Start; Glitch.Fire 2 Glitch.samplePattern]
       (Glitch.constructor "logo", Glitch.pageWith "logo")).2
  = [(3%nat, Glitch.ExecuteGlitch); (4%nat, Glitch.ExecuteGlitch)] ∧
  Glitch.isRunning
    (Glitch.run [Glitch.Start; Glitch.Fire 1 Glitch.samplePattern; Glitch.Stop;
                 Glitch.Start; Glitch.Fire 2 Glitch.samplePattern; Glitch.Stop]
       (Glitch.constructor "logo", Glitch.pageWith "logo")).1 = false ∧
  Glitch.timers
    (Glitch.run [Glitch.Start; Glitch.Fire 1 Glitch.samplePattern; Glitch.Stop;
                 Glitch.Start; Glitch.Fire 2 Glitch.samplePattern; Glitch.Stop]
       (Glitch.constructor "logo", Glitch.pageWith "logo")).2
  = [(3%nat, Glitch.ExecuteGlitch)] ∧
  Glitch.glitches
    (Glitch.run [Glitch.Start; Glitch.Fire 1 Glitch.samplePattern; Glitch.Stop;
                 Glitch.Start; Glitch.Fire 2 Glitch.samplePattern; Glitch.Stop]
       (Glitch.constructor "logo", Glitch.pageWith "logo")).2 = 1%nat ∧
  Glitch.glitches
    (Glitch.run [Glitch.Start; Glitch.Fire 1 Glitch.samplePattern; Glitch.Stop;
                 Glitch.Start; Glitch.Fire 2 Glitch.samplePattern; Glitch.Stop;
                 Glitch.Fire 3 Glitch.samplePattern]
       (Glitch.constructor "logo", Glitch.pageWith "logo")).2 = 2%nat.
Proof. vm_compute. repeat split. Qed.

(** C7 (amended): a skip or an unmount of [useTypewriterAnimation] or of
    TerminalPrompt leaves no character-reveal timeout pending, so that no
    timeout can fire afterwards and, after a skip, no later event changes
    the text.  [GlitchAnimator.stop()] sets [isRunning] to false and clears
    the timeout recorded in [timeoutId]; a glitch-duration timeout is not
    cleared, and when it fires on a stopped animator it removes the glitch
    class and nothing else: no pattern is applied and nothing is
    scheduled. *)
Theorem skip_unmount_stop_clear_tracked_timer
    (text : jsstring) (key : string) (s : Session.t) (n : nat)
    (evs : list Hook.Event)
    (ps : Session.t) (pn : nat) (pevs : list Prompt.Event)
    (a : Glitch.Animator) (p : Glitch.Page) (id k : nat) (g : Glitch.GlitchData) :
  Glitch.isRunning a = false →
  list_find (λ t, t.1 = id) (Glitch.timers p) = Some (k, (id, Glitch.EndGlitch)) →
  (Hook.timers (Hook.skip text key (Hook.reached text key s n evs)).2 = [] ∧
   (∀ later,
      Hook.run text key later (Hook.skip text key (Hook.reached text key s n evs))
      = Hook.skip text key (Hook.reached text key s n evs)) ∧
   Hook.timers (Hook.unmount (Hook.reached text key s n evs)).2 = [] ∧
   (∀ t eager,
      Hook.fireTimer text key t eager (Hook.unmount (Hook.reached text key s n evs))
      = Hook.unmount (Hook.reached text key s n evs))) ∧
  (Prompt.timers (Prompt.keydown (Prompt.reached ps pn pevs)).2 = [] ∧
   (∀ later,
      Prompt.run later (Prompt.keydown (Prompt.reached ps pn pevs))
      = Prompt.keydown (Prompt.reached ps pn pevs)) ∧
   Prompt.timers (Prompt.unmount (Prompt.reached ps pn pevs)).2 = [] ∧
   (∀ t,
      Prompt.fireTimer t (Prompt.unmount (Prompt.reached ps pn pevs))
      = Prompt.unmount (Prompt.reached ps pn pevs))) ∧
  (∀ a' p',
     Glitch.isRunning (Glitch.stop (a', p')).1 = false ∧
     match Glitch.timeoutId a' with
     | Some (S t) => Glitch.pending (S t) (Glitch.stop (a', p')).2 = false
     | _ => Glitch.stop (a', p') = (Glitch.mkAnimator (Glitch.elementId a') false
                                      (Glitch.timeoutId a'), p')
     end) ∧
  Glitch.fireTimer id g (a, p)
    = (a, Glitch.unglitchElement (Glitch.elementId a) (Glitch.clearTimeout id p)) ∧
  Glitch.glitches (Glitch.fireTimer id g (a, p)).2 = Glitch.glitches p ∧
  Glitch.scheduledGlitches (Glitch.fireTimer id g (a, p)).2
    `sublist_of` Glitch.scheduledGlitches p.
Proof.
  intros Hr Hfind.
  pose proof (hook_reached_settled text key s n evs) as Hh.
  pose proof (prompt_reached_settled ps pn pevs) as Hp.
  assert (Hfire : Glitch.fireTimer id g (a, p)
            = (a, Glitch.unglitchElement (Glitch.elementId a)
                    (Glitch.clearTimeout id p))).
  { unfold Glitch.fireTimer. rewrite Hfind.
    rewrite scheduleNextGlitch_stopped by exact Hr. reflexivity. }
  repeat apply conj.
  - apply hook_skip_clears, Hh.
  - apply hook_skip_clears, Hh.
  - apply unmount_settled with (text := text) (storageKey := key), Hh.
  - intros t eager. apply hook_fire_nothing.
    apply unmount_settled with (text := text) (storageKey := key), Hh.
  - apply prompt_keydown_clears, Hp.
  - apply prompt_keydown_clears, Hp.
  - apply prompt_unmount_settled, Hp.
  - intros t. apply prompt_fire_nothing, prompt_unmount_settled, Hp.
  - intros a' p'. split; [apply (stop_fields (a', p'))|].
    unfold Glitch.stop. destruct (Glitch.timeoutId a') as [[|t]|]; try reflexivity.
    apply pending_clearTimeout.
  - exact Hfire.
  - rewrite Hfire. cbn [snd]. rewrite unglitchElement_glitches. reflexivity.
  - rewrite Hfire. cbn [snd].
    erewrite scheduled_timers; [|apply unglitchElement_timers].
    apply scheduled_clearTimeout.
Qed.

Lemma skip_unmount_stop_clear_tracked_timer_witness :
  Glitch.isRunning
    (Glitch.run [Glitch.Start; Glitch.Fire 1 Glitch.samplePattern; Glitch.Stop]
       (Glitch.constructor "logo", Glitch.pageWith "logo")).1 = false ∧
  list_find (λ t, t.1 = 2%nat)
    (Glitch.timers
       (Glitch.run [Glitch.Start; Glitch.Fire 1 Glitch.samplePattern; Glitch.Stop]
          (Glitch.constructor "logo", Glitch.pageWith "logo")).2)
  = Some (0%nat, (2%nat, Glitch.EndGlitch)) ∧
  Glitch.glitches
    (Glitch.fireTimer 2 Glitch.samplePattern
       (Glitch.run [Glitch.Start; Glitch.Fire 1 Glitch.samplePattern; Glitch.Stop]
          (Glitch.constructor "logo", Glitch.pageWith "logo"))) .2 = 1%nat.
Proof.
  split; [reflexivity|]. split; [reflexivity|].
  destruct (skip_unmount_stop_clear_tracked_timer
              (lit "ab") "typed" Session.empty 1 [Hook.Fire 1 true]
              Session.empty 1 [Prompt.Fire 1]
              (Glitch.run [Glitch.Start; Glitch.Fire 1 Glitch.samplePattern; Glitch.Stop]
                 (Glitch.constructor "logo", Glitch.pageWith "logo")).1
              (Glitch.run [Glitch.Start; Glitch.Fire 1 Glitch.samplePattern; Glitch.Stop]
                 (Glitch.constructor "logo", Glitch.pageWith "logo")).2
              2%nat 0%nat Glitch.samplePattern eq_refl eq_refl)
    as (_ & _ & _ & _ & H & _).
  exact H.
Defined.

(** ** C8 *)

Lemma idle_run evs :
  ∀ r, Typewriter.phase r = Typewriter.Idle →
  Typewriter.run evs r = r ∧
  Typewriter.calls (Typewriter.runCancellable evs r) = Typewriter.calls r ∧
  Typewriter.element (Typewriter.runCancellable evs r) = Typewriter.element r ∧
  Typewriter.promise (Typewriter.runCancellable evs r) = Typewriter.promise r.
Proof.
  induction evs as [|ev evs IH]; intros r Hp; simpl.
  - auto.
  - destruct (idle_step ev r Hp) as (Hp' & -> & Hc & He & Hpr).
    destruct (IH r Hp) as (H1 & _).
    destruct (IH _ Hp') as (_ & H2 & H3 & H4).
    repeat split; congruence.
Qed.

(** C8: called on an element with a falsy text (undefined, null or the
    empty string), [typeWriter] and [typeWriterCancellable] resolve at
    once: the promise is fulfilled, no timer is set, the element (its
    [textContent] and [data-text] attribute included) is as it was, and no
    callback has been called.  Nothing being pending, this stays so. *)
Theorem falsy_text_resolves_untouched
    (txt : option jsstring) (e : Dom.Element) (o : Typewriter.Options)
    (evs : list Typewriter.Event) :
  truthy txt = false →
  Typewriter.typeWriter txt (Some e) o
    = inr (Typewriter.mkRun (default [] txt) e (Typewriter.mergeConfig o) 0
             Typewriter.Idle Typewriter.Fulfilled false None []) ∧
  Typewriter.typeWriterCancellable txt (Some e) o
    = inr (Typewriter.mkRun (default [] txt) e (Typewriter.mergeConfig o) 0
             Typewriter.Idle Typewriter.Fulfilled false None []) ∧
  Typewriter.run evs
    (Typewriter.mkRun (default [] txt) e (Typewriter.mergeConfig o) 0
       Typewriter.Idle Typewriter.Fulfilled false None [])
  = Typewriter.mkRun (default [] txt) e (Typewriter.mergeConfig o) 0
      Typewriter.Idle Typewriter.Fulfilled false None [] ∧
  Typewriter.element
    (Typewriter.runCancellable evs
       (Typewriter.mkRun (default [] txt) e (Typewriter.mergeConfig o) 0
          Typewriter.Idle Typewriter.Fulfilled false None [])) = e ∧
  Typewriter.calls
    (Typewriter.runCancellable evs
       (Typewriter.mkRun (default [] txt) e (Typewriter.mergeConfig o) 0
          Typewriter.Idle Typewriter.Fulfilled false None [])) = [] ∧
  Typewriter.promise
    (Typewriter.runCancellable evs
       (Typewriter.mkRun (default [] txt) e (Typewriter.mergeConfig o) 0
          Typewriter.Idle Typewriter.Fulfilled false None []))
  = Typewriter.Fulfilled.
Proof.
  intros Hf.
  destruct (idle_run evs
              (Typewriter.mkRun (default [] txt) e (Typewriter.mergeConfig o) 0
                 Typewriter.Idle Typewriter.Fulfilled false None []) eq_refl)
    as (H1 & H2 & H3 & H4).
  unfold Typewriter.typeWriter, Typewriter.typeWriterCancellable.
  rewrite Hf. cbn [negb]. repeat apply conj; auto.
Qed.

Lemma falsy_text_resolves_untouched_witness :
  truthy (Some ([] : jsstring)) = false ∧
  Typewriter.element
    (Typewriter.runCancellable [Typewriter.Tick; Typewriter.StartElapsed]
       (Typewriter.mkRun [] (Dom.mkElement (lit "old") ∅ [] ∅ true)
          (Typewriter.mergeConfig (Typewriter.mkOptions None (Some 5%Z) true true))
          0 Typewriter.Idle Typewriter.Fulfilled false None []))
  = Dom.mkElement (lit "old") ∅ [] ∅ true.
Proof.
  split; [reflexivity|].
  destruct (falsy_text_resolves_untouched
              (Some []) (Dom.mkElement (lit "old") ∅ [] ∅ true)
              (Typewriter.mkOptions None (Some 5%Z) true true)
              [Typewriter.Tick; Typewriter.StartElapsed] eq_refl)
    as (_ & _ & _ & H & _).
  exact H.
Defined.

(** ** C9 *)

(** C9, as stated, fails for a width that no bar can have.  [width] is any
    number: with [width = 2.5] and a target of 0 the first render has no
    filled cell and [2.5 - 0] empty ones, which [repeat] truncates to two
    light cells, so the bar has 2 characters and not [width].  And a width
    above the engine's string limit makes [repeat] throw (here with V8's
    limit). *)
Lemma progress_bar_fractional_width_truncates :
  (0 <= 0)%Q ∧ (0 <= 100)%Q ∧ (0 <= 5 # 2)%Q ∧
  ProgressBar.filled (ProgressBar.currentPercent 0 0) (5 # 2) = Some 0%Z ∧
  ProgressBar.bar ProgressBar.v8StringLimit (ProgressBar.currentPercent 0 0) (5 # 2)
  = Some [9617%N; 9617%N] ∧
  ¬ (inject_Z (Z.of_nat (length [9617%N; 9617%N])) == 5 # 2)%Q ∧
  (0 <= inject_Z (ProgressBar.v8StringLimit + 1))%Q ∧
  ProgressBar.bar ProgressBar.v8StringLimit (ProgressBar.currentPercent 0 0)
    (inject_Z (ProgressBar.v8StringLimit + 1)) = None.
Proof.
  split; [vm_compute; discriminate|]. split; [vm_compute; discriminate|].
  split; [vm_compute; discriminate|]. split; [vm_compute; reflexivity|].
  split; [vm_compute; reflexivity|]. split; [vm_compute; discriminate|].
  split; [vm_compute; discriminate|]. vm_compute. reflexivity.
Qed.

(** C9, amended: for a target percentage between 0 and 100 and a width
    that is an integer between 0 and the engine's string limit (itself below
    [2 ^ 53]), the animated percent starts at 0 and stays between 0 and the
    target after any number of timeouts; the number of filled cells, computed
    in double arithmetic, lies between 0 and the width, the subtraction that
    gives the empty cells is exact, so that the two add up to the width, and
    the bar renders, without a RangeError, as exactly [width] characters:
    the filled cells followed by the empty ones. *)
Theorem progress_bar_within_target_and_width
    (limit : Z) (percentage : Q) (width : Z) (n : nat) :
  (0 <= percentage)%Q → (percentage <= 100)%Q →
  (0 <= width <= limit)%Z → (limit < 2 ^ 53)%Z →
  ProgressBar.currentPercent percentage 0 = 0%Q ∧
  (0 <= ProgressBar.currentPercent percentage n)%Q ∧
  (ProgressBar.currentPercent percentage n <= percentage)%Q ∧
  ∃ f e s,
    ProgressBar.filled (ProgressBar.currentPercent percentage n) (inject_Z width)
    = Some f ∧
    (0 <= f <= width)%Z ∧
    ProgressBar.empty (inject_Z width) f = Some e ∧
    (inject_Z f + e == inject_Z width)%Q ∧
    ProgressBar.bar limit (ProgressBar.currentPercent percentage n) (inject_Z width)
    = Some s ∧
    s = replicate (Z.to_nat f) 9608%N ++ replicate (Z.to_nat (width - f)) 9617%N ∧
    Z.of_nat (length s) = width.
Proof.
  intros H0 H100 Hw Hl.
  destruct (currentPercent_bounds percentage n H0) as [Hc0 Hc1].
  assert (Hc100 : (ProgressBar.currentPercent percentage n <= 100)%Q)
    by (eapply Qle_trans; eassumption).
  split; [reflexivity|]. split; [exact Hc0|]. split; [exact Hc1|].
  destruct (bar_width limit _ width Hc0 Hc100 Hw Hl)
    as (f & s & Ef & Hf & Eb & Es & Hlen).
  destruct (empty_exact width f Hf ltac:(lia)) as (e & Ee & He).
  exists f, e, s. repeat (split; [assumption|]).
  split; [|auto]. rewrite He, <- inject_Z_plus. apply inject_Z_injective. lia.
Qed.

Lemma progress_bar_within_target_and_width_witness :
  (0 <= 58)%Q ∧ (58 <= 100)%Q ∧ (0 <= 100 <= ProgressBar.v8StringLimit)%Z ∧
  (ProgressBar.v8StringLimit < 2 ^ 53)%Z ∧
  (ProgressBar.currentPercent 58 40 <= 58)%Q ∧
  ProgressBar.filled (ProgressBar.currentPercent 58 40) (inject_Z 100) = Some 57%Z.
Proof.
  assert (H0 : (0 <= 58)%Q) by (vm_compute; discriminate).
  assert (H1 : (58 <= 100)%Q) by (vm_compute; discriminate).
  assert (H2 : (0 <= 100 <= ProgressBar.v8StringLimit)%Z) by (vm_compute; split; discriminate).
  assert (H3 : (ProgressBar.v8StringLimit < 2 ^ 53)%Z) by reflexivity.
  split; [exact H0|]. split; [exact H1|]. split; [exact H2|]. split; [exact H3|].
  destruct (progress_bar_within_target_and_width ProgressBar.v8StringLimit
              58 100 40 H0 H1 H2 H3) as (_ & _ & H & _).
  split; [exact H|]. vm_compute. reflexivity.
Defined.

(** ** C10 *)

(** C10: [start()] on a running animator changes nothing, so no second
    cycle is created; and after [stop()], whatever happens except
    [start()], the animator stays stopped and [_scheduleNextGlitch]
    returns at once, so that the timeouts set to execute a glitch are
    always among those already pending when [stop()] returned: no new one
    is scheduled. *)
Theorem start_idempotent_and_stop_ends_scheduling
    (running : Glitch.State) (st : Glitch.State) (evs : list Glitch.Event) :
  Glitch.isRunning running.1 = true →
  forallb (λ ev, negb (Glitch.isStart ev)) evs = true →
  Glitch.start running = running ∧
  Glitch.isRunning (Glitch.run evs (Glitch.stop st)).1 = false ∧
  Glitch._scheduleNextGlitch (Glitch.run evs (Glitch.stop st))
    = Glitch.run evs (Glitch.stop st) ∧
  Glitch.scheduledGlitches (Glitch.run evs (Glitch.stop st)).2
    `sublist_of` Glitch.scheduledGlitches (Glitch.stop st).2.
Proof.
  intros Hrun Hevs.
  destruct (stop_fields st) as (Hstop & _).
  destruct (stopped_run evs Hevs _ Hstop) as [Hr Hs].
  repeat apply conj.
  - apply start_running, Hrun.
  - exact Hr.
  - apply scheduleNextGlitch_stopped, Hr.
  - exact Hs.
Qed.

Lemma start_idempotent_and_stop_ends_scheduling_witness :
  Glitch.isRunning
    (Glitch.start (Glitch.constructor "logo", Glitch.pageWith "logo")).1 = true ∧
  forallb (λ ev, negb (Glitch.isStart ev))
    [Glitch.Fire 2 Glitch.samplePattern; Glitch.Stop;
     Glitch.TriggerOnce Glitch.samplePattern] = true ∧
  Glitch.start (Glitch.start (Glitch.constructor "logo", Glitch.pageWith "logo"))
  = Glitch.start (Glitch.constructor "logo", Glitch.pageWith "logo").
Proof.
  split; [reflexivity|]. split; [reflexivity|].
  destruct (start_idempotent_and_stop_ends_scheduling
              (Glitch.start (Glitch.constructor "logo", Glitch.pageWith "logo"))
              (Glitch.run [Glitch.Start; Glitch.Fire 1 Glitch.samplePattern]
                 (Glitch.constructor "logo", Glitch.pageWith "logo"))
              [Glitch.Fire 2 Glitch.samplePattern; Glitch.Stop;
               Glitch.TriggerOnce Glitch.samplePattern]
              eq_refl eq_refl) as (H & _).
  exact H.
Defined.

(** * Further properties *)

(** ** typeWriter, typeWriterCancellable and instantText in full *)

Section TypedFacts.
Import Dom Typewriter Typed.

Lemma charAt_lookup (text : jsstring) i : charAt text i = text !! i.
Proof.
  unfold charAt. revert i. induction text as [|c text IH]; intros [|i]; simpl; auto.
Qed.

Lemma characterCalls_snoc text k c :
  text !! k = Some c →
  characterCalls (take (S k) text) = characterCalls (take k text) ++ [CharacterCall c k].
Proof.
  intros Hk. unfold characterCalls. rewrite (take_S_r _ _ _ Hk), imap_app.
  simpl. rewrite length_take, Nat.min_l, Nat.add_0_r; [reflexivity|].
  apply lookup_lt_Some in Hk. lia.
Qed.

Lemma elementAfter_next e text k c :
  text !! k = Some c →
  setAttribute "data-text"
    (textContent (elementAfter e text k) ++ [c])
    (setTextContent (textContent (elementAfter e text k) ++ [c]) (elementAfter e text k))
  = elementAfter e text (S k).
Proof.
  intros Hk. destruct e as [tc attrs cl st att]. destruct k as [|k].
  - unfold elementAfter. rewrite (take_S_r _ _ _ Hk). reflexivity.
  - unfold elementAfter. rewrite (take_S_r _ _ _ Hk), app_assoc.
    unfold setAttribute, setTextContent. cbn [textContent attributes
      classList style attached]. rewrite insert_insert_eq. reflexivity.
Qed.

Lemma tick_typing text e cfg k :
  (k < length text)%nat →
  tick (typing text e cfg k) = typing text e cfg (S k).
Proof.
  intros Hk. destruct (lookup_lt_is_Some_2 text k Hk) as [c Hc].
  unfold tick, typing, typeNext. cbn [phase index Typewriter.text element config calls
    promise cancelled intervalId].
  rewrite bool_decide_true by exact Hk.
  unfold appendIndexed. rewrite !charAt_lookup, Hc.
  cbn [textContent setTextContent]. rewrite (elementAfter_next e text k c Hc).
  f_equal. destruct (onCharacter cfg); [|reflexivity].
  symmetry. apply characterCalls_snoc, Hc.
Qed.

Lemma ticks_typing text e cfg k :
  (k ≤ length text)%nat →
  run (replicate k Tick) (typing text e cfg 0) = typing text e cfg k.
Proof.
  induction k as [|k IH]; intros Hk; [reflexivity|].
  replace (replicate (S k) Tick) with (replicate k Tick ++ [Tick])
    by (rewrite <- replicate_cons_app; reflexivity).
  unfold run in *. rewrite fold_left_app, IH by lia. simpl.
  apply tick_typing. lia.
Qed.

Lemma tick_finishes text e cfg :
  tick (typing text e cfg (length text)) = finished text e cfg.
Proof.
  unfold tick, typing, typeNext, finished. cbn [phase index Typewriter.text element config
    calls promise cancelled intervalId].
  rewrite bool_decide_false by lia. rewrite take_ge by lia. f_equal.
  destruct (onCharacter cfg), (onComplete cfg); rewrite ?app_nil_r; reflexivity.
Qed.

(** Without [cancel()], the cancellable variant runs like [typeWriter]. *)
Lemma runCancellable_uncancelled evs :
  Forall (λ ev, ev ≠ Cancel) evs →
  ∀ r, cancelled r = false →
  runCancellable evs r = run evs r ∧ cancelled (run evs r) = false.
Proof.
  induction 1 as [|ev evs Hev _ IH]; intros r Hc; [auto|].
  assert (Hstep : stepCancellable ev r = step ev r ∧ cancelled (step ev r) = false).
  { destruct ev; try congruence; simpl;
      unfold startElapsedCancellable, tickCancellable, tick, startElapsed, typeNext;
      rewrite ?Hc; destruct (phase r); try case_bool_decide; auto. }
  destruct Hstep as [Hs Hc']. simpl. rewrite Hs. apply IH, Hc'.
Qed.

Lemma finished_run text e cfg evs :
  run evs (finished text e cfg) = finished text e cfg.
Proof. apply idle_run. reflexivity. Qed.

Lemma elementAfter_textContent e text k :
  textContent (elementAfter e text k) = textContent e ++ take k text.
Proof. destruct k; simpl; [rewrite app_nil_r|]; reflexivity. Qed.

(** What is reachable from a call of [typeWriterCancellable]: while the
    interval is active its handle is set and [cancel()] has not been
    called, and the promise has not been rejected. *)
Lemma cancellable_invariant evs :
  ∀ r,
  (phase r = Typing → intervalId r = Some 1%nat ∧ cancelled r = false) →
  notRejected (promise r) = true →
  (phase (runCancellable evs r) = Typing →
   intervalId (runCancellable evs r) = Some 1%nat ∧
   cancelled (runCancellable evs r) = false) ∧
  notRejected (promise (runCancellable evs r)) = true.
Proof.
  induction evs as [|ev evs IH]; intros r Hty Hpr; [auto|].
  simpl. apply IH.
  - destruct ev; simpl;
      unfold startElapsedCancellable, startElapsed, tickCancellable, typeNext, cancel;
      destruct (phase r) eqn:Hp; try (destruct (Hty eq_refl) as [Hi Hc]);
      rewrite ?Hi, ?Hc; try tauto;
      try destruct (cancelled r); try case_bool_decide;
      try destruct (intervalId r) as [[|?]|];
      simpl; rewrite ?Hp; intros; try discriminate; auto.
  - destruct ev; simpl;
      unfold startElapsedCancellable, startElapsed, tickCancellable, typeNext, cancel;
      destruct (phase r) eqn:Hp; try (destruct (Hty eq_refl) as [Hi Hc]);
      rewrite ?Hi, ?Hc; auto;
      try destruct (cancelled r); try case_bool_decide; auto.
Qed.

(** After [cancel()] with no interval left running, nothing moves. *)
Lemma frozen_run evs :
  ∀ r, cancelled r = true → phase r ≠ Typing →
  promise (runCancellable evs r) = promise r ∧
  element (runCancellable evs r) = element r ∧
  calls (runCancellable evs r) = calls r.
Proof.
  induction evs as [|ev evs IH]; intros r Hc Hp; [auto|].
  assert (Hstep : cancelled (stepCancellable ev r) = true ∧
                  phase (stepCancellable ev r) ≠ Typing ∧
                  promise (stepCancellable ev r) = promise r ∧
                  element (stepCancellable ev r) = element r ∧
                  calls (stepCancellable ev r) = calls r).
  { destruct ev; simpl; unfold startElapsedCancellable, tickCancellable, cancel;
      rewrite ?Hc; destruct (phase r) eqn:Hph; try congruence;
      try destruct (intervalId r) as [[|?]|]; simpl; rewrite ?Hc, ?Hph;
      repeat split; auto; congruence. }
  destruct Hstep as (Hc' & Hp' & Hpr & He & Hca).
  destruct (IH _ Hc' Hp') as (H1 & H2 & H3). simpl.
  repeat split; congruence.
Qed.

Lemma typing_zero text e cfg :
  typing text e cfg 0 = mkRun text e cfg 0 Typing Pending false (Some 1%nat) [].
Proof. unfold typing. destruct (onCharacter cfg); reflexivity. Qed.

Lemma characterCalls_completions (l : jsstring) :
  filter (λ c, c = CompleteCall) (characterCalls l) = [].
Proof.
  unfold characterCalls.
  assert (H : ∀ (l : jsstring) n,
    filter (λ c, c = CompleteCall) (imap (λ i c, CharacterCall c (n + i)) l) = []).
  { clear. induction l as [|c l IH]; intros n; [reflexivity|].
    cbn [imap]. rewrite filter_cons, decide_False by discriminate.
    rewrite <- (IH (S n)). f_equal. apply imap_ext. intros; simpl. f_equal. lia. }
  apply (H l 0%nat).
Qed.

Lemma typing_completions text e cfg k : completions (typing text e cfg k) = 0%nat.
Proof.
  unfold completions, typing. cbn [calls].
  destruct (onCharacter cfg); [|reflexivity].
  rewrite characterCalls_completions. reflexivity.
Qed.

Lemma finished_completions text e cfg :
  completions (finished text e cfg) = if onComplete cfg then 1%nat else 0%nat.
Proof.
  unfold completions, finished. cbn [calls]. rewrite filter_app, length_app.
  destruct (onCharacter cfg); rewrite ?characterCalls_completions;
    destruct (onComplete cfg); reflexivity.
Qed.

(** Both functions, called with a non-empty text on an element, return
    the same pending run, which the start events bring to the first tick. *)
Lemma typeWriter_starts text e o :
  text ≠ [] →
  ∃ r0,
    typeWriter (Some text) (Some e) o = inr r0 ∧
    typeWriterCancellable (Some text) (Some e) o = inr r0 ∧
    cancelled r0 = false ∧
    run (startEvents (mergeConfig o)) r0 = typing text e (mergeConfig o) 0.
Proof.
  intros Hne.
  assert (Ht : truthy (Some text) = true) by (destruct text; [congruence|reflexivity]).
  unfold typeWriter, typeWriterCancellable, startEvents. rewrite Ht. cbn [negb default].
  destruct (0 <? startDelay (mergeConfig o))%Z; eexists;
    (split; [reflexivity|]); (split; [reflexivity|]); (split; [reflexivity|]);
    rewrite typing_zero; reflexivity.
Qed.

Lemma startEvents_no_cancel cfg : Forall (λ ev, ev ≠ Cancel) (startEvents cfg).
Proof. unfold startEvents. destruct (0 <? _)%Z; repeat constructor; discriminate. Qed.

End TypedFacts.

(** X1. [typeWriter] and, as long as [cancel()] is not called,
    [typeWriterCancellable] type a non-empty text one character per tick, in
    order: once the start delay (if any) has elapsed, after [k] ticks the
    element shows its former text followed by the first [k] characters,
    [data-text] mirrors it, [onCharacter] has been called once per character
    with its index, the promise is pending and [onComplete] has not been
    called. *)
Theorem typeWriter_types_prefix_in_order
    (text : jsstring) (e : Dom.Element) (o : Typewriter.Options) (k : nat) :
  text ≠ [] →
  (k ≤ length text)%nat →
  ∃ r0,
    Typewriter.typeWriter (Some text) (Some e) o = inr r0 ∧
    Typewriter.typeWriterCancellable (Some text) (Some e) o = inr r0 ∧
    Typewriter.run
      (Typed.startEvents (Typewriter.mergeConfig o) ++ replicate k Typewriter.Tick) r0
    = Typed.typing text e (Typewriter.mergeConfig o) k ∧
    Typewriter.runCancellable
      (Typed.startEvents (Typewriter.mergeConfig o) ++ replicate k Typewriter.Tick) r0
    = Typed.typing text e (Typewriter.mergeConfig o) k ∧
    Dom.textContent
      (Typewriter.element (Typed.typing text e (Typewriter.mergeConfig o) k))
    = Dom.textContent e ++ take k text ∧
    (if k is O then True
     else Dom.attributes
            (Typewriter.element (Typed.typing text e (Typewriter.mergeConfig o) k))
            !! "data-text"
          = Some (Dom.textContent e ++ take k text)) ∧
    Typewriter.completions (Typed.typing text e (Typewriter.mergeConfig o) k) = 0%nat.
Proof.
  intros Hne Hk.
  destruct (typeWriter_starts text e o Hne) as (r0 & H1 & H2 & Hc & Hs).
  assert (Hr : Typewriter.run
                 (Typed.startEvents (Typewriter.mergeConfig o)
                  ++ replicate k Typewriter.Tick) r0
               = Typed.typing text e (Typewriter.mergeConfig o) k).
  { unfold Typewriter.run in *. rewrite fold_left_app, Hs.
    apply ticks_typing, Hk. }
  exists r0. repeat apply conj; try assumption.
  - rewrite <- Hr. apply runCancellable_uncancelled; [|exact Hc].
    apply Forall_app. split; [apply startEvents_no_cancel|].
    apply Forall_replicate. discriminate.
  - apply elementAfter_textContent.
  - destruct k; [exact I | cbn; apply lookup_insert_eq].
  - apply typing_completions.
Qed.

Lemma typeWriter_types_prefix_in_order_witness :
  lit "hi" ≠ [] ∧ (1 ≤ length (lit "hi"))%nat ∧
  ∃ r0,
    Typewriter.typeWriter (Some (lit "hi")) (Some (Dom.mkElement (lit "> ") ∅ [] ∅ true))
      (Typewriter.mkOptions None (Some 100%Z) true true) = inr r0 ∧
    Dom.textContent
      (Typewriter.element
         (Typewriter.run [Typewriter.StartElapsed; Typewriter.Tick] r0))
    = lit "> h".
Proof.
  assert (H1 : lit "hi" ≠ []) by discriminate.
  assert (H2 : (1 ≤ length (lit "hi"))%nat) by (simpl; lia).
  split; [exact H1|]. split; [exact H2|].
  destruct (typeWriter_types_prefix_in_order (lit "hi")
              (Dom.mkElement (lit "> ") ∅ [] ∅ true)
              (Typewriter.mkOptions None (Some 100%Z) true true) 1 H1 H2)
    as (r0 & Hr0 & _ & Hrun & _ & Htc & _).
  exists r0. split; [exact Hr0|].
  change [Typewriter.StartElapsed; Typewriter.Tick]
    with (Typed.startEvents
            (Typewriter.mergeConfig (Typewriter.mkOptions None (Some 100%Z) true true))
          ++ replicate 1 Typewriter.Tick).
  rewrite Hrun. exact Htc.
Defined.

(** X2. One tick after the last character the run completes, once: the
    interval clears itself, [onComplete] is called exactly once when given
    (after all [onCharacter] calls), the promise is fulfilled, the element
    shows its former text followed by the whole text with [data-text] equal
    to it, and no later event changes anything. *)
Theorem typeWriter_completes_once
    (text : jsstring) (e : Dom.Element) (o : Typewriter.Options)
    (later : list Typewriter.Event) :
  text ≠ [] →
  ∃ r0,
    Typewriter.typeWriter (Some text) (Some e) o = inr r0 ∧
    Typewriter.run
      (Typed.startEvents (Typewriter.mergeConfig o)
       ++ replicate (S (length text)) Typewriter.Tick ++ later) r0
    = Typed.finished text e (Typewriter.mergeConfig o) ∧
    Typewriter.promise (Typed.finished text e (Typewriter.mergeConfig o))
    = Typewriter.Fulfilled ∧
    Typewriter.calls (Typed.finished text e (Typewriter.mergeConfig o))
    = (if Typewriter.onCharacter (Typewriter.mergeConfig o)
       then imap (λ i c, Typewriter.CharacterCall c i) text else [])
      ++ (if Typewriter.onComplete (Typewriter.mergeConfig o)
          then [Typewriter.CompleteCall] else []) ∧
    Typewriter.completions (Typed.finished text e (Typewriter.mergeConfig o))
    = (if Typewriter.onComplete (Typewriter.mergeConfig o) then 1 else 0)%nat ∧
    Dom.textContent
      (Typewriter.element (Typed.finished text e (Typewriter.mergeConfig o)))
    = Dom.textContent e ++ text ∧
    Dom.attributes
      (Typewriter.element (Typed.finished text e (Typewriter.mergeConfig o)))
      !! "data-text"
    = Some (Dom.textContent e ++ text).
Proof.
  intros Hne.
  destruct (typeWriter_starts text e o Hne) as (r0 & H1 & _ & _ & Hs).
  exists r0. repeat apply conj.
  - exact H1.
  - unfold Typewriter.run in *. rewrite fold_left_app, Hs.
    replace (replicate (S (length text)) Typewriter.Tick)
      with (replicate (length text) Typewriter.Tick ++ [Typewriter.Tick])
      by (rewrite <- replicate_cons_app; reflexivity).
    rewrite <- app_assoc, fold_left_app.
    pose proof (ticks_typing text e (Typewriter.mergeConfig o) (length text)
                  (Nat.le_refl _)) as Ht.
    unfold Typewriter.run in Ht. rewrite Ht.
    cbn [app fold_left Typewriter.step]. rewrite tick_finishes.
    apply finished_run.
  - reflexivity.
  - reflexivity.
  - apply finished_completions.
  - cbn [Typed.finished Typewriter.element]. rewrite elementAfter_textContent.
    rewrite take_ge by lia. reflexivity.
  - cbn [Typed.finished Typewriter.element].
    destruct text as [|c text]; [congruence|].
    cbn [length Typed.elementAfter]. rewrite take_ge by (simpl; lia).
    apply lookup_insert_eq.
Qed.

Lemma typeWriter_completes_once_witness :
  lit "hi" ≠ [] ∧
  Typewriter.completions
    (Typed.finished (lit "hi") (Dom.mkElement [] ∅ [] ∅ true)
       (Typewriter.mergeConfig (Typewriter.mkOptions None None true true))) = 1%nat.
Proof.
  assert (H1 : lit "hi" ≠ []) by discriminate.
  split; [exact H1|].
  destruct (typeWriter_completes_once (lit "hi") (Dom.mkElement [] ∅ [] ∅ true)
              (Typewriter.mkOptions None None true true) [] H1)
    as (r0 & _ & _ & _ & _ & H & _).
  exact H.
Defined.


(** X3. The promise of [typeWriterCancellable], called on an element, is
    never rejected: [cancel()] clears the interval (or disarms the pending
    start), so the callback that would reject with "Typewriter cancelled"
    never runs.  After [cancel()] nothing moves any more: the element keeps
    what was typed so far, no callback is called, and a promise that was
    pending stays pending for ever. *)
Theorem cancel_freezes_and_never_rejects
    (txt : option jsstring) (e : Dom.Element) (o : Typewriter.Options)
    (evs later : list Typewriter.Event) :
  ∃ r0,
    Typewriter.typeWriterCancellable txt (Some e) o = inr r0 ∧
    Typed.notRejected (Typewriter.promise (Typewriter.runCancellable evs r0)) = true ∧
    Typewriter.promise
      (Typewriter.runCancellable later
         (Typewriter.cancel (Typewriter.runCancellable evs r0)))
    = Typewriter.promise (Typewriter.runCancellable evs r0) ∧
    Typewriter.element
      (Typewriter.runCancellable later
         (Typewriter.cancel (Typewriter.runCancellable evs r0)))
    = Typewriter.element (Typewriter.runCancellable evs r0) ∧
    Typewriter.calls
      (Typewriter.runCancellable later
         (Typewriter.cancel (Typewriter.runCancellable evs r0)))
    = Typewriter.calls (Typewriter.runCancellable evs r0).
Proof.
  assert (Hinit : ∃ r0,
    Typewriter.typeWriterCancellable txt (Some e) o = inr r0 ∧
    (Typewriter.phase r0 = Typewriter.Typing →
     Typewriter.intervalId r0 = Some 1%nat ∧ Typewriter.cancelled r0 = false) ∧
    Typed.notRejected (Typewriter.promise r0) = true).
  { unfold Typewriter.typeWriterCancellable.
    destruct (negb (truthy txt)); [|destruct (0 <? _)%Z];
      eexists; (split; [reflexivity|]); simpl; split; auto; discriminate. }
  destruct Hinit as (r0 & Hr0 & Hty & Hpr). exists r0. split; [exact Hr0|].
  destruct (cancellable_invariant evs r0 Hty Hpr) as [Hty' Hpr'].
  split; [exact Hpr'|].
  set (r := Typewriter.runCancellable evs r0) in *.
  destruct (frozen_run later (Typewriter.cancel r)) as (H1 & H2 & H3).
  - reflexivity.
  - unfold Typewriter.cancel. cbn [Typewriter.phase].
    destruct (Typewriter.phase r) eqn:Hp; try (destruct (Typewriter.intervalId r)
      as [[|?]|]; discriminate).
    destruct (Hty' eq_refl) as [-> _]. discriminate.
  - rewrite H1, H2, H3. repeat split.
Qed.

(** X4. [instantText] replaces the content: whatever the element showed,
    it then shows exactly [text], with [data-text] equal to it, and a second
    call changes nothing.  [typeWriter] appends instead; so the two agree,
    for a non-empty text, exactly on an element that starts out empty. *)
Theorem instantText_replaces_typeWriter_appends
    (text : jsstring) (e : Dom.Element) (cfg : Typewriter.Config) :
  text ≠ [] →
  ∃ e',
    Typewriter.instantText text (Some e) = inr e' ∧
    Dom.textContent e' = text ∧
    Dom.attributes e' !! "data-text" = Some text ∧
    Typewriter.instantText text (Some e') = inr e' ∧
    (e' = Typewriter.element (Typed.finished text e cfg) ↔ Dom.textContent e = []).
Proof.
  intros Hne. unfold Typewriter.instantText. eexists. split; [reflexivity|].
  destruct e as [tc attrs cl st att].
  repeat apply conj.
  - reflexivity.
  - apply lookup_insert_eq.
  - unfold Dom.setAttribute, Dom.setTextContent. cbn. rewrite insert_insert_eq.
    reflexivity.
  - cbn [Typed.finished Typewriter.element]. destruct text as [|c text]; [congruence|].
    cbn [length Typed.elementAfter]. rewrite take_ge by (simpl; lia).
    unfold Dom.setAttribute, Dom.setTextContent. cbn. intros [= H _].
    apply (f_equal length) in H. rewrite length_app in H. simpl in H.
    destruct tc; [reflexivity | simpl in H; lia].
  - cbn [Dom.textContent]. intros ->.
    cbn [Typed.finished Typewriter.element]. destruct text as [|c text]; [congruence|].
    cbn [length Typed.elementAfter]. rewrite take_ge by (simpl; lia). reflexivity.
Qed.

Lemma instantText_replaces_typeWriter_appends_witness :
  lit "ok" ≠ [] ∧
  ∃ e', Typewriter.instantText (lit "ok") (Some (Dom.mkElement (lit "old") ∅ [] ∅ true))
        = inr e' ∧ Dom.textContent e' = lit "ok".
Proof.
  assert (H1 : lit "ok" ≠ []) by discriminate.
  split; [exact H1|].
  destruct (instantText_replaces_typeWriter_appends (lit "ok")
              (Dom.mkElement (lit "old") ∅ [] ∅ true)
              (Typewriter.mergeConfig (Typewriter.mkOptions None None false false)) H1)
    as (e' & He & Ht & _).
  exists e'. split; assumption.
Defined.

(** ** GlitchAnimator in full *)

Section GlitchCycleFacts.
Import Dom Glitch GlitchCycle.

Lemma applyGlitchPattern_frame e g :
  textContent (applyGlitchPattern e g) = textContent e ∧
  attributes (applyGlitchPattern e g) = attributes e ∧
  classList (applyGlitchPattern e g) = classList e ∧
  attached (applyGlitchPattern e g) = attached e.
Proof. destruct e. repeat split. Qed.

Lemma applyGlitchPattern_style e g name :
  style (applyGlitchPattern e g) !! name
  = if bool_decide (name = "--glitch-color-2") then Some (color2 g)
    else if bool_decide (name = "--glitch-color-1") then Some (color1 g)
    else if bool_decide (name = "--glitch-clip-after") then Some (clipAfter g)
    else if bool_decide (name = "--glitch-clip-before") then Some (clipBefore g)
    else if bool_decide (name = "--glitch-skew-speed") then Some (skewSpeed g)
    else if bool_decide (name = "--glitch-right-speed") then Some (rightSpeed g)
    else if bool_decide (name = "--glitch-left-speed") then Some (leftSpeed g)
    else style e !! name.
Proof.
  unfold applyGlitchPattern, setProperty. cbn [style].
  repeat match goal with
  | |- context [bool_decide (name = ?k)] =>
      destruct (decide (name = k)) as [->|?];
      [ rewrite bool_decide_true by reflexivity; apply lookup_insert_eq
      | rewrite (bool_decide_false (name = k)) by assumption;
        rewrite (lookup_insert_ne _ k name) by congruence ]
  end.
  reflexivity.
Qed.

Lemma applyGlitchPattern_twice e g1 g2 :
  applyGlitchPattern (applyGlitchPattern e g1) g2 = applyGlitchPattern e g2.
Proof.
  assert (Hst : style (applyGlitchPattern (applyGlitchPattern e g1) g2)
                = style (applyGlitchPattern e g2)).
  { apply map_eq. intros name. rewrite !applyGlitchPattern_style.
    repeat (case_bool_decide; [reflexivity|]).
    repeat (case_bool_decide; [congruence|]). reflexivity. }
  destruct (applyGlitchPattern_frame (applyGlitchPattern e g1) g2) as (H1 & H2 & H3 & H4).
  destruct (applyGlitchPattern_frame e g1) as (H1' & H2' & H3' & H4').
  destruct (applyGlitchPattern_frame e g2) as (H1'' & H2'' & H3'' & H4'').
  destruct (applyGlitchPattern (applyGlitchPattern e g1) g2),
           (applyGlitchPattern e g2).
  cbn [textContent attributes classList style attached] in *. congruence.
Qed.

Lemma getElementById_attached id e (d : gmap string Element) :
  d !! id = Some e → attached e = true → getElementById id d = Some e.
Proof. unfold getElementById. intros -> ->. reflexivity. Qed.

Lemma list_find_single (n : nat) (t : Task) :
  list_find (λ x : nat * Task, x.1 = n) [(n, t)] = Some (0%nat, (n, t)).
Proof. cbn. rewrite decide_True by reflexivity. reflexivity. Qed.

Lemma glitch_clearTimeout_single n t d m c :
  clearTimeout n (mkPage d [(n, t)] m c) = mkPage d [] m c.
Proof.
  unfold clearTimeout. cbn [timers document nextTimer glitches].
  rewrite filter_cons, decide_False by (simpl; auto). reflexivity.
Qed.

(** The timeout set by [_scheduleNextGlitch] fires on a page that holds
    the element: the pattern is applied, the class added, and the timeout
    that ends the glitch is the only one pending. *)
Lemma fire_execute id n d m c e g :
  d !! id = Some e → attached e = true →
  fireTimer n g (mkAnimator id true (Some n), mkPage d [(n, ExecuteGlitch)] m c)
  = (mkAnimator id true (Some n),
     mkPage (<[id := classAdd "glitch" (applyGlitchPattern e g)]> d)
            [(m, EndGlitch)] (S m) (S c)).
Proof.
  intros Hd Ha. unfold fireTimer. cbn [timers]. rewrite list_find_single.
  rewrite glitch_clearTimeout_single. unfold _executeGlitch.
  cbn [elementId document]. rewrite (getElementById_attached id e d Hd Ha).
  unfold glitchElement. cbn [document]. rewrite Hd. reflexivity.
Qed.

(** The timeout that ends a glitch fires on a running animator: the class
    is removed and the next glitch scheduled, its timeout being the only one
    pending. *)
Lemma fire_end id n t d m c e g :
  d !! id = Some e →
  fireTimer n g (mkAnimator id true t, mkPage d [(n, EndGlitch)] m c)
  = (mkAnimator id true (Some m),
     mkPage (<[id := classRemove "glitch" e]> d) [(m, ExecuteGlitch)] (S m) c).
Proof.
  intros Hd. unfold fireTimer. cbn [timers]. rewrite list_find_single.
  rewrite glitch_clearTimeout_single. unfold unglitchElement.
  cbn [elementId document]. rewrite Hd. reflexivity.
Qed.

Lemma cycle_run gs :
  ∀ id n d c e,
  d !! id = Some e → attached e = true →
  run (cycleEvents n gs)
    (mkAnimator id true (Some n), mkPage d [(n, ExecuteGlitch)] (S n) c)
  = (mkAnimator id true (Some (n + 2 * length gs)),
     mkPage (<[id := glitched e gs]> d) [(n + 2 * length gs, ExecuteGlitch)]
            (S (n + 2 * length gs)) (c + length gs)).
Proof.
  induction gs as [|g gs IH]; intros id n d c e Hd Ha.
  - cbn [cycleEvents run fold_left length glitched]. rewrite insert_id by exact Hd.
    rewrite Nat.mul_0_r, !Nat.add_0_r. reflexivity.
  - cbn [cycleEvents run fold_left step].
    rewrite (fire_execute id n d (S n) c e g Hd Ha).
    rewrite (fire_end id (S n) (Some n) _ (S (S n)) (S c)
               (classAdd "glitch" (applyGlitchPattern e g)) g)
      by apply lookup_insert_eq.
    rewrite insert_insert_eq.
    change (fold_left _ ?l ?s) with (run l s).
    rewrite (IH id (S (S n)) _ (S c)
               (classRemove "glitch" (classAdd "glitch" (applyGlitchPattern e g))))
      by (first [apply lookup_insert_eq | destruct e; exact Ha]).
    rewrite insert_insert_eq. cbn [length glitched fold_left].
    replace (n + 2 * S (length gs))%nat with (S (S n) + 2 * length gs)%nat by lia.
    replace (c + S (length gs))%nat with (S c + length gs)%nat by lia.
    reflexivity.
Qed.

Lemma glitched_frame gs :
  ∀ e, textContent (glitched e gs) = textContent e ∧
       attributes (glitched e gs) = attributes e ∧
       attached (glitched e gs) = attached e ∧
       (gs ≠ [] → "glitch" ∉ classList (glitched e gs)) ∧
       style (glitched e gs)
       = match last gs with
         | Some g => style (applyGlitchPattern e g)
         | None => style e
         end.
Proof.
  induction gs as [|g gs IH]; intros e; [repeat split; congruence|].
  unfold glitched. cbn [fold_left].
  change (fold_left _ gs ?x) with (glitched x gs).
  destruct (IH (classRemove "glitch" (classAdd "glitch" (applyGlitchPattern e g))))
    as (H1 & H2 & H3 & H4 & H5).
  rewrite H1, H2, H3, H5.
  destruct (applyGlitchPattern_frame e g) as (F1 & F2 & F3 & F4).
  repeat split; try (cbn; assumption).
  - intros _. destruct gs as [|g' gs]; [|apply H4; discriminate].
    cbn [glitched fold_left classRemove classList].
    intros Hin. apply list_elem_of_filter in Hin as [Hne _]. congruence.
  - destruct gs as [|g' gs]; [reflexivity|].
    change (last (g :: g' :: gs)) with (last (g' :: gs)).
    destruct (last (g' :: gs)) as [gl|] eqn:Hl.
    + transitivity (style (applyGlitchPattern (applyGlitchPattern e g) gl)).
      * reflexivity.
      * rewrite applyGlitchPattern_twice. reflexivity.
    + apply last_None in Hl. discriminate.
Qed.

End GlitchCycleFacts.

(** X5. [applyGlitchPattern] writes the seven glitch custom properties
    with the values of the pattern and touches nothing else: every other
    style property, the text, the attributes and the classes stay as they
    were.  A second pattern overwrites the first completely. *)
Theorem applyGlitchPattern_writes_seven_properties
    (e : Dom.Element) (g g' : Glitch.GlitchData) (other : string) :
  other ∉ GlitchCycle.glitchProperties →
  map (λ name, Dom.style (Glitch.applyGlitchPattern e g) !! name)
      GlitchCycle.glitchProperties
  = [Some (Glitch.leftSpeed g); Some (Glitch.rightSpeed g); Some (Glitch.skewSpeed g);
     Some (Glitch.clipBefore g); Some (Glitch.clipAfter g);
     Some (Glitch.color1 g); Some (Glitch.color2 g)] ∧
  Dom.style (Glitch.applyGlitchPattern e g) !! other = Dom.style e !! other ∧
  Dom.textContent (Glitch.applyGlitchPattern e g) = Dom.textContent e ∧
  Dom.attributes (Glitch.applyGlitchPattern e g) = Dom.attributes e ∧
  Dom.classList (Glitch.applyGlitchPattern e g) = Dom.classList e ∧
  Dom.attached (Glitch.applyGlitchPattern e g) = Dom.attached e ∧
  Glitch.applyGlitchPattern (Glitch.applyGlitchPattern e g) g'
  = Glitch.applyGlitchPattern e g'.
Proof.
  intros Hother.
  destruct (applyGlitchPattern_frame e g) as (F1 & F2 & F3 & F4).
  repeat apply conj; try assumption.
  - unfold GlitchCycle.glitchProperties. cbn [map].
    rewrite !applyGlitchPattern_style.
    repeat (rewrite (bool_decide_false (_ = _)) by discriminate).
    rewrite !bool_decide_true by reflexivity. reflexivity.
  - rewrite applyGlitchPattern_style.
    unfold GlitchCycle.glitchProperties in Hother.
    repeat (case_bool_decide;
            [exfalso; apply Hother; subst other; set_solver|]).
    reflexivity.
  - apply applyGlitchPattern_twice.
Qed.

Lemma applyGlitchPattern_writes_seven_properties_witness :
  ("color" ∉ GlitchCycle.glitchProperties) ∧
  Dom.style
    (Glitch.applyGlitchPattern
       (Dom.setProperty "color" "red" (Dom.mkElement [] ∅ [] ∅ true))
       Glitch.samplePattern) !! "color"
  = Dom.style (Dom.setProperty "color" "red" (Dom.mkElement [] ∅ [] ∅ true)) !! "color".
Proof.
  assert (H : "color" ∉ GlitchCycle.glitchProperties)
    by (unfold GlitchCycle.glitchProperties; intros Hin;
        repeat (apply elem_of_cons in Hin as [Hin|Hin]; [discriminate|]);
        inversion Hin).
  split; [exact H|].
  destruct (applyGlitchPattern_writes_seven_properties
              (Dom.setProperty "color" "red" (Dom.mkElement [] ∅ [] ∅ true))
              Glitch.samplePattern Glitch.samplePattern "color" H) as (_ & H2 & _).
  exact H2.
Defined.

Section GlitchRunFacts.
Import Dom Glitch GlitchCycle.

Lemma start_stopped_idle a d m c :
  isRunning a = false →
  start (a, mkPage d [] m c)
  = (mkAnimator (elementId a) true (Some m), mkPage d [(m, ExecuteGlitch)] (S m) c).
Proof. intros Hr. unfold start. rewrite Hr. reflexivity. Qed.

(** The timeout that would execute a glitch finds the element gone:
    the animator stops itself and nothing is left pending. *)
Lemma fire_execute_missing id n d m c g :
  getElementById id d = None →
  isRunning
    (fireTimer n g (mkAnimator id true (Some n), mkPage d [(n, ExecuteGlitch)] m c)).1
  = false ∧
  (fireTimer n g (mkAnimator id true (Some n), mkPage d [(n, ExecuteGlitch)] m c)).2
  = mkPage d [] m c.
Proof.
  intros Hd. unfold fireTimer. cbn [timers]. rewrite list_find_single.
  rewrite glitch_clearTimeout_single. unfold _executeGlitch.
  cbn [elementId document]. rewrite Hd. unfold stop. cbn [timeoutId].
  destruct n; split; reflexivity.
Qed.

Lemma detach_attached a d ts m c e :
  d !! elementId a = Some e →
  detachElement (a, mkPage d ts m c) = (a, mkPage (<[elementId a := remove e]> d) ts m c) ∧
  getElementById (elementId a) (<[elementId a := remove e]> d) = None.
Proof.
  intros Hd. unfold detachElement. cbn [document timers nextTimer glitches].
  rewrite Hd. split; [reflexivity|].
  unfold getElementById. rewrite lookup_insert_eq. reflexivity.
Qed.

Lemma list_find_last (ts : list (nat * Task)) n t :
  Forall (λ x, x.1 ≠ n) ts →
  list_find (λ x : nat * Task, x.1 = n) (ts ++ [(n, t)]) = Some (length ts, (n, t)) ∧
  filter (λ x : nat * Task, x.1 ≠ n) (ts ++ [(n, t)]) = ts.
Proof.
  induction 1 as [|x ts Hx _ [IH1 IH2]].
  - split.
    + cbn [app list_find]. rewrite decide_True by reflexivity. reflexivity.
    + cbn [app]. rewrite filter_cons, decide_False by (cbn; auto). reflexivity.
  - split.
    + cbn [app list_find length]. rewrite decide_False by exact Hx.
      rewrite IH1. reflexivity.
    + cbn [app]. rewrite filter_cons, decide_True by exact Hx.
      rewrite IH2. reflexivity.
Qed.

(** The cycle from [start()] on, as long as the element stays. *)
Lemma cycle_from_start a d m c e gs :
  isRunning a = false → d !! elementId a = Some e → attached e = true →
  run (Start :: cycleEvents m gs) (a, mkPage d [] m c)
  = (mkAnimator (elementId a) true (Some (m + 2 * length gs)%nat),
     mkPage (<[elementId a := glitched e gs]> d)
       [((m + 2 * length gs)%nat, ExecuteGlitch)]
       (S (m + 2 * length gs)) (c + length gs)).
Proof.
  intros Hr Hd Ha. cbn [run fold_left step].
  rewrite (start_stopped_idle a d m c Hr).
  apply (cycle_run gs (elementId a) m d c e Hd Ha).
Qed.

End GlitchRunFacts.

(** X6. A stopped animator that has no timeout pending, once started on a
    page that keeps its element, and not stopped, runs a single cycle: there
    is exactly one timeout pending at any time.  Between glitches it is the
    one that will execute the next glitch, recorded in [timeoutId], and the
    element does not carry the class [glitch]; during a glitch it is the one
    that ends it, and the element carries the class.  After [length gs]
    glitches, that many patterns have been applied, the last one being the
    one in the style.  (Started while the timeout that ends a glitch of an
    earlier run is still pending, the animator runs two cycles.) *)
Theorem glitch_cycle_one_timeout_at_a_time
    (a : Glitch.Animator) (p : Glitch.Page)
    (e : Dom.Element) (gs : list Glitch.GlitchData) (g : Glitch.GlitchData) :
  Glitch.isRunning a = false →
  Glitch.timers p = [] →
  Glitch.document p !! Glitch.elementId a = Some e →
  Dom.attached e = true →
  Glitch.run (Glitch.Start :: GlitchCycle.cycleEvents (Glitch.nextTimer p) gs)
    (a, p)
  = (Glitch.mkAnimator (Glitch.elementId a) true (Some (Glitch.nextTimer p + 2 * length gs)%nat),
     Glitch.mkPage (<[Glitch.elementId a := GlitchCycle.glitched e gs]> (Glitch.document p))
       [((Glitch.nextTimer p + 2 * length gs)%nat, Glitch.ExecuteGlitch)]
       (S (Glitch.nextTimer p + 2 * length gs)) (Glitch.glitches p + length gs)) ∧
  Glitch.run
    (Glitch.Start :: GlitchCycle.cycleEvents (Glitch.nextTimer p) gs
     ++ [Glitch.Fire (Glitch.nextTimer p + 2 * length gs) g])
    (a, p)
  = (Glitch.mkAnimator (Glitch.elementId a) true (Some (Glitch.nextTimer p + 2 * length gs)%nat),
     Glitch.mkPage
       (<[Glitch.elementId a :=
            Dom.classAdd "glitch"
              (Glitch.applyGlitchPattern (GlitchCycle.glitched e gs) g)]> (Glitch.document p))
       [(S (Glitch.nextTimer p + 2 * length gs), Glitch.EndGlitch)]
       (S (S (Glitch.nextTimer p + 2 * length gs))) (S (Glitch.glitches p + length gs))) ∧
  "glitch" ∈ Dom.classList
               (Dom.classAdd "glitch"
                  (Glitch.applyGlitchPattern (GlitchCycle.glitched e gs) g)) ∧
  (if gs is [] then True
   else "glitch" ∉ Dom.classList (GlitchCycle.glitched e gs)) ∧
  Dom.style (GlitchCycle.glitched e gs)
  = match last gs with
    | Some gl => Dom.style (Glitch.applyGlitchPattern e gl)
    | None => Dom.style e
    end.
Proof.
  destruct p as [d ts m c].
  cbn [Glitch.timers Glitch.document Glitch.nextTimer Glitch.glitches].
  intros Hr -> Hd Ha.
  pose proof (cycle_from_start a d m c e gs Hr Hd Ha) as Hrun.
  destruct (glitched_frame gs e) as (_ & _ & Hat & Hcl & Hst).
  repeat apply conj.
  - exact Hrun.
  - change (Glitch.Start :: GlitchCycle.cycleEvents m gs
            ++ [Glitch.Fire (m + 2 * length gs) g])
      with ((Glitch.Start :: GlitchCycle.cycleEvents m gs)
            ++ [Glitch.Fire (m + 2 * length gs) g]).
    unfold Glitch.run in *. rewrite fold_left_app, Hrun.
    cbn [fold_left Glitch.step].
    rewrite (fire_execute (Glitch.elementId a) (m + 2 * length gs) _
               (S (m + 2 * length gs)) (c + length gs)
               (GlitchCycle.glitched e gs) g)
      by (first [apply lookup_insert_eq | congruence]).
    rewrite insert_insert_eq. reflexivity.
  - unfold Dom.classAdd. cbn [Dom.classList]. case_bool_decide; [assumption|].
    apply elem_of_app. right. apply list_elem_of_here.
  - destruct gs; [exact I | apply Hcl; discriminate].
  - exact Hst.
Qed.

Lemma glitch_cycle_one_timeout_at_a_time_witness :
  Glitch.isRunning (Glitch.constructor "logo") = false ∧
  Glitch.timers (Glitch.pageWith "logo") = [] ∧
  Glitch.document (Glitch.pageWith "logo")
    !! Glitch.elementId (Glitch.constructor "logo")
  = Some (Dom.mkElement [] ∅ [] ∅ true) ∧
  Dom.attached (Dom.mkElement [] ∅ [] ∅ true) = true ∧
  Glitch.timers
    (Glitch.run
       (Glitch.Start
        :: GlitchCycle.cycleEvents 1 [Glitch.samplePattern; Glitch.samplePattern])
       (Glitch.constructor "logo", Glitch.pageWith "logo")).2
  = [(5%nat, Glitch.ExecuteGlitch)].
Proof.
  assert (Hd : Glitch.document (Glitch.pageWith "logo")
                 !! Glitch.elementId (Glitch.constructor "logo")
               = Some (Dom.mkElement [] ∅ [] ∅ true)) by reflexivity.
  split; [reflexivity|]. split; [reflexivity|]. split; [exact Hd|].
  split; [reflexivity|].
  destruct (glitch_cycle_one_timeout_at_a_time (Glitch.constructor "logo")
              (Glitch.pageWith "logo") (Dom.mkElement [] ∅ [] ∅ true)
              [Glitch.samplePattern; Glitch.samplePattern] Glitch.samplePattern
              eq_refl eq_refl Hd eq_refl) as (H & _).
  change (Glitch.nextTimer (Glitch.pageWith "logo")) with 1%nat in H.
  rewrite H. reflexivity.
Defined.

(** X7. When the element leaves the page, the cycle of an animator that
    was started with no timeout pending ends by itself: the next timeout
    that would execute a glitch finds no element, calls [stop()], and leaves
    the animator stopped with no timeout pending and no further pattern
    applied.  This holds whether the element goes between two glitches or
    during one (the pending timeout then still removes the class from the
    detached element and schedules one last timeout, which stops the
    animator). *)
Theorem glitch_cycle_ends_when_element_removed
    (a : Glitch.Animator) (p : Glitch.Page)
    (e : Dom.Element) (gs : list Glitch.GlitchData) (g g' g'' : Glitch.GlitchData) :
  Glitch.isRunning a = false →
  Glitch.timers p = [] →
  Glitch.document p !! Glitch.elementId a = Some e →
  Dom.attached e = true →
  (Glitch.isRunning
     (Glitch.run
        (Glitch.Start :: GlitchCycle.cycleEvents (Glitch.nextTimer p) gs
         ++ [Glitch.Detach; Glitch.Fire (Glitch.nextTimer p + 2 * length gs) g])
        (a, p)).1 = false ∧
   Glitch.timers
     (Glitch.run
        (Glitch.Start :: GlitchCycle.cycleEvents (Glitch.nextTimer p) gs
         ++ [Glitch.Detach; Glitch.Fire (Glitch.nextTimer p + 2 * length gs) g])
        (a, p)).2 = [] ∧
   Glitch.glitches
     (Glitch.run
        (Glitch.Start :: GlitchCycle.cycleEvents (Glitch.nextTimer p) gs
         ++ [Glitch.Detach; Glitch.Fire (Glitch.nextTimer p + 2 * length gs) g])
        (a, p)).2 = (Glitch.glitches p + length gs)%nat) ∧
  (Glitch.isRunning
     (Glitch.run
        (Glitch.Start :: GlitchCycle.cycleEvents (Glitch.nextTimer p) gs
         ++ [Glitch.Fire (Glitch.nextTimer p + 2 * length gs) g; Glitch.Detach;
             Glitch.Fire (S (Glitch.nextTimer p + 2 * length gs)) g';
             Glitch.Fire (S (S (Glitch.nextTimer p + 2 * length gs))) g''])
        (a, p)).1 = false ∧
   Glitch.timers
     (Glitch.run
        (Glitch.Start :: GlitchCycle.cycleEvents (Glitch.nextTimer p) gs
         ++ [Glitch.Fire (Glitch.nextTimer p + 2 * length gs) g; Glitch.Detach;
             Glitch.Fire (S (Glitch.nextTimer p + 2 * length gs)) g';
             Glitch.Fire (S (S (Glitch.nextTimer p + 2 * length gs))) g''])
        (a, p)).2 = [] ∧
   Glitch.glitches
     (Glitch.run
        (Glitch.Start :: GlitchCycle.cycleEvents (Glitch.nextTimer p) gs
         ++ [Glitch.Fire (Glitch.nextTimer p + 2 * length gs) g; Glitch.Detach;
             Glitch.Fire (S (Glitch.nextTimer p + 2 * length gs)) g';
             Glitch.Fire (S (S (Glitch.nextTimer p + 2 * length gs))) g''])
        (a, p)).2 = S (Glitch.glitches p + length gs)).
Proof.
  destruct p as [d ts m c].
  cbn [Glitch.timers Glitch.document Glitch.nextTimer Glitch.glitches].
  intros Hr -> Hd Ha.
  pose proof (cycle_from_start a d m c e gs Hr Hd Ha) as Hrun.
  destruct (glitched_frame gs e) as (_ & _ & Hat & _).
  split.
  - change (Glitch.Start :: GlitchCycle.cycleEvents m gs
            ++ [Glitch.Detach; Glitch.Fire (m + 2 * length gs) g])
      with ((Glitch.Start :: GlitchCycle.cycleEvents m gs)
            ++ [Glitch.Detach; Glitch.Fire (m + 2 * length gs) g]).
    unfold Glitch.run in *. rewrite fold_left_app, Hrun.
    cbn [fold_left Glitch.step].
    destruct (detach_attached
                (Glitch.mkAnimator (Glitch.elementId a) true
                   (Some (m + 2 * length gs)%nat))
                (<[Glitch.elementId a := GlitchCycle.glitched e gs]> d)
                [((m + 2 * length gs)%nat, Glitch.ExecuteGlitch)]
                (S (m + 2 * length gs)) (c + length gs)
                (GlitchCycle.glitched e gs)) as [Hdet Hgone];
      [apply lookup_insert_eq|].
    cbn [Glitch.elementId] in Hdet, Hgone. rewrite Hdet.
    destruct (fire_execute_missing (Glitch.elementId a) (m + 2 * length gs) _
                (S (m + 2 * length gs)) (c + length gs) g Hgone) as [H1 H2].
    rewrite H1, H2. repeat split.
  - change (Glitch.Start :: GlitchCycle.cycleEvents m gs
            ++ [Glitch.Fire (m + 2 * length gs) g; Glitch.Detach;
                Glitch.Fire (S (m + 2 * length gs)) g';
                Glitch.Fire (S (S (m + 2 * length gs))) g''])
      with ((Glitch.Start :: GlitchCycle.cycleEvents m gs)
            ++ [Glitch.Fire (m + 2 * length gs) g; Glitch.Detach;
                Glitch.Fire (S (m + 2 * length gs)) g';
                Glitch.Fire (S (S (m + 2 * length gs))) g'']).
    unfold Glitch.run in *. rewrite fold_left_app, Hrun.
    cbn [fold_left Glitch.step].
    rewrite (fire_execute (Glitch.elementId a) (m + 2 * length gs) _
               (S (m + 2 * length gs)) (c + length gs)
               (GlitchCycle.glitched e gs) g)
      by (first [apply lookup_insert_eq | congruence]).
    rewrite insert_insert_eq.
    match goal with |- context [Glitch.detachElement (?x, Glitch.mkPage ?dd ?ts ?mm ?cc)] =>
      destruct (detach_attached x dd ts mm cc
                  (Dom.classAdd "glitch"
                     (Glitch.applyGlitchPattern (GlitchCycle.glitched e gs) g)))
        as [Hdet Hgone]; [apply lookup_insert_eq|]
    end.
    cbn [Glitch.elementId] in Hdet, Hgone. rewrite Hdet. rewrite insert_insert_eq in *.
    rewrite (fire_end (Glitch.elementId a) (S (m + 2 * length gs)) _ _
               (S (S (m + 2 * length gs))) (S (c + length gs))
               (Dom.remove (Dom.classAdd "glitch"
                  (Glitch.applyGlitchPattern (GlitchCycle.glitched e gs) g))) g')
      by apply lookup_insert_eq.
    rewrite insert_insert_eq.
    match goal with |- context [Glitch.fireTimer ?n ?gg (_, Glitch.mkPage ?dd _ ?mm ?cc)] =>
      destruct (fire_execute_missing (Glitch.elementId a) n dd mm cc gg) as [H1 H2]
    end.
    { unfold Dom.getElementById. rewrite lookup_insert_eq. reflexivity. }
    rewrite H1, H2. repeat split.
Qed.

Lemma glitch_cycle_ends_when_element_removed_witness :
  Glitch.isRunning (Glitch.constructor "logo") = false ∧
  Glitch.timers (Glitch.pageWith "logo") = [] ∧
  Glitch.document (Glitch.pageWith "logo")
    !! Glitch.elementId (Glitch.constructor "logo")
  = Some (Dom.mkElement [] ∅ [] ∅ true) ∧
  Dom.attached (Dom.mkElement [] ∅ [] ∅ true) = true ∧
  Glitch.timers
    (Glitch.run
       (Glitch.Start :: GlitchCycle.cycleEvents 1 [Glitch.samplePattern]
        ++ [Glitch.Detach; Glitch.Fire (1 + 2 * 1) Glitch.samplePattern])
       (Glitch.constructor "logo", Glitch.pageWith "logo")).2
  = [].
Proof.
  assert (Hd : Glitch.document (Glitch.pageWith "logo")
                 !! Glitch.elementId (Glitch.constructor "logo")
               = Some (Dom.mkElement [] ∅ [] ∅ true)) by reflexivity.
  split; [reflexivity|]. split; [reflexivity|]. split; [exact Hd|].
  split; [reflexivity|].
  destruct (glitch_cycle_ends_when_element_removed (Glitch.constructor "logo")
              (Glitch.pageWith "logo") (Dom.mkElement [] ∅ [] ∅ true)
              [Glitch.samplePattern] Glitch.samplePattern Glitch.samplePattern
              Glitch.samplePattern eq_refl eq_refl Hd eq_refl)
    as ((_ & H & _) & _).
  exact H.
Defined.

(** X8. [triggerOnce] (and the helper [triggerGlitch], which calls it on a
    fresh animator) is independent of the cycle.  With the element in the
    page it applies the drawn pattern, adds the class [glitch] and leaves one
    new timeout behind; the animator's fields and the timeouts already
    pending are untouched, and so they are again once the new timeout has
    fired, which removes the class.  With no element in the page it changes
    nothing and sets no timeout. *)
Theorem triggerOnce_independent_of_cycle
    (a : Glitch.Animator) (p : Glitch.Page) (g g' : Glitch.GlitchData) :
  Forall (λ x, x.1 < Glitch.nextTimer p)%nat (Glitch.timers p) →
  match Dom.getElementById (Glitch.elementId a) (Glitch.document p) with
  | None =>
      Glitch.triggerOnce g (a, p) = (a, p) ∧
      GlitchCycle.triggerGlitch (Glitch.elementId a) g p = p
  | Some e =>
      Glitch.triggerOnce g (a, p)
      = (a, Glitch.mkPage
              (<[Glitch.elementId a :=
                   Dom.classAdd "glitch" (Glitch.applyGlitchPattern e g)]>
                 (Glitch.document p))
              (Glitch.timers p ++ [(Glitch.nextTimer p, Glitch.EndOnce)])
              (S (Glitch.nextTimer p)) (S (Glitch.glitches p))) ∧
      Glitch.fireTimer (Glitch.nextTimer p) g' (Glitch.triggerOnce g (a, p))
      = (a, Glitch.mkPage
              (<[Glitch.elementId a :=
                   Dom.classRemove "glitch"
                     (Dom.classAdd "glitch" (Glitch.applyGlitchPattern e g))]>
                 (Glitch.document p))
              (Glitch.timers p) (S (Glitch.nextTimer p)) (S (Glitch.glitches p))) ∧
      ("glitch" ∉ Dom.classList
                    (Dom.classRemove "glitch"
                       (Dom.classAdd "glitch" (Glitch.applyGlitchPattern e g)))) ∧
      GlitchCycle.triggerGlitch (Glitch.elementId a) g p
      = (Glitch.triggerOnce g (a, p)).2
  end.
Proof.
  intros Hfresh. destruct p as [d ts m c]. cbn [Glitch.document Glitch.timers
    Glitch.nextTimer Glitch.glitches] in *.
  assert (Hne : Forall (λ x : nat * Glitch.Task, x.1 ≠ m) ts).
  { eapply Forall_impl; [exact Hfresh|]. intros x Hx. cbn in Hx. lia. }
  unfold GlitchCycle.triggerGlitch, Glitch.triggerOnce, Glitch.constructor.
  cbn [Glitch.elementId Glitch.document].
  destruct (Dom.getElementById (Glitch.elementId a) d) as [e|] eqn:Hget;
    [|split; reflexivity].
  assert (Hd : d !! Glitch.elementId a = Some e).
  { unfold Dom.getElementById in Hget.
    destruct (d !! Glitch.elementId a) as [e'|]; [|discriminate].
    destruct (Dom.attached e'); congruence. }
  unfold Glitch.glitchElement, Glitch.setTimeout.
  cbn [Glitch.document Glitch.timers Glitch.nextTimer Glitch.glitches snd].
  rewrite Hd.
  cbn [Glitch.document Glitch.timers Glitch.nextTimer Glitch.glitches snd].
  destruct (list_find_last ts m Glitch.EndOnce Hne) as [Hfind Hfilter].
  repeat apply conj.
  - reflexivity.
  - unfold Glitch.fireTimer. cbn [Glitch.timers]. rewrite Hfind.
    unfold Glitch.clearTimeout. cbn [Glitch.timers Glitch.document
      Glitch.nextTimer Glitch.glitches]. rewrite Hfilter.
    unfold Glitch.unglitchElement. cbn [Glitch.document Glitch.elementId
      Glitch.timers Glitch.nextTimer Glitch.glitches].
    rewrite lookup_insert_eq, insert_insert_eq. reflexivity.
  - unfold Dom.classRemove. cbn [Dom.classList]. intros Hin.
    apply list_elem_of_filter in Hin. destruct Hin as [Hin _]. congruence.
  - reflexivity.
Qed.

Lemma triggerOnce_independent_of_cycle_witness :
  Forall (λ x, x.1 < Glitch.nextTimer (Glitch.pageWith "logo"))%nat
    (Glitch.timers (Glitch.pageWith "logo")) ∧
  Glitch.timers
    (Glitch.triggerOnce Glitch.samplePattern
       (Glitch.constructor "logo", Glitch.pageWith "logo")).2
  = [(1%nat, Glitch.EndOnce)].
Proof.
  assert (Hf : Forall (λ x : nat * Glitch.Task,
                         x.1 < Glitch.nextTimer (Glitch.pageWith "logo"))%nat
                 (Glitch.timers (Glitch.pageWith "logo"))) by constructor.
  split; [exact Hf|].
  pose proof (triggerOnce_independent_of_cycle (Glitch.constructor "logo")
                (Glitch.pageWith "logo") Glitch.samplePattern
                Glitch.samplePattern Hf) as H.
  change (Dom.getElementById (Glitch.elementId (Glitch.constructor "logo"))
            (Glitch.document (Glitch.pageWith "logo")))
    with (Some (Dom.mkElement [] ∅ [] ∅ true)) in H.
  destruct H as (H & _). rewrite H. reflexivity.
Defined.

Section IntroLifeFacts.
Import Dom Intro IntroLife.

Lemma lifeInv_fields c0 p0 st st' :
  config st'.1 = config st.1 → isSkipped st'.1 = isSkipped st.1 →
  isComplete st'.1 = isComplete st.1 → fired st'.2 = fired st.2 →
  session st'.2 = session st.2 →
  lifeInv c0 p0 st → lifeInv c0 p0 st'.
Proof.
  intros H1 H2 H3 H4 H5 (I1 & I2 & I3 & I4).
  unfold lifeInv, expectedCallbacks, expectedSession in *.
  rewrite H1, H2, H3, H4, H5. auto.
Qed.

Lemma lifeInv_skip c0 p0 st : lifeInv c0 p0 st → lifeInv c0 p0 (skip st).
Proof.
  intros Hinv. destruct (isSkipped st.1 || isComplete st.1) eqn:Hstop.
  - destruct st as [c p]. unfold skip. cbn [fst] in Hstop. rewrite Hstop. exact Hinv.
  - apply orb_false_iff in Hstop as [Hs Hc]. destruct st as [c p].
    cbn [fst] in Hs, Hc.
    destruct (skip_running_intro c p Hs Hc) as (S1 & S2 & S3 & _).
    destruct (skip_fields (c, p)) as (S4 & _ & S5 & _).
    destruct Hinv as (I1 & I2 & I3 & I4). cbn [fst snd] in *.
    unfold lifeInv, expectedCallbacks, expectedSession in *.
    rewrite S1, S2, S3, S4, S5, I3, I4, Hs, Hc, app_nil_r. cbn [andb]. auto.
Qed.

Lemma lifeInv_complete c0 p0 st : lifeInv c0 p0 st → lifeInv c0 p0 (complete st).
Proof.
  intros Hinv. destruct (isSkipped st.1 || isComplete st.1) eqn:Hstop.
  - rewrite complete_stopped by exact Hstop. exact Hinv.
  - apply orb_false_iff in Hstop as [Hs Hc].
    destruct (complete_running st Hs Hc) as (S1 & S2 & S3 & S4).
    assert (S5 : config (complete st).1 = config st.1).
    { destruct st as [c p]. unfold complete. cbn [fst] in Hs, Hc.
      rewrite Hs, Hc. cbn [orb].
      match goal with |- context [_hideIntro ?s] =>
        destruct (hideIntro_fields s) as (_ & _ & -> & _) end. reflexivity. }
    destruct Hinv as (I1 & I2 & I3 & I4).
    unfold lifeInv, expectedCallbacks, expectedSession in *.
    rewrite S1, S2, S3, S4, S5, I3, I4, Hs, Hc, app_nil_r. auto.
Qed.

Lemma dispatch_invariant (P : State → Prop) ty :
  (∀ st, P st → P (skip st)) → ∀ st, P st → P (dispatch ty st).
Proof.
  intros Hskip st. unfold dispatch.
  generalize (filter (λ l : EventType * nat, l.1 = ty) (listeners st.2)).
  intros ls. revert st. induction ls as [|l ls IH]; intros st Hst; cbn [fold_left].
  - exact Hst.
  - apply IH. destruct (bool_decide _); auto.
Qed.

Lemma lifeInv_step c0 p0 ev st : lifeInv c0 p0 st → lifeInv c0 p0 (step ev st).
Proof.
  intros Hinv. destruct ev; cbn [step].
  - destruct (init_fields st) as (H1 & H2 & H3 & H4 & H5).
    apply (lifeInv_fields c0 p0 st); auto.
  - apply lifeInv_skip, Hinv.
  - apply lifeInv_complete, Hinv.
  - destruct (destroy_fields st) as (H1 & H2 & H4 & H5).
    apply (lifeInv_fields c0 p0 st); auto. destruct st as [c p]. reflexivity.
  - apply (dispatch_invariant (lifeInv c0 p0)); [apply lifeInv_skip | exact Hinv].
  - destruct (fadeOutElapsed_fields timer st) as (H1 & H4 & H5).
    apply (lifeInv_fields c0 p0 st); auto; rewrite H1; reflexivity.
Qed.

Lemma lifeInv_run c0 p0 evs : ∀ st, lifeInv c0 p0 st → lifeInv c0 p0 (run evs st).
Proof.
  induction evs as [|ev evs IH]; intros st Hst; [exact Hst|].
  apply IH, lifeInv_step, Hst.
Qed.

(** What [_hideIntro] does when the controller holds its element. *)
Lemma hideIntro_eq c p id e :
  introElement c = Some id → document p !! id = Some e →
  _hideIntro (c, p)
  = (mkController (config c) (Some id) (isSkipped c) (isComplete c) [],
     mkPage (<[id := classAdd "hidden" e]> (document p)) (session p)
            (navigationEntries p)
            (filter (λ l, l ∉ skipHandlers c) (listeners p)) (nextHandler p)
            (removalTimers p ++ [nextTimer p]) (S (nextTimer p))
            (warnings p) (fired p)).
Proof.
  intros Hi Hd. unfold _hideIntro. rewrite Hi, Hd. unfold _removeHandlers.
  cbn. rewrite Hi. reflexivity.
Qed.

End IntroLifeFacts.

(** X9. Whatever is done with a controller after its creation, it is
    never both skipped and complete; the callbacks invoked so far are read
    off its two flags (at most one callback, once: [onSkip] if it was
    skipped, [onComplete] if it completed, each only when supplied); and the
    session storage is the one the page started with unless the intro
    completed, in which case exactly one item has been written. *)
Theorem intro_flags_determine_callbacks_and_storage
    (o : Intro.Options) (p : Intro.Page) (evs : list Intro.Event) :
  Intro.config (Intro.run evs (Intro.created o, p)).1 = Intro.mergeConfig o ∧
  Intro.isSkipped (Intro.run evs (Intro.created o, p)).1
  && Intro.isComplete (Intro.run evs (Intro.created o, p)).1 = false ∧
  Intro.fired (Intro.run evs (Intro.created o, p)).2
  = Intro.fired p
    ++ IntroLife.expectedCallbacks (Intro.run evs (Intro.created o, p)).1 ∧
  Intro.session (Intro.run evs (Intro.created o, p)).2
  = IntroLife.expectedSession (Intro.run evs (Intro.created o, p)).1
      (Intro.session p) ∧
  (length (IntroLife.expectedCallbacks (Intro.run evs (Intro.created o, p)).1)
   ≤ 1)%nat ∧
  Session.writesTo (Intro.storageKey (Intro.mergeConfig o))
    (Intro.session (Intro.run evs (Intro.created o, p)).2)
  = (Session.writesTo (Intro.storageKey (Intro.mergeConfig o)) (Intro.session p)
     + (if Intro.isComplete (Intro.run evs (Intro.created o, p)).1 then 1 else 0))%nat.
Proof.
  assert (H0 : IntroLife.lifeInv (Intro.created o) p (Intro.created o, p)).
  { unfold IntroLife.lifeInv, IntroLife.expectedCallbacks,
      IntroLife.expectedSession.
    cbn. rewrite app_nil_r. auto. }
  destruct (lifeInv_run (Intro.created o) p evs _ H0) as (I1 & I2 & I3 & I4).
  split; [exact I1|]. split; [exact I2|]. split; [exact I3|]. split; [exact I4|].
  split.
  - unfold IntroLife.expectedCallbacks.
    destruct (Intro.isSkipped (Intro.run evs (Intro.created o, p)).1),
      (Intro.isComplete (Intro.run evs (Intro.created o, p)).1),
      (Intro.onSkip (Intro.config (Intro.run evs (Intro.created o, p)).1)),
      (Intro.onComplete (Intro.config (Intro.run evs (Intro.created o, p)).1));
      cbn; lia.
  - rewrite I4. unfold IntroLife.expectedSession. rewrite I1.
    cbn [Intro.created Intro.config].
    destruct (Intro.isComplete (Intro.run evs (Intro.created o, p)).1); [|lia].
    rewrite writesTo_setItem. lia.
Qed.

Section IntroHandlerFacts.
Import Dom Intro IntroLife.

(** The state [init] leaves when it returns [true]. *)
Lemma init_shown_eq c p :
  (init (c, p)).1 = true →
  ∃ id e, introId (config c) = Some id ∧ document p !! id = Some e ∧
          attached e = true ∧
          (init (c, p)).2
          = (mkController (config c) (Some id) (isSkipped c) (isComplete c)
               (skipHandlers c ++ addedHandlers (config c) (nextHandler p)),
             mkPage (document p) (session p) (navigationEntries p)
               (listeners p ++ addedHandlers (config c) (nextHandler p))
               (nextHandler p + length (addedHandlers (config c) (nextHandler p)))
               (removalTimers p) (nextTimer p) (warnings p) (fired p)).
Proof.
  unfold init.
  destruct (introId (config c)) as [id|]; cbn [mbind option_bind]; [|discriminate].
  destruct (getElementById id (document p)) as [e|] eqn:He;
    cbn [mbind option_bind]; [|discriminate].
  cbn [config setIntroElement].
  destruct (if showOnRefresh (config c) then _ else _); cbn [negb]; [|discriminate].
  intros _. exists id, e.
  unfold getElementById in He.
  destruct (document p !! id) as [e'|]; [|discriminate].
  destruct (attached e') eqn:Ha; [|discriminate].
  injection He as ->. do 3 (split; [congruence|]).
  unfold addedHandlers, _attachKeyHandler, _attachClickHandler, _attachHandler.
  destruct p as [d s nav ls h rt nt w f]. destruct c as [cfg ie sk co hs].
  cbn [config skipHandlers isSkipped isComplete introElement document session
       navigationEntries listeners nextHandler removalTimers nextTimer warnings
       fired snd].
  destruct (skipOnKey cfg), (skipOnClick cfg);
    cbn [config skipHandlers isSkipped isComplete introElement document session
         navigationEntries listeners nextHandler removalTimers nextTimer warnings
         fired snd app length];
    rewrite <- ?app_assoc, ?app_nil_r; cbn [app];
    repeat f_equal; lia.
Qed.

Lemma addedHandlers_fresh cfg h (ls : list (EventType * nat)) :
  Forall (λ l, l.2 < h)%nat ls →
  filter (λ l, l ∉ addedHandlers cfg h) (ls ++ addedHandlers cfg h) = ls.
Proof.
  intros Hls. rewrite filter_app.
  assert (H1 : filter (λ l, l ∉ addedHandlers cfg h) ls = ls).
  { induction Hls as [|l ls Hl _ IH]; [reflexivity|].
    rewrite filter_cons, decide_True, IH; [reflexivity|].
    intros Hin. unfold addedHandlers in Hin.
    destruct (skipOnKey cfg), (skipOnClick cfg); cbn in Hin;
      repeat (apply elem_of_cons in Hin as [->|Hin]; [cbn in Hl; lia|]);
      inversion Hin. }
  assert (H2 : ∀ ys, ys ⊆ addedHandlers cfg h →
                filter (λ l, l ∉ addedHandlers cfg h) ys = []).
  { induction ys as [|y ys IH]; intros Hsub; [reflexivity|].
    rewrite filter_cons, decide_False.
    - apply IH. intros x Hx. apply Hsub. right. exact Hx.
    - intros Hn. apply Hn, Hsub. left. }
  rewrite (H2 _ (reflexivity _)).
  rewrite H1, app_nil_r. reflexivity.
Qed.

End IntroHandlerFacts.

Section IntroHideFacts.
Import Dom Intro IntroLife.

Lemma skip_running_eq c p id e :
  isSkipped c = false → isComplete c = false →
  introElement c = Some id → document p !! id = Some e →
  skip (c, p)
  = (mkController (config c) (Some id) true false [],
     mkPage (<[id := classAdd "hidden" e]> (document p)) (session p)
            (navigationEntries p)
            (filter (λ l, l ∉ skipHandlers c) (listeners p)) (nextHandler p)
            (removalTimers p ++ [nextTimer p]) (S (nextTimer p))
            (warnings p)
            (fired p ++ (if onSkip (config c) then [OnSkip] else []))).
Proof.
  intros Hs Hc Hi Hd. unfold skip. rewrite Hs, Hc. cbn [orb config].
  destruct (onSkip (config c)).
  - rewrite (hideIntro_eq _ (fire OnSkip p) id e) by assumption. reflexivity.
  - rewrite (hideIntro_eq _ p id e) by assumption.
    cbn [config isSkipped isComplete skipHandlers]. rewrite app_nil_r.
    reflexivity.
Qed.

Lemma complete_running_eq c p id e :
  isSkipped c = false → isComplete c = false →
  introElement c = Some id → document p !! id = Some e →
  complete (c, p)
  = (mkController (config c) (Some id) false true [],
     mkPage (<[id := classAdd "hidden" e]> (document p))
            (Session.setItem (storageKey (config c)) "true" (session p))
            (navigationEntries p)
            (filter (λ l, l ∉ skipHandlers c) (listeners p)) (nextHandler p)
            (removalTimers p ++ [nextTimer p]) (S (nextTimer p))
            (warnings p)
            (fired p ++ (if onComplete (config c) then [OnComplete] else []))).
Proof.
  intros Hs Hc Hi Hd. unfold complete. rewrite Hs, Hc. cbn [orb config].
  destruct (onComplete (config c)).
  - rewrite (hideIntro_eq _ (fire OnComplete (withSession _ p)) id e) by assumption.
    reflexivity.
  - rewrite (hideIntro_eq _ (withSession _ p) id e) by assumption.
    cbn [config isSkipped isComplete skipHandlers]. rewrite app_nil_r.
    reflexivity.
Qed.

End IntroHideFacts.

(** X10. The listeners [init] registers are exactly the ones the
    controller removes again.  When [init] returns [true] on a controller
    that holds no handler, the document's listeners are the earlier ones
    followed by a key handler and a click handler, each only if enabled;
    [destroy()] leaves exactly the earlier ones, and so do [skip()] and
    [complete()] on a controller that is neither skipped nor complete.  On a
    controller that already is, [skip()] and [complete()] return at once, so
    the handlers [init] has just registered stay on the document. *)
Theorem intro_handlers_added_by_init_are_removed
    (c : Intro.Controller) (p : Intro.Page) :
  (Intro.init (c, p)).1 = true →
  Intro.skipHandlers c = [] →
  Forall (λ l, l.2 < Intro.nextHandler p)%nat (Intro.listeners p) →
  Intro.listeners (Intro.init (c, p)).2.2
  = Intro.listeners p
    ++ IntroLife.addedHandlers (Intro.config c) (Intro.nextHandler p) ∧
  Intro.skipHandlers (Intro.init (c, p)).2.1
  = IntroLife.addedHandlers (Intro.config c) (Intro.nextHandler p) ∧
  Intro.listeners (Intro.destroy (Intro.init (c, p)).2).2 = Intro.listeners p ∧
  Intro.skipHandlers (Intro.destroy (Intro.init (c, p)).2).1 = [] ∧
  (if Intro.isSkipped c || Intro.isComplete c
   then Intro.skip (Intro.init (c, p)).2 = (Intro.init (c, p)).2 ∧
        Intro.complete (Intro.init (c, p)).2 = (Intro.init (c, p)).2
   else Intro.listeners (Intro.skip (Intro.init (c, p)).2).2 = Intro.listeners p ∧
        Intro.skipHandlers (Intro.skip (Intro.init (c, p)).2).1 = [] ∧
        Intro.listeners (Intro.complete (Intro.init (c, p)).2).2
        = Intro.listeners p ∧
        Intro.skipHandlers (Intro.complete (Intro.init (c, p)).2).1 = []).
Proof.
  intros Hinit Hhs Hfresh.
  destruct (init_shown_eq c p Hinit) as (id & e & Hid & Hd & Ha & ->).
  rewrite Hhs. cbn [app fst snd Intro.listeners Intro.skipHandlers].
  pose proof (addedHandlers_fresh (Intro.config c) _ _ Hfresh) as Hrt.
  split; [reflexivity|]. split; [reflexivity|].
  split; [unfold Intro.destroy, Intro._removeHandlers;
          cbn [snd Intro.listeners Intro.skipHandlers]; exact Hrt|].
  split; [reflexivity|].
  destruct (Intro.isSkipped c || Intro.isComplete c) eqn:Hstop.
  - unfold Intro.skip, Intro.complete.
    cbn [Intro.isSkipped Intro.isComplete]. rewrite Hstop. split; reflexivity.
  - apply orb_false_iff in Hstop as [Hs Hc].
    rewrite (skip_running_eq _ _ id e)
      by (cbn; first [assumption | reflexivity]).
    rewrite (complete_running_eq _ _ id e)
      by (cbn; first [assumption | reflexivity]).
    cbn [snd fst Intro.listeners Intro.skipHandlers]. auto.
Qed.

Lemma intro_handlers_added_by_init_are_removed_witness :
  (Intro.init (Intro.created (Intro.defaultOptions "intro"),
               Intro.freshPage "intro" ["reload"])).1 = true ∧
  Intro.skipHandlers (Intro.created (Intro.defaultOptions "intro")) = [] ∧
  Forall (λ l, l.2 < Intro.nextHandler (Intro.freshPage "intro" ["reload"]))%nat
    (Intro.listeners (Intro.freshPage "intro" ["reload"])) ∧
  Intro.listeners
    (Intro.init (Intro.created (Intro.defaultOptions "intro"),
                 Intro.freshPage "intro" ["reload"])).2.2
  = [(Intro.Keydown, 0%nat); (Intro.Click, 1%nat)] ∧
  Intro.listeners
    (Intro.destroy
       (Intro.init (Intro.created (Intro.defaultOptions "intro"),
                    Intro.freshPage "intro" ["reload"])).2).2 = [].
Proof.
  assert (Hi : (Intro.init (Intro.created (Intro.defaultOptions "intro"),
                            Intro.freshPage "intro" ["reload"])).1 = true)
    by reflexivity.
  assert (Hf : Forall (λ l : Intro.EventType * nat,
                         l.2 < Intro.nextHandler (Intro.freshPage "intro" ["reload"]))%nat
                 (Intro.listeners (Intro.freshPage "intro" ["reload"])))
    by constructor.
  split; [exact Hi|]. split; [reflexivity|]. split; [exact Hf|].
  destruct (intro_handlers_added_by_init_are_removed
              (Intro.created (Intro.defaultOptions "intro"))
              (Intro.freshPage "intro" ["reload"]) Hi eq_refl Hf)
    as (H1 & _ & H3 & _).
  split; [exact H1 | exact H3].
Defined.

Section IntroDispatchFacts.
Import Dom Intro IntroLife.

Lemma dispatch_no_listeners ty c p : listeners p = [] → dispatch ty (c, p) = (c, p).
Proof. intros H. unfold dispatch. cbn [snd]. rewrite H. reflexivity. Qed.

(** A key press or click on a page whose only listeners are the ones of
    [init]. *)
Lemma dispatch_added ty c p h :
  skipHandlers c = addedHandlers (config c) h →
  listeners p = addedHandlers (config c) h →
  dispatch ty (c, p) = if enabled ty (config c) then skip (c, p) else (c, p).
Proof.
  intros Hhs Hls. unfold dispatch. cbn [snd]. rewrite Hls.
  unfold addedHandlers, enabled.
  destruct ty, (skipOnKey (config c)) eqn:Hk, (skipOnClick (config c)) eqn:Hcl;
    cbn [app]; rewrite ?filter_cons, ?filter_nil; cbn [fst];
    repeat (first [rewrite decide_True by reflexivity
                  | rewrite decide_False by discriminate]);
    cbn [fold_left snd]; try reflexivity;
    rewrite Hls; unfold addedHandlers; rewrite Hk, Hcl; cbn [app];
    rewrite bool_decide_true by (repeat constructor); reflexivity.
Qed.

End IntroDispatchFacts.

(** X11. A key press or a click skips the intro exactly when the
    corresponding option ([skipOnKey], [skipOnClick]) is on.  After an
    [init] that returned [true] on a page with no other listener, an event
    of an enabled type does what [skip()] does, and an event of a disabled
    type changes nothing.  Once a running intro has been skipped this way no
    listener is left, so later key presses and clicks change nothing. *)
Theorem intro_key_or_click_skips_iff_enabled
    (c : Intro.Controller) (p : Intro.Page) (ty ty' : Intro.EventType) :
  (Intro.init (c, p)).1 = true →
  Intro.skipHandlers c = [] →
  Intro.listeners p = [] →
  Intro.dispatch ty (Intro.init (c, p)).2
  = (if IntroLife.enabled ty (Intro.config c)
     then Intro.skip (Intro.init (c, p)).2
     else (Intro.init (c, p)).2) ∧
  (Intro.isSkipped c || Intro.isComplete c = false →
   Intro.dispatch ty' (Intro.skip (Intro.init (c, p)).2)
   = Intro.skip (Intro.init (c, p)).2 ∧
   Intro.listeners (Intro.skip (Intro.init (c, p)).2).2 = []).
Proof.
  intros Hinit Hhs Hls.
  assert (Hfresh : Forall (λ l : Intro.EventType * nat, l.2 < Intro.nextHandler p)%nat
                     (Intro.listeners p)) by (rewrite Hls; constructor).
  destruct (init_shown_eq c p Hinit) as (id & e & Hid & Hd & Ha & Heq).
  pose proof (addedHandlers_fresh (Intro.config c) _ _ Hfresh) as Hrt.
  rewrite Heq. rewrite Hhs, Hls in *. cbn [app] in *. split.
  - rewrite (dispatch_added ty _ _ (Intro.nextHandler p)) by reflexivity.
    reflexivity.
  - intros Hstop. apply orb_false_iff in Hstop as [Hs Hc].
    rewrite (skip_running_eq _ _ id e)
      by (cbn; first [assumption | reflexivity]).
    cbn [Intro.skipHandlers Intro.listeners snd Intro.config]. rewrite Hrt.
    split; [|reflexivity].
    apply dispatch_no_listeners. reflexivity.
Qed.

Lemma intro_key_or_click_skips_iff_enabled_witness :
  (Intro.init (Intro.created (Intro.defaultOptions "intro"),
               Intro.freshPage "intro" ["reload"])).1 = true ∧
  Intro.skipHandlers (Intro.created (Intro.defaultOptions "intro")) = [] ∧
  Intro.listeners (Intro.freshPage "intro" ["reload"]) = [] ∧
  Intro.isSkipped
    (Intro.dispatch Intro.Keydown
       (Intro.init (Intro.created (Intro.defaultOptions "intro"),
                    Intro.freshPage "intro" ["reload"])).2).1 = true.
Proof.
  assert (Hi : (Intro.init (Intro.created (Intro.defaultOptions "intro"),
                            Intro.freshPage "intro" ["reload"])).1 = true)
    by reflexivity.
  split; [exact Hi|]. split; [reflexivity|]. split; [reflexivity|].
  destruct (intro_key_or_click_skips_iff_enabled
              (Intro.created (Intro.defaultOptions "intro"))
              (Intro.freshPage "intro" ["reload"]) Intro.Keydown Intro.Click
              Hi eq_refl eq_refl) as (H1 & _).
  rewrite H1. reflexivity.
Defined.

(** X12. The fade-out.  [skip()] and [complete()] on a running
    controller that holds its element add the class [hidden] and leave one
    timeout pending; when it fires the element is taken out of the page.
    If [destroy()] is called before the timeout fires, the controller has
    dropped its reference and the timeout removes nothing: the element stays
    in the page, with the class [hidden], after the timeout has fired. *)
Theorem intro_fade_out_removes_element_unless_destroyed
    (c : Intro.Controller) (p : Intro.Page) (id : string) (e : Dom.Element)
    (natural : bool) :
  Intro.isSkipped c = false →
  Intro.isComplete c = false →
  Intro.introElement c = Some id →
  Intro.document p !! id = Some e →
  Dom.attached e = true →
  Intro.nextTimer p ∉ Intro.removalTimers p →
  Intro.removalTimers
    (Intro.step (if natural then Intro.Complete else Intro.Skip) (c, p)).2
  = Intro.removalTimers p ++ [Intro.nextTimer p] ∧
  Dom.getElementById id
    (Intro.document
       (Intro.step (if natural then Intro.Complete else Intro.Skip) (c, p)).2)
  = Some (Dom.classAdd "hidden" e) ∧
  Intro.document
    (Intro.run [if natural then Intro.Complete else Intro.Skip;
                Intro.FadeOutElapsed (Intro.nextTimer p)] (c, p)).2 !! id
  = Some (Dom.remove (Dom.classAdd "hidden" e)) ∧
  Intro.removalTimers
    (Intro.run [if natural then Intro.Complete else Intro.Skip;
                Intro.FadeOutElapsed (Intro.nextTimer p)] (c, p)).2
  = Intro.removalTimers p ∧
  Dom.getElementById id
    (Intro.document
       (Intro.run [if natural then Intro.Complete else Intro.Skip;
                   Intro.Destroy;
                   Intro.FadeOutElapsed (Intro.nextTimer p)] (c, p)).2)
  = Some (Dom.classAdd "hidden" e) ∧
  Intro.removalTimers
    (Intro.run [if natural then Intro.Complete else Intro.Skip;
                Intro.Destroy;
                Intro.FadeOutElapsed (Intro.nextTimer p)] (c, p)).2
  = Intro.removalTimers p.
Proof.
  intros Hs Hc Hi Hd Ha Hfresh.
  assert (Hfilter : filter (λ t, t ≠ Intro.nextTimer p)
                      (Intro.removalTimers p ++ [Intro.nextTimer p])
                    = Intro.removalTimers p).
  { rewrite filter_app, filter_cons, decide_False, filter_nil, app_nil_r by auto.
    revert Hfresh. generalize (Intro.nextTimer p).
    induction (Intro.removalTimers p) as [|t ts IH]; intros n Hn; [reflexivity|].
    rewrite filter_cons, decide_True, IH; [reflexivity| |];
      intros Hx; apply Hn; [right; exact Hx | subst; left]. }
  assert (Hget : Dom.getElementById id
                   (<[id := Dom.classAdd "hidden" e]> (Intro.document p))
                 = Some (Dom.classAdd "hidden" e)).
  { unfold Dom.getElementById. rewrite lookup_insert_eq.
    cbn [Dom.attached Dom.classAdd]. rewrite Ha. reflexivity. }
  unfold Intro.run. cbn [fold_left].
  assert (Hstep : ∃ s f,
            Intro.step (if natural then Intro.Complete else Intro.Skip) (c, p)
            = (Intro.mkController (Intro.config c) (Some id)
                 (negb natural) natural [],
               Intro.mkPage (<[id := Dom.classAdd "hidden" e]> (Intro.document p))
                 s (Intro.navigationEntries p)
                 (filter (λ l, l ∉ Intro.skipHandlers c) (Intro.listeners p))
                 (Intro.nextHandler p)
                 (Intro.removalTimers p ++ [Intro.nextTimer p])
                 (S (Intro.nextTimer p)) (Intro.warnings p) f)).
  { destruct natural; cbn [Intro.step negb].
    - rewrite (complete_running_eq c p id e) by assumption. eauto.
    - rewrite (skip_running_eq c p id e) by assumption. eauto. }
  destruct Hstep as (s & f & ->).
  cbn [snd Intro.removalTimers Intro.document].
  split; [reflexivity|]. split; [exact Hget|].
  cbn [Intro.step]. unfold Intro.fadeOutElapsed, Intro.destroy, Intro._removeHandlers.
  cbn [Intro.removalTimers Intro.setIntroElement].
  rewrite bool_decide_true by (apply elem_of_app; right; left).
  rewrite Hfilter. unfold Intro._removeIntro.
  cbn [Intro.introElement Intro.document]. rewrite lookup_insert_eq.
  cbn [Dom.attached Dom.classAdd]. rewrite Ha.
  cbn [snd Intro.document Intro.withDocument Intro.removalTimers].
  rewrite lookup_insert_eq. auto.
Qed.

Lemma intro_fade_out_removes_element_unless_destroyed_witness :
  Intro.isSkipped (Intro.init (Intro.created (Intro.defaultOptions "intro"),
                               Intro.freshPage "intro" ["reload"])).2.1 = false ∧
  Dom.getElementById "intro"
    (Intro.document
       (Intro.run [Intro.Skip; Intro.FadeOutElapsed 0]
          (Intro.init (Intro.created (Intro.defaultOptions "intro"),
                       Intro.freshPage "intro" ["reload"])).2).2) = None.
Proof.
  split; [reflexivity|].
  assert (Hd : Intro.document
                 (Intro.init (Intro.created (Intro.defaultOptions "intro"),
                              Intro.freshPage "intro" ["reload"])).2.2 !! "intro"
               = Some (Dom.mkElement [] ∅ [] ∅ true)) by reflexivity.
  assert (Hf : Intro.nextTimer
                 (Intro.init (Intro.created (Intro.defaultOptions "intro"),
                              Intro.freshPage "intro" ["reload"])).2.2
               ∉ Intro.removalTimers
                   (Intro.init (Intro.created (Intro.defaultOptions "intro"),
                                Intro.freshPage "intro" ["reload"])).2.2)
    by (cbn; apply not_elem_of_nil).
  destruct (intro_fade_out_removes_element_unless_destroyed
              (Intro.init (Intro.created (Intro.defaultOptions "intro"),
                           Intro.freshPage "intro" ["reload"])).2.1
              (Intro.init (Intro.created (Intro.defaultOptions "intro"),
                           Intro.freshPage "intro" ["reload"])).2.2
              "intro" (Dom.mkElement [] ∅ [] ∅ true) false
              eq_refl eq_refl eq_refl Hd eq_refl Hf) as (_ & _ & H & _).
  unfold Dom.getElementById.
  change (Intro.run [Intro.Skip; Intro.FadeOutElapsed 0]
            (Intro.init (Intro.created (Intro.defaultOptions "intro"),
                         Intro.freshPage "intro" ["reload"])).2)
    with (Intro.run [Intro.Skip;
                     Intro.FadeOutElapsed
                       (Intro.nextTimer
                          (Intro.init (Intro.created (Intro.defaultOptions "intro"),
                                       Intro.freshPage "intro" ["reload"])).2.2)]
            ((Intro.init (Intro.created (Intro.defaultOptions "intro"),
                          Intro.freshPage "intro" ["reload"])).2.1,
             (Intro.init (Intro.created (Intro.defaultOptions "intro"),
                          Intro.freshPage "intro" ["reload"])).2.2)).
  cbn [bool_decide] in H. rewrite H. reflexivity.
Defined.

Section ProgressBarRunFacts.
Import ProgressBar.
Local Open Scope Q_scope.

Lemma Qle_bool_false a b : Qle_bool a b = false → b < a.
Proof.
  intros H. apply Qnot_le_lt. intros Hle. apply Qle_bool_iff in Hle. congruence.
Qed.

Lemma inject_Z_succ n : inject_Z (Z.of_nat (S n)) == inject_Z (Z.of_nat n) + 1.
Proof. rewrite Nat2Z.inj_succ. unfold Z.succ. rewrite inject_Z_plus. reflexivity. Qed.

(** The animation advances by three points per timeout until it meets the
    target. *)
Lemma currentPercent_closed percentage n :
  0 <= percentage →
  currentPercent percentage n == min (3 * inject_Z (Z.of_nat n)) percentage.
Proof.
  intros Hp. induction n as [|n IH].
  - cbn [currentPercent]. unfold min. change (inject_Z (Z.of_nat 0)) with 0.
    destruct (Qle_bool (3 * 0) percentage) eqn:E; [lra|].
    apply Qle_bool_false in E. lra.
  - cbn [currentPercent]. pose proof (inject_Z_succ n) as Hs.
    revert IH. generalize (currentPercent percentage n). intros c IH.
    unfold tick, min in *.
    destruct (Qle_bool (3 * inject_Z (Z.of_nat n)) percentage) eqn:E1;
      [apply Qle_bool_iff in E1 | apply Qle_bool_false in E1];
    (destruct (Qle_bool percentage c) eqn:E2;
      [apply Qle_bool_iff in E2 | apply Qle_bool_false in E2]);
    (destruct (Qle_bool (3 * inject_Z (Z.of_nat (S n))) percentage) eqn:E3;
      [apply Qle_bool_iff in E3 | apply Qle_bool_false in E3]);
    try (destruct (Qle_bool (c + 3) percentage) eqn:E4;
      [apply Qle_bool_iff in E4 | apply Qle_bool_false in E4]);
    lra.
Qed.

Lemma min_cases a b : (a <= b ∧ min a b = a) ∨ (b < a ∧ min a b = b).
Proof.
  unfold min. destruct (Qle_bool a b) eqn:E;
    [left; apply Qle_bool_iff in E | right; apply Qle_bool_false in E]; auto.
Qed.

End ProgressBarRunFacts.



(** X14. What the ProgressBar renders for an integer width that a string
    can have, whatever the percent: with [f] the number of filled cells,
    computed in double arithmetic, [f] full blocks followed by [width - f]
    light ones when [f] is finite and [0 <= f <= width], and a RangeError
    from [String.prototype.repeat] otherwise.  So a bar that renders has
    exactly [width] cells, and one that does not has [f] infinite, negative
    or above the width. *)
Theorem progress_bar_renders_or_throws (limit : Z) (cp : Q) (width : Z) :
  (width <= limit)%Z → (limit < 2 ^ 53)%Z →
  ProgressBar.bar limit cp (inject_Z width)
  = match ProgressBar.filled cp (inject_Z width) with
    | Some f =>
        if ((0 <=? f)%Z && (f <=? width)%Z)%bool
        then Some (replicate (Z.to_nat f) 9608%N
                   ++ replicate (Z.to_nat (width - f)) 9617%N)
        else None
    | None => None
    end ∧
  match ProgressBar.bar limit cp (inject_Z width) with
  | Some s => Z.of_nat (length s) = width
  | None =>
      match ProgressBar.filled cp (inject_Z width) with
      | Some f => (f < 0)%Z ∨ (width < f)%Z
      | None => True
      end
  end.
Proof.
  intros Hw Hl. split; [apply bar_integer_width; assumption|].
  rewrite bar_integer_width by assumption.
  destruct (ProgressBar.filled cp (inject_Z width)) as [f|]; [|exact I].
  destruct (Z.leb_spec 0 f); destruct (Z.leb_spec f width); cbn [andb]; try lia.
  rewrite length_app, !length_replicate. lia.
Qed.

Lemma progress_bar_renders_or_throws_witness :
  (100 <= ProgressBar.v8StringLimit)%Z ∧ (ProgressBar.v8StringLimit < 2 ^ 53)%Z ∧
  ProgressBar.bar ProgressBar.v8StringLimit 58 (inject_Z 100)
  = Some (replicate 57 9608%N ++ replicate 43 9617%N).
Proof.
  assert (H1 : (100 <= ProgressBar.v8StringLimit)%Z) by (vm_compute; discriminate).
  assert (H2 : (ProgressBar.v8StringLimit < 2 ^ 53)%Z) by reflexivity.
  split; [exact H1|]. split; [exact H2|].
  destruct (progress_bar_renders_or_throws ProgressBar.v8StringLimit 58 100 H1 H2)
    as [H _].
  rewrite H. vm_compute. reflexivity.
Defined.

(** X15. Two ranges of props in which the component throws while
    rendering.  With a negative integer width it does so at
    every percent, the first render included.  With a positive integer
    width and a target of at least 200 (and at most [2 ^ 53], up to which
    the additions of the animation are exact) it does so once the animation
    has reached the target. *)
Theorem progress_bar_throws_out_of_range
    (limit : Z) (percentage : Q) (width : Z) (n : nat) :
  (0 <= limit < 2 ^ 53)%Z →
  ((width < 0)%Z ∨
   ((1 <= width <= limit)%Z ∧
    (200 <= percentage)%Q ∧ (percentage <= inject_Z (2 ^ 53))%Q)) →
  (percentage <= 3 * inject_Z (Z.of_nat n))%Q →
  ProgressBar.bar limit (ProgressBar.currentPercent percentage n) (inject_Z width)
  = None ∧
  ((width < 0)%Z →
   ∀ cp, ProgressBar.bar limit cp (inject_Z width) = None).
Proof.
  intros Hl Hrange Hn.
  assert (Hneg : (width < 0)%Z →
                 ∀ cp, ProgressBar.bar limit cp (inject_Z width) = None).
  { intros Hw cp. rewrite bar_integer_width by lia.
    destruct (ProgressBar.filled cp (inject_Z width)) as [f|]; [|reflexivity].
    destruct (Z.leb_spec 0 f); destruct (Z.leb_spec f width); cbn [andb];
      first [reflexivity | lia]. }
  split; [|exact Hneg].
  destruct Hrange as [Hw|(Hw & Hover & _)]; [apply Hneg, Hw|].
  assert (Hp : (0 <= percentage)%Q) by lra.
  pose proof (currentPercent_closed percentage n Hp) as Hc.
  destruct (min_cases (3 * inject_Z (Z.of_nat n)) percentage) as [[H1 E1]|[H1 E1]];
    rewrite E1 in Hc.
  all: assert (Hcp : (200 <= ProgressBar.currentPercent percentage n)%Q) by lra.
  all: rewrite bar_integer_width by lia.
  all: pose proof (filled_overshoot _ width ltac:(lia) Hcp) as Hf.
  all: destruct (ProgressBar.filled (ProgressBar.currentPercent percentage n)
                   (inject_Z width)) as [f|]; [|reflexivity].
  all: destruct (Z.leb_spec 0 f); destruct (Z.leb_spec f width); cbn [andb];
       first [reflexivity | lia].
Qed.

Lemma progress_bar_throws_out_of_range_witness :
  (0 <= ProgressBar.v8StringLimit < 2 ^ 53)%Z ∧
  (200 <= 3 * inject_Z (Z.of_nat 67))%Q ∧
  ProgressBar.bar ProgressBar.v8StringLimit (ProgressBar.currentPercent 200 67)
    (inject_Z 10) = None.
Proof.
  assert (H0 : (0 <= ProgressBar.v8StringLimit < 2 ^ 53)%Z)
    by (vm_compute; split; [discriminate | reflexivity]).
  assert (H1 : (200 <= 3 * inject_Z (Z.of_nat 67))%Q) by (vm_compute; discriminate).
  assert (H2 : (10 < 0)%Z
               ∨ ((1 <= 10 <= ProgressBar.v8StringLimit)%Z ∧
                  (200 <= 200)%Q ∧ (200 <= inject_Z (2 ^ 53))%Q)).
  { right. split; [vm_compute; split; discriminate|].
    split; vm_compute; discriminate. }
  split; [exact H0|]. split; [exact H1|].
  exact (proj1 (progress_bar_throws_out_of_range ProgressBar.v8StringLimit
                  200 10 67 H0 H2 H1)).
Defined.

Section ShownFacts.
Import Shown.

Lemma appendIndexed_take (text : jsstring) i :
  (i < length text)%nat → appendIndexed (take i text) text i = take (S i) text.
Proof.
  intros Hi. unfold appendIndexed. rewrite charAt_lookup.
  destruct (lookup_lt_is_Some_2 text i Hi) as [c Hc].
  rewrite Hc. symmetry. apply take_S_r, Hc.
Qed.





Lemma promptShown_mount s n : promptShown (Prompt.mount (Prompt.mkWindow s [] n)).
Proof.
  split; [apply prompt_mount_settled|].
  destruct (Session.flagSet Prompt.storageKey s) eqn:Hs;
    [rewrite prompt_mount_played by exact Hs | rewrite prompt_mount_fresh by exact Hs];
    reflexivity.
Qed.

Lemma promptShown_step ev st : promptShown st → promptShown (Prompt.step ev st).
Proof.
  intros [Hset Hdt]. split; [apply prompt_step_settled, Hset|].
  destruct Hset as [dt i id s n Hs Hi | s n Hs].
  - cbn [fst Prompt.displayText Prompt.currentIndex] in Hdt. subst dt.
    destruct ev as [id'|]; cbn [Prompt.step].
    + destruct (decide (id' = id)) as [->|Hne].
      * destruct (decide (S i < length Prompt.fullText)%nat) as [Hlt|Hge].
        -- rewrite prompt_fire_more by assumption.
           cbn [fst Prompt.displayText Prompt.currentIndex].
           apply appendIndexed_take. lia.
        -- rewrite prompt_fire_last by (assumption || lia). reflexivity.
      * rewrite prompt_fire_other by exact Hne. reflexivity.
    + rewrite prompt_keydown_running. reflexivity.
  - rewrite prompt_completed_step. exact Hdt.
Qed.

Lemma promptShown_run evs : ∀ st, promptShown st → promptShown (Prompt.run evs st).
Proof.
  induction evs as [|ev evs IH]; intros st Hst; [exact Hst|].
  apply IH, promptShown_step, Hst.
Qed.

End ShownFacts.

(** X16. TerminalPrompt never shows anything but a prefix of its text:
    after any sequence of timeouts and key presses, [displayText] is the
    first [currentIndex] characters of the prompt, the empty string at the
    start of a first visit and the whole prompt once [hasPlayed] is set. *)
Theorem prompt_displays_prefix_of_length_index
    (s : Session.t) (n : nat) (evs : list Prompt.Event) :
  Prompt.displayText (Prompt.reached s n evs).1
  = take (Prompt.currentIndex (Prompt.reached s n evs).1) Prompt.fullText ∧
  (Prompt.currentIndex (Prompt.reached s n evs).1 ≤ length Prompt.fullText)%nat ∧
  (Prompt.hasPlayed (Prompt.reached s n evs).1 = true →
   Prompt.displayText (Prompt.reached s n evs).1 = Prompt.fullText) ∧
  (Session.flagSet Prompt.storageKey s = false →
   Prompt.displayText (Prompt.reached s n []).1 = []).
Proof.
  destruct (promptShown_run evs _ (promptShown_mount s n)) as [Hset Hdt].
  unfold Prompt.reached. split; [exact Hdt|].
  split; [|split].
  - destruct Hset; cbn [fst Prompt.currentIndex]; lia.
  - destruct Hset; cbn [fst Prompt.hasPlayed Prompt.displayText];
      [discriminate | reflexivity].
  - intros Hs. cbn [Prompt.run fold_left].
    rewrite prompt_mount_fresh by exact Hs. reflexivity.
Qed.



Section ModalOpsFacts.
Import Dom Modal ModalOps.

Lemma elementHas_alter_frame (P : Element → Prop) f k k' (d : Document) :
  (∀ e, P e → P (f e)) → elementHas P k d → elementHas P k (alter f k' d).
Proof.
  intros Hf (e & He & HP). destruct (decide (k' = k)) as [->|Hne].
  - exists (f e). rewrite lookup_alter_eq, He. split; [reflexivity | auto].
  - exists e. rewrite lookup_alter_ne by exact Hne. auto.
Qed.

Lemma elementHas_alter_set (P : Element → Prop) f k (d : Document) :
  (∀ e, P (f e)) → is_Some (d !! k) → elementHas P k (alter f k d).
Proof.
  intros Hf [e He]. exists (f e). rewrite lookup_alter_eq, He.
  split; [reflexivity | apply Hf].
Qed.

Lemma updateTriggers_cons l v t ts d :
  updateTriggers l v (t :: ts) d
  = updateTriggers l v ts (alter (updateTrigger l v) t d).
Proof. reflexivity. Qed.

Lemma updateTriggers_is_Some l v ts :
  ∀ (d : Document) k, is_Some (updateTriggers l v ts d !! k) ↔ is_Some (d !! k).
Proof.
  induction ts as [|t ts IH]; intros d k; [reflexivity|].
  rewrite updateTriggers_cons, IH, lookup_alter_is_Some. reflexivity.
Qed.

Lemma updateTriggers_frame (P : Element → Prop) l v ts :
  (∀ e, P e → P (updateTrigger l v e)) →
  ∀ d k, elementHas P k d → elementHas P k (updateTriggers l v ts d).
Proof.
  intros Hf. induction ts as [|t ts IH]; intros d k Hk; [exact Hk|].
  rewrite updateTriggers_cons. apply IH, elementHas_alter_frame; assumption.
Qed.

Lemma updateTrigger_sets l v e :
  textContent (updateTrigger l v e) = l ∧
  attributes (updateTrigger l v e) !! "aria-expanded" = Some v.
Proof.
  unfold updateTrigger, setAttribute, setTextContent.
  cbn [textContent attributes]. split; [reflexivity | apply lookup_insert_eq].
Qed.

Lemma updateTriggers_set l v ts :
  ∀ (d : Document) t, t ∈ ts → is_Some (d !! t) →
  elementHas (λ e, textContent e = l ∧ attributes e !! "aria-expanded" = Some v)
             t (updateTriggers l v ts d).
Proof.
  induction ts as [|t' ts IH]; intros d t Hin Hs; [inversion Hin|].
  rewrite updateTriggers_cons. destruct (decide (t = t')) as [->|Hne].
  - apply updateTriggers_frame; [intros e _; apply updateTrigger_sets|].
    apply elementHas_alter_set; [intros e; apply updateTrigger_sets | exact Hs].
  - apply IH; [|apply lookup_alter_is_Some, Hs].
    apply elem_of_cons in Hin as [?|?]; [congruence | assumption].
Qed.

(** The attribute [aria-hidden] is written by [open] and [close] only. *)
Lemma updateTrigger_hidden l v x e :
  attributes e !! "aria-hidden" = Some x →
  attributes (updateTrigger l v e) !! "aria-hidden" = Some x.
Proof.
  intros H. unfold updateTrigger, setAttribute, setTextContent.
  cbn [textContent attributes]. rewrite lookup_insert_ne by discriminate. exact H.
Qed.

Lemma setHidden_trigger l v x e :
  textContent e = l ∧ attributes e !! "aria-expanded" = Some v →
  textContent (setAttribute "aria-hidden" x e) = l ∧
  attributes (setAttribute "aria-hidden" x e) !! "aria-expanded" = Some v.
Proof.
  intros [H1 H2]. unfold setAttribute. cbn [textContent attributes].
  rewrite lookup_insert_ne by discriminate. auto.
Qed.

End ModalOpsFacts.

Section ModalInvFacts.
Import Dom Modal ModalOps.

Lemma cosmetic_setProperty k v : cosmetic (setProperty k v).
Proof. intros e. split; reflexivity. Qed.

Lemma cosmetic_hideClasses instant : cosmetic (hideClasses instant).
Proof. intros e. destruct instant; split; reflexivity. Qed.

Lemma cosmetic_reveal :
  cosmetic (λ e, classAdd "opacity-100"
                   (classRemove "invisible" (classRemove "opacity-0" e))).
Proof. intros e. split; reflexivity. Qed.

Lemma cosmetic_hidden f x e :
  cosmetic f → attributes e !! "aria-hidden" = Some x →
  attributes (f e) !! "aria-hidden" = Some x.
Proof. intros Hf H. destruct (Hf e) as [_ ->]. exact H. Qed.

Lemma cosmetic_trigger f l v e :
  cosmetic f →
  textContent e = l ∧ attributes e !! "aria-expanded" = Some v →
  textContent (f e) = l ∧ attributes (f e) !! "aria-expanded" = Some v.
Proof. intros Hf H. destruct (Hf e) as [-> ->]. exact H. Qed.

Lemma alternation_open n :
  Nat.odd n = false → alternation n ++ [OnOpen] = alternation (S n).
Proof.
  intros H. cbn [alternation]. rewrite <- Nat.negb_odd, H. reflexivity.
Qed.

Lemma alternation_close n :
  Nat.odd n = true → alternation n ++ [OnClose] = alternation (S n).
Proof.
  intros H. cbn [alternation]. rewrite <- Nat.negb_odd, H. reflexivity.
Qed.

Lemma open_inv m f0 st : modalInv m f0 st → modalInv m f0 (open st).
Proof.
  destruct st as [[[cfg o mo ts cs] bp] b]. unfold modalInv, open.
  cbn [fst snd controller modal isOpen triggers].
  intros (-> & Hdm & Hts & n & Hf & Ho & Hn). destruct o.
  - cbn [fst snd controller modal isOpen triggers]. eauto 10.
  - cbn [fst snd controller modal isOpen triggers setIsOpen page fired
         withDocument document].
    split; [reflexivity|].
    split; [rewrite updateTriggers_is_Some, !lookup_alter_is_Some; exact Hdm|].
    split; [intros t Ht;
            rewrite updateTriggers_is_Some, !lookup_alter_is_Some; auto|].
    exists (S n). rewrite Hf, <- app_assoc, alternation_open by auto.
    rewrite Nat.odd_succ, <- Nat.negb_odd, <- Ho.
    split; [reflexivity|]. split; [reflexivity|]. intros _. split.
    + apply updateTriggers_frame; [intros e; apply updateTrigger_hidden|].
      apply elementHas_alter_set;
        [intros e; apply lookup_insert_eq
        | rewrite lookup_alter_is_Some; exact Hdm].
    + intros t Ht. apply updateTriggers_set; [exact Ht|].
      rewrite !lookup_alter_is_Some. auto.
Qed.

Lemma close_inv instant m f0 st : modalInv m f0 st → modalInv m f0 (close instant st).
Proof.
  destruct st as [[[cfg o mo ts cs] bp] b]. unfold modalInv, close.
  cbn [fst snd controller modal isOpen triggers].
  intros (-> & Hdm & Hts & n & Hf & Ho & Hn). destruct o; cbn [negb].
  - cbn [fst snd controller modal isOpen triggers setIsOpen page fired
         withDocument document].
    split; [reflexivity|].
    split; [rewrite updateTriggers_is_Some, !lookup_alter_is_Some; exact Hdm|].
    split; [intros t Ht;
            rewrite updateTriggers_is_Some, !lookup_alter_is_Some; auto|].
    exists (S n). rewrite Hf, <- app_assoc, alternation_close by auto.
    rewrite Nat.odd_succ, <- Nat.negb_odd, <- Ho.
    split; [reflexivity|]. split; [reflexivity|]. intros _. split.
    + apply updateTriggers_frame; [intros e; apply updateTrigger_hidden|].
      apply elementHas_alter_set;
        [intros e; apply lookup_insert_eq
        | rewrite lookup_alter_is_Some; exact Hdm].
    + intros t Ht. apply updateTriggers_set; [exact Ht|].
      rewrite !lookup_alter_is_Some. auto.
  - cbn [fst snd controller modal isOpen triggers]. eauto 10.
Qed.

Lemma toggle_inv m f0 st : modalInv m f0 st → modalInv m f0 (toggle st).
Proof.
  intros H. unfold toggle. destruct (isOpen _); [apply close_inv | apply open_inv];
    exact H.
Qed.

Lemma fireTimer_inv id m f0 st : modalInv m f0 st → modalInv m f0 (fireTimer id st).
Proof.
  destruct st as [[[cfg o mo ts cs] bp] b]. unfold modalInv at 1.
  cbn [fst snd controller modal isOpen triggers].
  intros (-> & Hdm & Hts & n & Hf & Ho & Hn). unfold fireTimer.
  cbn [controller modal].
  destruct (list_find _ _) as [[k [id' task]]|];
    [|unfold modalInv; cbn [fst snd controller modal isOpen triggers]; eauto 10].
  unfold modalInv.
  destruct task;
    cbn [fst snd controller modal isOpen triggers runTask page fired
         withDocument document];
    (split; [reflexivity|]);
    (split; [rewrite lookup_alter_is_Some; exact Hdm|]);
    (split; [intros t Ht; rewrite lookup_alter_is_Some; auto|]);
    exists n; (split; [exact Hf|]); (split; [exact Ho|]);
    intros Hn0; destruct (Hn Hn0) as [H1 H2]; split.
  - apply elementHas_alter_frame; [|exact H1].
    intros e He. exact (cosmetic_hidden _ _ _ cosmetic_reveal He).
  - intros t Ht. apply elementHas_alter_frame; [|auto].
    intros e He. exact (cosmetic_trigger _ _ _ _ cosmetic_reveal He).
  - apply elementHas_alter_frame; [|exact H1].
    intros e He. exact (cosmetic_hidden _ _ _ (cosmetic_setProperty _ _) He).
  - intros t Ht. apply elementHas_alter_frame; [|auto].
    intros e He. exact (cosmetic_trigger _ _ _ _ (cosmetic_setProperty _ _) He).
Qed.

Lemma react_invariant (P : State → Prop) ev l :
  (∀ st, P st → P (open st)) → (∀ i st, P st → P (close i st)) →
  ∀ st, P st → P (react ev l st).
Proof.
  intros Hopen Hclose st Hst.
  assert (Htoggle : P (toggle st))
    by (unfold toggle; destruct (isOpen _); auto).
  unfold react. destruct ev, l; try exact Hst;
    match goal with |- P (if ?c then _ else _) => destruct c end; auto.
Qed.

Lemma dispatch_invariant_modal (P : State → Prop) ev :
  (∀ st, P st → P (open st)) → (∀ i st, P st → P (close i st)) →
  ∀ st, P st → P (dispatch ev st).
Proof.
  intros Hopen Hclose st. unfold dispatch.
  generalize (listeners (page st.2)). intros ls. revert st.
  induction ls as [|l ls IH]; intros st Hst; [exact Hst|].
  cbn [fold_left]. apply IH, react_invariant; assumption.
Qed.

Lemma step_invariant_modal (P : State → Prop) ev :
  (∀ st, P st → P (open st)) → (∀ i st, P st → P (close i st)) →
  (∀ id st, P st → P (fireTimer id st)) →
  ∀ st, P st → P (step ev st).
Proof.
  intros Hopen Hclose Hfire st Hst.
  assert (Hd : ∀ ev, P (dispatch ev st))
    by (intros ev'; apply dispatch_invariant_modal; assumption).
  destruct ev; cbn [step]; auto.
  - unfold toggle. destruct (isOpen _); auto.
  - unfold destroy. auto.
Qed.

Lemma run_invariant_modal (P : State → Prop) evs :
  (∀ st, P st → P (open st)) → (∀ i st, P st → P (close i st)) →
  (∀ id st, P st → P (fireTimer id st)) →
  ∀ st, P st → P (run evs st).
Proof.
  intros Hopen Hclose Hfire. induction evs as [|ev evs IH]; intros st Hst;
    [exact Hst|].
  cbn [run fold_left]. apply IH, step_invariant_modal; assumption.
Qed.

End ModalInvFacts.

Section ModalWiringFacts.
Import Dom Modal ModalOps.

Lemma pristine_fields b : pristine b = true → listeners (page b) = [] ∧ timers b = [].
Proof.
  unfold pristine. destruct (listeners (page b)), (timers b); try discriminate. auto.
Qed.

Lemma getElementById_lookup id (d : Document) e :
  getElementById id d = Some e → d !! id = Some e ∧ attached e = true.
Proof.
  unfold getElementById. destruct (d !! id) as [e'|]; [|discriminate].
  destruct (attached e') eqn:Ha; [|discriminate]. intros [= ->]. auto.
Qed.

Lemma lookupAll_is_Some ids (d : Document) t :
  t ∈ lookupAll ids d → is_Some (d !! t).
Proof.
  unfold lookupAll. destruct ids as [l|]; [|intros H; inversion H].
  intros H. apply list_elem_of_filter in H as [[e He] _].
  apply getElementById_lookup in He as [He _]. eauto.
Qed.

Lemma create_missing cfg bp b :
  getElementById (modalId cfg) (document (page b)) = None →
  create cfg bp b
  = (mkInstance (Modal.mkController cfg false None [] []) bp,
     mkBrowser
       (Modal.mkPage (document (page b)) (navLinks (page b)) (listeners (page b))
          (warnings (page b)
           ++ [("Modal element #" ++ modalId cfg ++ " not found")%string]))
       (bodyOverflow b) (timers b) (nextTimer b) (fired b)).
Proof.
  intros H. unfold create, Modal.constructor, _init. cbn [config]. rewrite H.
  reflexivity.
Qed.

Lemma create_found cfg bp b e :
  getElementById (modalId cfg) (document (page b)) = Some e →
  create cfg bp b
  = (mkInstance
       (Modal.mkController cfg false (Some (modalId cfg))
          (lookupAll (triggerIds cfg) (document (page b)))
          (lookupAll (closeIds cfg) (document (page b)))) bp,
     mkBrowser
       (_attachListeners
          (Modal.mkController cfg false (Some (modalId cfg))
             (lookupAll (triggerIds cfg) (document (page b)))
             (lookupAll (closeIds cfg) (document (page b))))
          (page b))
       (bodyOverflow b) (timers b) (nextTimer b) (fired b)).
Proof.
  intros H. unfold create, Modal.constructor, _init. cbn [config]. rewrite H.
  reflexivity.
Qed.

Lemma create_inv cfg bp b e :
  getElementById (modalId cfg) (document (page b)) = Some e →
  modalInv (modalId cfg) (fired b) (create cfg bp b).
Proof.
  intros H. rewrite (create_found cfg bp b e H).
  apply getElementById_lookup in H as [Hd _]. unfold modalInv.
  cbn [fst snd controller modal triggers isOpen page fired _attachListeners
       document].
  split; [reflexivity|]. split; [eauto|].
  split; [intros t; apply lookupAll_is_Some|].
  exists 0%nat. cbn [alternation]. rewrite app_nil_r.
  split; [reflexivity|]. split; [reflexivity|]. congruence.
Qed.

(** A controller without modal does nothing. *)
Lemma open_missing st : modal (controller st.1) = None → open st = st.
Proof. destruct st as [i b]. unfold open. cbn [fst]. intros ->. reflexivity. Qed.

Lemma close_missing instant st :
  modal (controller st.1) = None → close instant st = st.
Proof. destruct st as [i b]. unfold close. cbn [fst]. intros ->. reflexivity. Qed.

Lemma open_wiring st : wiring (open st) = wiring st.
Proof.
  destruct st as [[[cfg o mo ts cs] bp] b]. unfold open. cbn [controller modal isOpen].
  destruct mo, o; reflexivity.
Qed.

Lemma close_wiring instant st : wiring (close instant st) = wiring st.
Proof.
  destruct st as [[[cfg o mo ts cs] bp] b]. unfold close. cbn [controller modal isOpen].
  destruct mo, o; reflexivity.
Qed.

Lemma fireTimer_wiring id st : wiring (fireTimer id st) = wiring st.
Proof.
  destruct st as [[[cfg o mo ts cs] bp] b]. unfold fireTimer. cbn [controller modal].
  destruct (list_find _ _) as [[k [id' task]]|], mo; try reflexivity.
  destruct task; reflexivity.
Qed.

Lemma run_wiring evs st : wiring (run evs st) = wiring st.
Proof.
  apply (run_invariant_modal (λ s, wiring s = wiring st)); try reflexivity.
  - intros s Hs. rewrite open_wiring. exact Hs.
  - intros i s Hs. rewrite close_wiring. exact Hs.
  - intros id s Hs. rewrite fireTimer_wiring. exact Hs.
Qed.

End ModalWiringFacts.

(** X18. A controller that did not find its modal is inert.  The
    constructor warns and registers no listener; after that [open()],
    [close()], [toggle()] and [destroy()] return at once, no click, key or
    resize reaches it, and no timeout is ever pending: the state stays the
    one the constructor left, whatever happens. *)
Theorem modal_without_element_is_inert
    (cfg : Modal.Config) (breakpoint : Z) (b : ModalOps.Browser)
    (evs : list ModalOps.Event) :
  ModalOps.pristine b = true →
  Dom.getElementById (Modal.modalId cfg) (Modal.document (ModalOps.page b)) = None →
  ModalOps.reached cfg breakpoint b evs = ModalOps.create cfg breakpoint b ∧
  ModalOps.create cfg breakpoint b
  = (ModalOps.mkInstance (Modal.mkController cfg false None [] []) breakpoint,
     ModalOps.mkBrowser
       (Modal.mkPage (Modal.document (ModalOps.page b))
          (Modal.navLinks (ModalOps.page b)) []
          (Modal.warnings (ModalOps.page b)
           ++ [("Modal element #" ++ Modal.modalId cfg ++ " not found")%string]))
       (ModalOps.bodyOverflow b) [] (ModalOps.nextTimer b) (ModalOps.fired b)).
Proof.
  intros Hp Hm. apply pristine_fields in Hp as [Hls Hts].
  pose proof (create_missing cfg breakpoint b Hm) as Hc.
  rewrite Hls, Hts in Hc. split; [|exact Hc].
  unfold ModalOps.reached.
  apply (run_invariant_modal (λ s, s = ModalOps.create cfg breakpoint b));
    try reflexivity.
  - intros st ->. apply open_missing. rewrite Hc. reflexivity.
  - intros i st ->. apply close_missing. rewrite Hc. reflexivity.
  - intros id st ->. rewrite Hc. reflexivity.
Qed.

Lemma modal_without_element_is_inert_witness :
  ModalOps.pristine (ModalOps.browserOf (Modal.mkPage ∅ 0 [] [])) = true ∧
  Modal.isOpen
    (ModalOps.controller
       (ModalOps.reached (Modal.mkConfig "menu" None None true true true) 768
          (ModalOps.browserOf (Modal.mkPage ∅ 0 [] []))
          [ModalOps.Open; ModalOps.Toggle; ModalOps.Keydown "Escape"]).1) = false.
Proof.
  split; [reflexivity|].
  assert (Hm : Dom.getElementById
                 (Modal.modalId (Modal.mkConfig "menu" None None true true true))
                 (Modal.document
                    (ModalOps.page (ModalOps.browserOf (Modal.mkPage ∅ 0 [] []))))
               = None) by reflexivity.
  destruct (modal_without_element_is_inert
              (Modal.mkConfig "menu" None None true true true) 768
              (ModalOps.browserOf (Modal.mkPage ∅ 0 [] []))
              [ModalOps.Open; ModalOps.Toggle; ModalOps.Keydown "Escape"]
              eq_refl Hm) as [H1 H2].
  rewrite H1, H2. reflexivity.
Defined.

(** X19. A controller that found its modal invokes [onOpen] and
    [onClose] alternately, [onOpen] first, whatever the calls, clicks, keys,
    resizes and timeouts; [isOpen] holds exactly after an odd number of
    invocations.  From the first invocation on, the modal's [aria-hidden]
    and every trigger's label and [aria-expanded] say whether it is open. *)
Theorem modal_callbacks_alternate_and_aria_follows
    (cfg : Modal.Config) (breakpoint : Z) (b : ModalOps.Browser)
    (e0 : Dom.Element) (evs : list ModalOps.Event) :
  ModalOps.pristine b = true →
  Dom.getElementById (Modal.modalId cfg) (Modal.document (ModalOps.page b))
  = Some e0 →
  ∃ n,
    ModalOps.fired (ModalOps.reached cfg breakpoint b evs).2
    = ModalOps.fired b ++ ModalOps.alternation n ∧
    Modal.isOpen (ModalOps.controller (ModalOps.reached cfg breakpoint b evs).1)
    = Nat.odd n ∧
    (n ≠ 0%nat →
     ModalOps.elementHas
       (λ e, Dom.attributes e !! "aria-hidden"
             = Some (ModalOps.hiddenValue (Nat.odd n)))
       (Modal.modalId cfg)
       (Modal.document (ModalOps.page (ModalOps.reached cfg breakpoint b evs).2)) ∧
     ∀ t, t ∈ Modal.lookupAll (Modal.triggerIds cfg)
                (Modal.document (ModalOps.page b)) →
          ModalOps.elementHas
            (λ e, Dom.textContent e = ModalOps.triggerLabel (Nat.odd n) ∧
                  Dom.attributes e !! "aria-expanded"
                  = Some (ModalOps.expandedValue (Nat.odd n)))
            t
            (Modal.document
               (ModalOps.page (ModalOps.reached cfg breakpoint b evs).2))).
Proof.
  intros _ Hm.
  pose proof (run_wiring evs (ModalOps.create cfg breakpoint b)) as Hw.
  rewrite (create_found cfg breakpoint b e0 Hm) in Hw at 2.
  unfold ModalOps.wiring in Hw.
  cbn [fst snd ModalOps.controller Modal.triggers] in Hw.
  injection Hw as _ _ Hts _ _ _ _ _.
  destruct (run_invariant_modal
              (ModalOps.modalInv (Modal.modalId cfg) (ModalOps.fired b)) evs
              (open_inv _ _) (λ i, close_inv i _ _) (λ id, fireTimer_inv id _ _)
              _ (create_inv cfg breakpoint b e0 Hm))
    as (_ & _ & _ & n & Hf & Ho & Hn).
  exists n. unfold ModalOps.reached. split; [exact Hf|]. split; [exact Ho|].
  intros Hn0. destruct (Hn Hn0) as [H1 H2]. split; [exact H1|].
  intros t Ht. apply H2. rewrite Hts. exact Ht.
Qed.

Lemma modal_callbacks_alternate_and_aria_follows_witness :
  ModalOps.pristine
    (ModalOps.browserOf
       (Modal.mkPage {[ "menu" := Dom.mkElement [] ∅ [] ∅ true ]} 0 [] [])) = true ∧
  ∃ n,
    ModalOps.fired
      (ModalOps.reached (Modal.mkConfig "menu" None None true true true) 768
         (ModalOps.browserOf
            (Modal.mkPage {[ "menu" := Dom.mkElement [] ∅ [] ∅ true ]} 0 [] []))
         [ModalOps.Open; ModalOps.Keydown "Escape"; ModalOps.Toggle]).2
    = ModalOps.alternation n.
Proof.
  split; [reflexivity|].
  assert (Hm : Dom.getElementById
                 (Modal.modalId (Modal.mkConfig "menu" None None true true true))
                 (Modal.document
                    (ModalOps.page
                       (ModalOps.browserOf
                          (Modal.mkPage {[ "menu" := Dom.mkElement [] ∅ [] ∅ true ]}
                             0 [] []))))
               = Some (Dom.mkElement [] ∅ [] ∅ true)) by reflexivity.
  destruct (modal_callbacks_alternate_and_aria_follows
              (Modal.mkConfig "menu" None None true true true) 768
              (ModalOps.browserOf
                 (Modal.mkPage {[ "menu" := Dom.mkElement [] ∅ [] ∅ true ]} 0 [] []))
              (Dom.mkElement [] ∅ [] ∅ true)
              [ModalOps.Open; ModalOps.Keydown "Escape"; ModalOps.Toggle]
              eq_refl Hm) as (n & H & _).
  exists n. exact H.
Defined.

Section ModalStepFacts.
Import Dom Modal ModalOps.

Lemma open_closed_eq cfg m ts cs bp b :
  open (mkInstance (Modal.mkController cfg false (Some m) ts cs) bp, b)
  = (mkInstance (Modal.mkController cfg true (Some m) ts cs) bp,
     mkBrowser
       (withDocument
          (updateTriggers closeLabel (lit "true") ts
             (alter (setAttribute "aria-hidden" (lit "false")) m
                (alter (setProperty "display" "flex") m (document (page b)))))
          (page b))
       "hidden" (timers b ++ [(nextTimer b, RevealModal)]) (S (nextTimer b))
       (fired b ++ [OnOpen])).
Proof. reflexivity. Qed.

Lemma close_open_eq instant cfg m ts cs bp b :
  close instant (mkInstance (Modal.mkController cfg true (Some m) ts cs) bp, b)
  = (mkInstance (Modal.mkController cfg false (Some m) ts cs) bp,
     mkBrowser
       (withDocument
          (updateTriggers menuLabel (lit "false") ts
             (alter (setAttribute "aria-hidden" (lit "true")) m
                (alter (hideClasses instant) m (document (page b)))))
          (page b))
       (if instant then EmptyString else bodyOverflow b)
       (if instant then timers b else timers b ++ [(nextTimer b, HideModal)])
       (if instant then nextTimer b else S (nextTimer b))
       (fired b ++ [OnClose])).
Proof. reflexivity. Qed.

Lemma close_not_open instant st :
  isOpen (controller st.1) = false → close instant st = st.
Proof.
  destruct st as [[[cfg o mo ts cs] bp] b]. cbn [fst controller isOpen].
  intros ->. unfold close. cbn [controller modal isOpen negb].
  destruct mo; reflexivity.
Qed.

Lemma fireTimer_found id k id' task i b m :
  list_find (λ t : nat * Task, t.1 = id) (timers b) = Some (k, (id', task)) →
  modal (controller i) = Some m →
  fireTimer id (i, b)
  = (i, runTask task m
          (mkBrowser (page b) (bodyOverflow b)
             (filter (λ t, t.1 ≠ id) (timers b)) (nextTimer b) (fired b))).
Proof. intros Hf Hm. unfold fireTimer. rewrite Hf, Hm. reflexivity. Qed.

Lemma list_find_fresh (ts rest : list (nat * Task)) n x :
  Forall (λ t, t.1 < n)%nat ts →
  list_find (λ t : nat * Task, t.1 = n) (ts ++ (n, x) :: rest)
  = Some (length ts, (n, x)).
Proof.
  induction 1 as [|t ts Ht _ IH].
  - cbn [app list_find]. rewrite decide_True by reflexivity. reflexivity.
  - cbn [app list_find length]. rewrite decide_False by lia. rewrite IH. reflexivity.
Qed.

Lemma style_updateTrigger l v k x e :
  style e !! k = Some x → style (updateTrigger l v e) !! k = Some x.
Proof. intros H. exact H. Qed.

Lemma style_setAttribute a v k x e :
  style e !! k = Some x → style (setAttribute a v e) !! k = Some x.
Proof. intros H. exact H. Qed.

End ModalStepFacts.

(** X20. Reopening during the close transition.  An animated [close()]
    leaves a timeout that hides the modal and restores the body's scrolling;
    nothing cancels it.  If the modal is opened again before it fires, the
    controller ends up open, with [aria-hidden] false, while the modal has
    [display: none] and the body scrolls.  If the timeout fires first, the
    reopened modal has [display: flex] and the body does not scroll. *)
Theorem modal_reopened_during_close_ends_hidden
    (st : ModalOps.State) (m : string) :
  Modal.modal (ModalOps.controller st.1) = Some m →
  Modal.isOpen (ModalOps.controller st.1) = true →
  is_Some (Modal.document (ModalOps.page st.2) !! m) →
  Forall (λ t, t.1 < ModalOps.nextTimer st.2)%nat (ModalOps.timers st.2) →
  (Modal.isOpen
     (ModalOps.controller
        (ModalOps.run [ModalOps.Close false; ModalOps.Open;
                       ModalOps.Fire (ModalOps.nextTimer st.2)] st).1) = true ∧
   ModalOps.bodyOverflow
     (ModalOps.run [ModalOps.Close false; ModalOps.Open;
                    ModalOps.Fire (ModalOps.nextTimer st.2)] st).2 = EmptyString ∧
   ModalOps.elementHas (λ e, Dom.style e !! "display" = Some "none") m
     (Modal.document
        (ModalOps.page
           (ModalOps.run [ModalOps.Close false; ModalOps.Open;
                          ModalOps.Fire (ModalOps.nextTimer st.2)] st).2)) ∧
   ModalOps.elementHas
     (λ e, Dom.attributes e !! "aria-hidden" = Some (lit "false")) m
     (Modal.document
        (ModalOps.page
           (ModalOps.run [ModalOps.Close false; ModalOps.Open;
                          ModalOps.Fire (ModalOps.nextTimer st.2)] st).2))) ∧
  (Modal.isOpen
     (ModalOps.controller
        (ModalOps.run [ModalOps.Close false;
                       ModalOps.Fire (ModalOps.nextTimer st.2);
                       ModalOps.Open] st).1) = true ∧
   ModalOps.bodyOverflow
     (ModalOps.run [ModalOps.Close false;
                    ModalOps.Fire (ModalOps.nextTimer st.2);
                    ModalOps.Open] st).2 = "hidden" ∧
   ModalOps.elementHas (λ e, Dom.style e !! "display" = Some "flex") m
     (Modal.document
        (ModalOps.page
           (ModalOps.run [ModalOps.Close false;
                          ModalOps.Fire (ModalOps.nextTimer st.2);
                          ModalOps.Open] st).2))).
Proof.
  destruct st as [[[cfg o mo ts cs] bp] [p ov tm nt f]].
  cbn [fst snd ModalOps.controller Modal.modal Modal.isOpen ModalOps.page
       ModalOps.timers ModalOps.nextTimer].
  intros -> -> Hdm Hfresh.
  unfold ModalOps.run. cbn [fold_left ModalOps.step].
  rewrite close_open_eq.
  cbn [ModalOps.page ModalOps.timers ModalOps.nextTimer ModalOps.bodyOverflow
       ModalOps.fired].
  split.
  - rewrite open_closed_eq.
    cbn [ModalOps.page ModalOps.timers ModalOps.nextTimer ModalOps.bodyOverflow
         ModalOps.fired ModalOps.withDocument Modal.document].
    rewrite (fireTimer_found nt (length tm) nt ModalOps.HideModal _ _ m);
      [|rewrite <- app_assoc; apply list_find_fresh; exact Hfresh | reflexivity].
    cbn [fst snd ModalOps.controller Modal.isOpen ModalOps.runTask
         ModalOps.bodyOverflow ModalOps.page ModalOps.withDocument
         Modal.document].
    split; [reflexivity|]. split; [reflexivity|]. split.
    + apply elementHas_alter_set; [intros e; apply lookup_insert_eq|].
      rewrite !updateTriggers_is_Some, !lookup_alter_is_Some,
        !updateTriggers_is_Some, !lookup_alter_is_Some. exact Hdm.
    + apply elementHas_alter_frame; [intros e He; exact He|].
      apply updateTriggers_frame; [intros e; apply updateTrigger_hidden|].
      apply elementHas_alter_set; [intros e; apply lookup_insert_eq|].
      rewrite !lookup_alter_is_Some, !updateTriggers_is_Some,
        !lookup_alter_is_Some. exact Hdm.
  - rewrite (fireTimer_found nt (length tm) nt ModalOps.HideModal _ _ m);
      [|apply list_find_fresh; exact Hfresh | reflexivity].
    cbn [ModalOps.runTask ModalOps.page ModalOps.timers ModalOps.nextTimer
         ModalOps.bodyOverflow ModalOps.fired ModalOps.withDocument
         Modal.document Modal.navLinks Modal.listeners Modal.warnings].
    rewrite open_closed_eq.
    cbn [fst snd ModalOps.controller Modal.isOpen ModalOps.bodyOverflow
         ModalOps.page ModalOps.withDocument Modal.document].
    split; [reflexivity|]. split; [reflexivity|].
    apply updateTriggers_frame; [intros e; apply style_updateTrigger|].
    apply elementHas_alter_frame; [intros e; apply style_setAttribute|].
    apply elementHas_alter_set; [intros e; apply lookup_insert_eq|].
    rewrite !lookup_alter_is_Some, !updateTriggers_is_Some,
      !lookup_alter_is_Some. exact Hdm.
Qed.

Lemma modal_reopened_during_close_ends_hidden_witness :
  Modal.modal (ModalOps.controller (ModalOps.openOn "menu").1) = Some "menu" ∧
  Modal.isOpen (ModalOps.controller (ModalOps.openOn "menu").1) = true ∧
  Modal.isOpen
    (ModalOps.controller
       (ModalOps.run [ModalOps.Close false; ModalOps.Open; ModalOps.Fire 0]
          (ModalOps.openOn "menu")).1) = true ∧
  ModalOps.bodyOverflow
    (ModalOps.run [ModalOps.Close false; ModalOps.Open; ModalOps.Fire 0]
       (ModalOps.openOn "menu")).2 = EmptyString.
Proof.
  assert (Hd : is_Some (Modal.document (ModalOps.page (ModalOps.openOn "menu").2)
                        !! "menu"))
    by (exists (Dom.mkElement [] ∅ [] ∅ true); reflexivity).
  assert (Hf : Forall (λ t : nat * ModalOps.Task,
                         t.1 < ModalOps.nextTimer (ModalOps.openOn "menu").2)%nat
                 (ModalOps.timers (ModalOps.openOn "menu").2)) by constructor.
  split; [reflexivity|]. split; [reflexivity|].
  destruct (modal_reopened_during_close_ends_hidden (ModalOps.openOn "menu") "menu"
              eq_refl eq_refl Hd Hf) as ((H1 & H2 & _) & _).
  split; [exact H1 | exact H2].
Defined.

Section ModalDispatchFacts.
Import Dom Modal ModalOps.

Lemma reacts_app ev ls ls' st :
  reacts ev (ls ++ ls') st = reacts ev ls' (reacts ev ls st).
Proof. apply fold_left_app. Qed.

Lemma reacts_cons ev l ls st :
  reacts ev (l :: ls) st = reacts ev ls (react ev l st).
Proof. reflexivity. Qed.

Lemma reacts_ignored ev ls :
  Forall (λ l, ∀ st, react ev l st = st) ls → ∀ st, reacts ev ls st = st.
Proof.
  induction 1 as [|l ls Hl _ IH]; intros st; [reflexivity|].
  unfold reacts in *. cbn [fold_left]. rewrite Hl. apply IH.
Qed.

Lemma attachListeners_eq c p :
  listeners (_attachListeners c p)
  = listeners p ++ map TriggerClick (triggers c) ++ map CloseClick (closeButtons c)
    ++ navListeners (config c) (navLinks p) ++ keyListeners (config c)
    ++ resizeListeners (config c).
Proof.
  unfold _attachListeners, navListeners, keyListeners, resizeListeners.
  cbn [listeners]. f_equal.
  destruct (closeOnNavigation (config c)), (closeOnEscape (config c)),
    (closeOnResize (config c));
    rewrite <- ?app_assoc, ?app_nil_r; reflexivity.
Qed.

(** What a state reached by a controller that found its modal keeps. *)
Lemma reached_wiring cfg bp b e0 evs :
  pristine b = true →
  getElementById (modalId cfg) (document (page b)) = Some e0 →
  config (controller (reached cfg bp b evs).1) = cfg ∧
  modal (controller (reached cfg bp b evs).1) = Some (modalId cfg) ∧
  triggers (controller (reached cfg bp b evs).1)
  = lookupAll (triggerIds cfg) (document (page b)) ∧
  closeButtons (controller (reached cfg bp b evs).1)
  = lookupAll (closeIds cfg) (document (page b)) ∧
  resizeBreakpoint (reached cfg bp b evs).1 = bp ∧
  listeners (page (reached cfg bp b evs).2)
  = map TriggerClick (lookupAll (triggerIds cfg) (document (page b)))
    ++ map CloseClick (lookupAll (closeIds cfg) (document (page b)))
    ++ navListeners cfg (navLinks (page b)) ++ keyListeners cfg
    ++ resizeListeners cfg.
Proof.
  intros Hp Hm. apply pristine_fields in Hp as [Hls _].
  pose proof (run_wiring evs (create cfg bp b)) as Hw.
  rewrite (create_found cfg bp b e0 Hm) in Hw at 2.
  unfold wiring in Hw. cbn [fst snd controller page config modal triggers
    closeButtons resizeBreakpoint] in Hw.
  rewrite attachListeners_eq, Hls in Hw.
  cbn [app config triggers closeButtons] in Hw.
  injection Hw as H1 H2 H3 H4 H5 H6 _ _. unfold reached. auto 10.
Qed.

Lemma toggle_flips st m :
  modal (controller st.1) = Some m →
  modal (controller (toggle st).1) = Some m ∧
  isOpen (controller (toggle st).1) = negb (isOpen (controller st.1)).
Proof.
  destruct st as [[[cfg o mo ts cs] bp] b]. cbn [fst controller modal isOpen].
  intros ->. unfold toggle. cbn [fst controller isOpen].
  destruct o; [rewrite close_open_eq | rewrite open_closed_eq]; auto.
Qed.

Lemma close_closes instant st m :
  modal (controller st.1) = Some m →
  modal (controller (close instant st).1) = Some m ∧
  isOpen (controller (close instant st).1) = false.
Proof.
  destruct st as [[[cfg o mo ts cs] bp] b]. cbn [fst controller modal isOpen].
  intros ->. destruct o; [rewrite close_open_eq; auto|].
  rewrite close_not_open by reflexivity. auto.
Qed.

Lemma occurrences_cons id t ts :
  occurrences id (t :: ts)
  = if decide (t = id) then S (occurrences id ts) else occurrences id ts.
Proof.
  unfold occurrences. rewrite filter_cons. destruct (decide (t = id)); reflexivity.
Qed.

Lemma click_triggers id m ts :
  ∀ st, modal (controller st.1) = Some m →
  modal (controller (reacts (ClickElement id) (map TriggerClick ts) st).1) = Some m ∧
  isOpen (controller (reacts (ClickElement id) (map TriggerClick ts) st).1)
  = xorb (isOpen (controller st.1)) (Nat.odd (occurrences id ts)).
Proof.
  induction ts as [|t ts IH]; intros st Hm.
  - cbn. rewrite xorb_false_r. auto.
  - cbn [map]. rewrite reacts_cons, occurrences_cons.
    change (react (ClickElement id) (TriggerClick t) st)
      with (if bool_decide (id = t) then toggle st else st).
    destruct (decide (id = t)) as [<-|Hid].
    + rewrite bool_decide_true by reflexivity.
      destruct (toggle_flips st m Hm) as [Hm' Ho'].
      destruct (IH _ Hm') as [H1 H2]. split; [exact H1|].
      rewrite H2, Ho', decide_True by reflexivity.
      rewrite Nat.odd_succ, <- Nat.negb_odd.
      destruct (isOpen (controller st.1)), (Nat.odd (occurrences id ts));
        reflexivity.
    + rewrite bool_decide_false by exact Hid.
      destruct (IH _ Hm) as [H1 H2]. split; [exact H1|].
      rewrite H2, decide_False by congruence. reflexivity.
Qed.

Lemma click_closers id m cs :
  ∀ st, modal (controller st.1) = Some m →
  modal (controller (reacts (ClickElement id) (map CloseClick cs) st).1) = Some m ∧
  isOpen (controller (reacts (ClickElement id) (map CloseClick cs) st).1)
  = if bool_decide (id ∈ cs) then false else isOpen (controller st.1).
Proof.
  induction cs as [|t cs IH]; intros st Hm.
  - cbn. auto.
  - cbn [map]. rewrite reacts_cons.
    change (react (ClickElement id) (CloseClick t) st)
      with (if bool_decide (id = t) then close false st else st).
    destruct (decide (id = t)) as [->|Hne].
    + rewrite bool_decide_true by reflexivity.
      destruct (close_closes false st m Hm) as [Hm' Ho'].
      destruct (IH _ Hm') as [H1 H2]. split; [exact H1|].
      rewrite H2, Ho'. rewrite (bool_decide_true (t ∈ t :: cs)) by left.
      destruct (bool_decide _); reflexivity.
    + rewrite bool_decide_false by exact Hne.
      destruct (IH _ Hm) as [H1 H2]. split; [exact H1|]. rewrite H2.
      rewrite (bool_decide_ext (id ∈ t :: cs) (id ∈ cs));
        [reflexivity | rewrite elem_of_cons; tauto].
Qed.

Lemma click_tail_ignored id cfg k st :
  reacts (ClickElement id)
    (navListeners cfg k ++ keyListeners cfg ++ resizeListeners cfg) st = st.
Proof.
  apply reacts_ignored. rewrite !Forall_app.
  unfold navListeners, keyListeners, resizeListeners.
  destruct (closeOnNavigation cfg), (closeOnEscape cfg), (closeOnResize cfg);
    repeat split; try (repeat constructor; fail);
    apply Forall_map, Forall_forall; intros; reflexivity.
Qed.

(** A click on the element [id], in a state whose listeners are the
    registered ones. *)
Lemma click_element_isOpen st m id cfg k :
  modal (controller st.1) = Some m →
  listeners (page st.2)
  = map TriggerClick (triggers (controller st.1))
    ++ map CloseClick (closeButtons (controller st.1))
    ++ navListeners cfg k ++ keyListeners cfg ++ resizeListeners cfg →
  isOpen (controller (step (ClickElement id) st).1)
  = if bool_decide (id ∈ closeButtons (controller st.1)) then false
    else xorb (isOpen (controller st.1))
              (Nat.odd (occurrences id (triggers (controller st.1)))).
Proof.
  intros Hm Hls. cbn [step]. unfold dispatch. rewrite Hls.
  change (fold_left _ ?ls ?s) with (reacts (ClickElement id) ls s).
  do 2 rewrite reacts_app. rewrite click_tail_ignored.
  destruct (click_triggers id m (triggers (controller st.1)) st Hm) as [Hm1 Ho1].
  destruct (click_closers id m (closeButtons (controller st.1)) _ Hm1) as [_ Ho2].
  rewrite Ho2, Ho1. reflexivity.
Qed.

End ModalDispatchFacts.

(** X21. A click on an element runs the listeners put on it: one
    [toggle()] for every time its id is listed in [triggerIds], then
    [close()] if it is listed in [closeIds].  So afterwards the modal is
    closed if the element is a close button, and otherwise its state has
    flipped exactly when the id is listed an odd number of times: a trigger
    listed twice opens and closes at once. *)
Theorem modal_click_toggles_once_per_listing
    (cfg : Modal.Config) (breakpoint : Z) (b : ModalOps.Browser)
    (e0 : Dom.Element) (evs : list ModalOps.Event) (id : string) :
  ModalOps.pristine b = true →
  Dom.getElementById (Modal.modalId cfg) (Modal.document (ModalOps.page b))
  = Some e0 →
  Modal.isOpen
    (ModalOps.controller
       (ModalOps.step (ModalOps.ClickElement id)
          (ModalOps.reached cfg breakpoint b evs)).1)
  = if bool_decide
         (id ∈ Modal.lookupAll (Modal.closeIds cfg)
                 (Modal.document (ModalOps.page b)))
    then false
    else xorb (Modal.isOpen
                 (ModalOps.controller (ModalOps.reached cfg breakpoint b evs).1))
              (Nat.odd
                 (ModalOps.occurrences id
                    (Modal.lookupAll (Modal.triggerIds cfg)
                       (Modal.document (ModalOps.page b))))).
Proof.
  intros Hp Hm.
  destruct (reached_wiring cfg breakpoint b e0 evs Hp Hm)
    as (_ & H2 & H3 & H4 & _ & H6).
  rewrite <- H3, <- H4 in H6 |- *.
  apply (click_element_isOpen _ (Modal.modalId cfg) id cfg
           (Modal.navLinks (ModalOps.page b))); assumption.
Qed.

Lemma modal_click_toggles_once_per_listing_witness :
  ModalOps.pristine
    (ModalOps.browserOf
       (Modal.mkPage {[ "menu" := Dom.mkElement [] ∅ [] ∅ true;
                        "btn" := Dom.mkElement [] ∅ [] ∅ true ]} 0 [] [])) = true ∧
  Modal.isOpen
    (ModalOps.controller
       (ModalOps.step (ModalOps.ClickElement "btn")
          (ModalOps.reached
             (Modal.mkConfig "menu" (Some ["btn"; "btn"]) None true true true) 768
             (ModalOps.browserOf
                (Modal.mkPage {[ "menu" := Dom.mkElement [] ∅ [] ∅ true;
                                 "btn" := Dom.mkElement [] ∅ [] ∅ true ]} 0 [] []))
             [])).1) = false.
Proof.
  split; [reflexivity|].
  assert (Hm : Dom.getElementById
                 (Modal.modalId
                    (Modal.mkConfig "menu" (Some ["btn"; "btn"]) None true true true))
                 (Modal.document
                    (ModalOps.page
                       (ModalOps.browserOf
                          (Modal.mkPage
                             {[ "menu" := Dom.mkElement [] ∅ [] ∅ true;
                                "btn" := Dom.mkElement [] ∅ [] ∅ true ]} 0 [] []))))
               = Some (Dom.mkElement [] ∅ [] ∅ true)) by reflexivity.
  rewrite (modal_click_toggles_once_per_listing
             (Modal.mkConfig "menu" (Some ["btn"; "btn"]) None true true true) 768
             (ModalOps.browserOf
                (Modal.mkPage {[ "menu" := Dom.mkElement [] ∅ [] ∅ true;
                                 "btn" := Dom.mkElement [] ∅ [] ∅ true ]} 0 [] []))
             (Dom.mkElement [] ∅ [] ∅ true) [] "btn" eq_refl Hm).
  reflexivity.
Defined.

Section ModalKeyFacts.
Import Dom Modal ModalOps.

Lemma head_ignored ev ts cs st :
  (∀ id, ev ≠ ClickElement id) →
  reacts ev (map TriggerClick ts ++ map CloseClick cs) st = st.
Proof.
  intros Hev. apply reacts_ignored. rewrite Forall_app.
  split; apply Forall_map, Forall_forall; intros t _ s;
    destruct ev; try reflexivity; exfalso; eapply Hev; reflexivity.
Qed.

Lemma nav_links_react n k :
  ∀ a st,
  reacts (ClickNavLink n) (map NavLinkClick (seq a k)) st
  = if bool_decide (a ≤ n < a + k)%nat then close true st else st.
Proof.
  induction k as [|k IH]; intros a st.
  - rewrite bool_decide_false by lia. reflexivity.
  - cbn [seq map]. rewrite reacts_cons, IH.
    change (react (ClickNavLink n) (NavLinkClick a) st)
      with (if bool_decide (n = a) then close true st else st).
    destruct (decide (n = a)) as [->|Hne].
    + rewrite (bool_decide_true (a = a)) by reflexivity.
      rewrite (bool_decide_false (S a ≤ a < _)%nat) by lia.
      rewrite bool_decide_true by lia. reflexivity.
    + rewrite (bool_decide_false (n = a)) by exact Hne.
      apply (f_equal (λ c : bool, if c then close true st else st)).
      apply bool_decide_ext. lia.
Qed.

Lemma close_if_open (c : bool) instant st :
  (if c && isOpen (controller st.1) then close instant st else st)
  = if c then close instant st else st.
Proof.
  destruct c; cbn [andb]; [|reflexivity].
  destruct (isOpen (controller st.1)) eqn:Ho; [reflexivity|].
  symmetry. apply close_not_open, Ho.
Qed.

(** Key presses, resizes and clicks on navigation links, in a state whose
    listeners are the registered ones. *)
Lemma other_events st cfg ts cs k :
  listeners (page st.2)
  = map TriggerClick ts ++ map CloseClick cs
    ++ navListeners cfg k ++ keyListeners cfg ++ resizeListeners cfg →
  (∀ key, step (Keydown key) st
          = if closeOnEscape cfg && bool_decide (key = "Escape")
            then close false st else st) ∧
  (∀ w, step (Resize w) st
        = if closeOnResize cfg && (resizeBreakpoint st.1 <=? w)%Z
          then close false st else st) ∧
  (∀ n, step (ClickNavLink n) st
        = if closeOnNavigation cfg && bool_decide (n < k)%nat
          then close true st else st).
Proof.
  intros Hls. split; [|split]; intros x; cbn [step]; unfold dispatch; rewrite Hls.
  - change (fold_left _ ?ls ?s) with (reacts (Keydown x) ls s).
    rewrite app_assoc, reacts_app, head_ignored by discriminate.
    rewrite !reacts_app. unfold navListeners, keyListeners, resizeListeners.
    destruct (closeOnNavigation cfg), (closeOnEscape cfg), (closeOnResize cfg);
      cbn [andb];
      rewrite ?(reacts_ignored _ (map NavLinkClick _))
        by (apply Forall_map, Forall_forall; reflexivity);
      cbn [reacts fold_left react]; rewrite ?close_if_open; reflexivity.
  - change (fold_left _ ?ls ?s) with (reacts (Resize x) ls s).
    rewrite app_assoc, reacts_app, head_ignored by discriminate.
    rewrite !reacts_app. unfold navListeners, keyListeners, resizeListeners.
    destruct (closeOnNavigation cfg), (closeOnEscape cfg), (closeOnResize cfg);
      cbn [andb];
      rewrite ?(reacts_ignored _ (map NavLinkClick _))
        by (apply Forall_map, Forall_forall; reflexivity);
      cbn [reacts fold_left react]; rewrite ?close_if_open; reflexivity.
  - change (fold_left _ ?ls ?s) with (reacts (ClickNavLink x) ls s).
    rewrite app_assoc, reacts_app, head_ignored by discriminate.
    rewrite !reacts_app. unfold navListeners, keyListeners, resizeListeners.
    destruct (closeOnNavigation cfg), (closeOnEscape cfg), (closeOnResize cfg);
      cbn [andb]; rewrite ?nav_links_react;
      cbn [reacts fold_left react];
      try (apply (f_equal (λ c : bool, if c then close true st else st)),
             bool_decide_ext; lia);
      reflexivity.
Qed.

End ModalKeyFacts.

(** X22. Which events close the modal.  In any state of a controller
    that found its modal, a key press does what [close()] does if
    [closeOnEscape] is on and the key is Escape, and nothing otherwise; a
    resize does what [close()] does if [closeOnResize] is on and the window
    is at least [resizeBreakpoint] wide, and nothing otherwise; a click on
    one of the modal's navigation links does what [close(true)] does if
    [closeOnNavigation] is on, and nothing otherwise. *)
Theorem modal_key_resize_and_navigation_close
    (cfg : Modal.Config) (breakpoint : Z) (b : ModalOps.Browser)
    (e0 : Dom.Element) (evs : list ModalOps.Event)
    (key : string) (innerWidth : Z) (link : nat) :
  ModalOps.pristine b = true →
  Dom.getElementById (Modal.modalId cfg) (Modal.document (ModalOps.page b))
  = Some e0 →
  ModalOps.step (ModalOps.Keydown key) (ModalOps.reached cfg breakpoint b evs)
  = (if Modal.closeOnEscape cfg && bool_decide (key = "Escape")
     then ModalOps.close false (ModalOps.reached cfg breakpoint b evs)
     else ModalOps.reached cfg breakpoint b evs) ∧
  ModalOps.step (ModalOps.Resize innerWidth) (ModalOps.reached cfg breakpoint b evs)
  = (if Modal.closeOnResize cfg && (breakpoint <=? innerWidth)%Z
     then ModalOps.close false (ModalOps.reached cfg breakpoint b evs)
     else ModalOps.reached cfg breakpoint b evs) ∧
  ModalOps.step (ModalOps.ClickNavLink link) (ModalOps.reached cfg breakpoint b evs)
  = (if Modal.closeOnNavigation cfg
        && bool_decide (link < Modal.navLinks (ModalOps.page b))%nat
     then ModalOps.close true (ModalOps.reached cfg breakpoint b evs)
     else ModalOps.reached cfg breakpoint b evs).
Proof.
  intros Hp Hm.
  destruct (reached_wiring cfg breakpoint b e0 evs Hp Hm)
    as (_ & _ & _ & _ & H5 & H6).
  destruct (other_events _ cfg _ _ _ H6) as (Hk & Hr & Hn).
  rewrite Hk, Hr, Hn, H5. auto.
Qed.

Lemma modal_key_resize_and_navigation_close_witness :
  ModalOps.pristine
    (ModalOps.browserOf
       (Modal.mkPage {[ "menu" := Dom.mkElement [] ∅ [] ∅ true ]} 2 [] [])) = true ∧
  Modal.isOpen
    (ModalOps.controller
       (ModalOps.step (ModalOps.Keydown "Escape")
          (ModalOps.reached (Modal.mkConfig "menu" None None true true true) 768
             (ModalOps.browserOf
                (Modal.mkPage {[ "menu" := Dom.mkElement [] ∅ [] ∅ true ]} 2 [] []))
             [ModalOps.Open])).1) = false.
Proof.
  split; [reflexivity|].
  assert (Hm : Dom.getElementById
                 (Modal.modalId (Modal.mkConfig "menu" None None true true true))
                 (Modal.document
                    (ModalOps.page
                       (ModalOps.browserOf
                          (Modal.mkPage {[ "menu" := Dom.mkElement [] ∅ [] ∅ true ]}
                             2 [] []))))
               = Some (Dom.mkElement [] ∅ [] ∅ true)) by reflexivity.
  destruct (modal_key_resize_and_navigation_close
              (Modal.mkConfig "menu" None None true true true) 768
              (ModalOps.browserOf
                 (Modal.mkPage {[ "menu" := Dom.mkElement [] ∅ [] ∅ true ]} 2 [] []))
              (Dom.mkElement [] ∅ [] ∅ true) [ModalOps.Open]
              "Escape" 1024 0 eq_refl Hm) as (H & _).
  rewrite H. reflexivity.
Defined.

Section ModalDestroyFacts.
Import Dom Modal ModalOps.

Lemma reached_snoc cfg bp b evs ev :
  reached cfg bp b (evs ++ [ev]) = step ev (reached cfg bp b evs).
Proof. unfold reached, run. rewrite fold_left_app. reflexivity. Qed.

Lemma close_instant_timers st :
  timers (close true st).2 = timers st.2 ∧
  nextTimer (close true st).2 = nextTimer st.2.
Proof.
  destruct st as [[[cfg o mo ts cs] bp] b]. unfold close.
  cbn [controller modal isOpen]. destruct mo, o; auto.
Qed.

Lemma close_instant_hides st m :
  modal (controller st.1) = Some m → isOpen (controller st.1) = true →
  is_Some (document (page st.2) !! m) →
  bodyOverflow (close true st).2 = EmptyString ∧
  elementHas (λ e, style e !! "display" = Some "none") m
             (document (page (close true st).2)).
Proof.
  destruct st as [[[cfg o mo ts cs] bp] b].
  cbn [fst snd controller modal isOpen]. intros -> -> Hdm.
  rewrite close_open_eq. cbn [snd bodyOverflow page withDocument document].
  split; [reflexivity|].
  apply updateTriggers_frame; [intros e; apply style_updateTrigger|].
  apply elementHas_alter_frame; [intros e; apply style_setAttribute|].
  apply elementHas_alter_set; [|exact Hdm].
  intros e. unfold hideClasses, classRemove, classAdd, setProperty.
  cbn [style]. apply lookup_insert_eq.
Qed.

End ModalDestroyFacts.

(** X23. [destroy()] closes the modal at once, without a timeout, but
    removes no listener: the modal is closed afterwards, hidden and with the
    body scrolling again if it was open, and the listeners on the page are
    the same as before.  The controller keeps reacting: a later click on an
    element listed an odd number of times in [triggerIds], and not in
    [closeIds], opens the modal again. *)
Theorem modal_destroy_closes_but_keeps_listeners
    (cfg : Modal.Config) (breakpoint : Z) (b : ModalOps.Browser)
    (e0 : Dom.Element) (evs : list ModalOps.Event) (id : string) :
  ModalOps.pristine b = true →
  Dom.getElementById (Modal.modalId cfg) (Modal.document (ModalOps.page b))
  = Some e0 →
  Modal.isOpen
    (ModalOps.controller
       (ModalOps.reached cfg breakpoint b (evs ++ [ModalOps.Destroy])).1) = false ∧
  Modal.listeners
    (ModalOps.page (ModalOps.reached cfg breakpoint b (evs ++ [ModalOps.Destroy])).2)
  = Modal.listeners (ModalOps.page (ModalOps.reached cfg breakpoint b evs).2) ∧
  ModalOps.timers (ModalOps.reached cfg breakpoint b (evs ++ [ModalOps.Destroy])).2
  = ModalOps.timers (ModalOps.reached cfg breakpoint b evs).2 ∧
  (if Modal.isOpen (ModalOps.controller (ModalOps.reached cfg breakpoint b evs).1)
   then ModalOps.bodyOverflow
          (ModalOps.reached cfg breakpoint b (evs ++ [ModalOps.Destroy])).2
        = EmptyString ∧
        ModalOps.elementHas (λ e, Dom.style e !! "display" = Some "none")
          (Modal.modalId cfg)
          (Modal.document
             (ModalOps.page
                (ModalOps.reached cfg breakpoint b (evs ++ [ModalOps.Destroy])).2))
   else ModalOps.reached cfg breakpoint b (evs ++ [ModalOps.Destroy])
        = ModalOps.reached cfg breakpoint b evs) ∧
  Modal.isOpen
    (ModalOps.controller
       (ModalOps.reached cfg breakpoint b
          ((evs ++ [ModalOps.Destroy]) ++ [ModalOps.ClickElement id])).1)
  = if bool_decide
         (id ∈ Modal.lookupAll (Modal.closeIds cfg)
                 (Modal.document (ModalOps.page b)))
    then false
    else Nat.odd
           (ModalOps.occurrences id
              (Modal.lookupAll (Modal.triggerIds cfg)
                 (Modal.document (ModalOps.page b)))).
Proof.
  intros Hp Hm.
  destruct (reached_wiring cfg breakpoint b e0 evs Hp Hm)
    as (_ & Hmod & _ & _ & _ & Hls).
  destruct (reached_wiring cfg breakpoint b e0 (evs ++ [ModalOps.Destroy]) Hp Hm)
    as (_ & Hmod' & Hts' & Hcs' & _ & Hls').
  assert (Hclosed : Modal.isOpen
            (ModalOps.controller
               (ModalOps.reached cfg breakpoint b (evs ++ [ModalOps.Destroy])).1)
            = false).
  { rewrite reached_snoc. cbn [ModalOps.step]. unfold ModalOps.destroy.
    apply (close_closes true _ _ Hmod). }
  split; [exact Hclosed|]. split; [rewrite Hls, Hls'; reflexivity|].
  split; [rewrite reached_snoc; cbn [ModalOps.step]; unfold ModalOps.destroy;
          apply close_instant_timers|].
  split.
  - destruct (Modal.isOpen
                (ModalOps.controller (ModalOps.reached cfg breakpoint b evs).1))
      eqn:Ho.
    + rewrite reached_snoc. cbn [ModalOps.step]. unfold ModalOps.destroy.
      apply close_instant_hides; [exact Hmod | exact Ho|].
      destruct (run_invariant_modal
                  (ModalOps.modalInv (Modal.modalId cfg) (ModalOps.fired b)) evs
                  (open_inv _ _) (λ i, close_inv i _ _)
                  (λ id', fireTimer_inv id' _ _)
                  _ (create_inv cfg breakpoint b e0 Hm)) as (_ & Hdm & _).
      exact Hdm.
    + rewrite reached_snoc. cbn [ModalOps.step]. unfold ModalOps.destroy.
      apply close_not_open, Ho.
  - rewrite reached_snoc. rewrite <- Hts', <- Hcs' in Hls' |- *.
    rewrite (click_element_isOpen _ (Modal.modalId cfg) id cfg
               (Modal.navLinks (ModalOps.page b)) Hmod' Hls').
    rewrite Hclosed. destruct (bool_decide _); [reflexivity|].
    apply xorb_false_l.
Qed.

Lemma modal_destroy_closes_but_keeps_listeners_witness :
  ModalOps.pristine
    (ModalOps.browserOf
       (Modal.mkPage {[ "menu" := Dom.mkElement [] ∅ [] ∅ true;
                        "btn" := Dom.mkElement [] ∅ [] ∅ true ]} 0 [] [])) = true ∧
  Modal.isOpen
    (ModalOps.controller
       (ModalOps.reached
          (Modal.mkConfig "menu" (Some ["btn"]) None true true true) 768
          (ModalOps.browserOf
             (Modal.mkPage {[ "menu" := Dom.mkElement [] ∅ [] ∅ true;
                              "btn" := Dom.mkElement [] ∅ [] ∅ true ]} 0 [] []))
          (([ModalOps.Open] ++ [ModalOps.Destroy])
           ++ [ModalOps.ClickElement "btn"])).1) = true.
Proof.
  split; [reflexivity|].
  assert (Hm : Dom.getElementById
                 (Modal.modalId
                    (Modal.mkConfig "menu" (Some ["btn"]) None true true true))
                 (Modal.document
                    (ModalOps.page
                       (ModalOps.browserOf
                          (Modal.mkPage
                             {[ "menu" := Dom.mkElement [] ∅ [] ∅ true;
                                "btn" := Dom.mkElement [] ∅ [] ∅ true ]} 0 [] []))))
               = Some (Dom.mkElement [] ∅ [] ∅ true)) by reflexivity.
  destruct (modal_destroy_closes_but_keeps_listeners
              (Modal.mkConfig "menu" (Some ["btn"]) None true true true) 768
              (ModalOps.browserOf
                 (Modal.mkPage {[ "menu" := Dom.mkElement [] ∅ [] ∅ true;
                                  "btn" := Dom.mkElement [] ∅ [] ∅ true ]} 0 [] []))
              (Dom.mkElement [] ∅ [] ∅ true) [ModalOps.Open] "btn" eq_refl Hm)
    as (_ & _ & _ & _ & H).
  rewrite H. reflexivity.
Defined.

Section RemountFacts.

Lemma hook_unmount_session st : Hook.session (Hook.unmount st).2 = Hook.session st.2.
Proof.
  destruct st as [f w]. unfold Hook.unmount, Hook.typingCleanupRun.
  destruct (Hook.typingCleanup f); [|reflexivity].
  unfold Hook.clearTimeoutRef. destruct (Hook.timeoutRef f); reflexivity.
Qed.

Lemma prompt_unmount_session st :
  Prompt.session (Prompt.unmount st).2 = Prompt.session st.2.
Proof.
  destruct st as [f w]. unfold Prompt.unmount, Prompt.typingCleanupRun.
  destruct (Prompt.typingCleanup f); reflexivity.
Qed.

End RemountFacts.

(** X24. Unmounting and mounting again in the same session.  An
    animation that has not ended when its component unmounts leaves no
    trace in the session storage: the next mount does exactly what the first
    one did, so the text is typed again from its first character.  One that
    has ended, by completion or by a skip, is not replayed: the next mount
    shows the whole text at once and leaves no timeout pending.  This holds
    for [useTypewriterAnimation] and for TerminalPrompt. *)
Theorem unfinished_animation_replays_finished_one_does_not
    (text : jsstring) (key : string) (s : Session.t) (n n' : nat)
    (evs : list Hook.Event)
    (ps : Session.t) (pn pn' : nat) (pevs : list Prompt.Event) :
  (if Hook.isComplete (Hook.reached text key s n evs).1
   then Hook.displayText
          (Hook.mount text key
             (Hook.mkWindow
                (Hook.session (Hook.unmount (Hook.reached text key s n evs)).2)
                [] n')).1 = text ∧
        Hook.isComplete
          (Hook.mount text key
             (Hook.mkWindow
                (Hook.session (Hook.unmount (Hook.reached text key s n evs)).2)
                [] n')).1 = true ∧
        Hook.timers
          (Hook.mount text key
             (Hook.mkWindow
                (Hook.session (Hook.unmount (Hook.reached text key s n evs)).2)
                [] n')).2 = []
   else Hook.mount text key
          (Hook.mkWindow
             (Hook.session (Hook.unmount (Hook.reached text key s n evs)).2) [] n')
        = Hook.mount text key (Hook.mkWindow s [] n')) ∧
  (if Prompt.hasPlayed (Prompt.reached ps pn pevs).1
   then Prompt.mount
          (Prompt.mkWindow
             (Prompt.session (Prompt.unmount (Prompt.reached ps pn pevs)).2) [] pn')
        = (Prompt.mkFiber Prompt.fullText (length Prompt.fullText) true None
             (Some true) [],
           Prompt.mkWindow
             (Prompt.session (Prompt.unmount (Prompt.reached ps pn pevs)).2) [] pn')
   else Prompt.mount
          (Prompt.mkWindow
             (Prompt.session (Prompt.unmount (Prompt.reached ps pn pevs)).2) [] pn')
        = Prompt.mount (Prompt.mkWindow ps [] pn')).
Proof.
  split.
  - rewrite hook_unmount_session.
    pose proof (hook_reached_settled text key s n evs) as Hset.
    destruct (Hook.isComplete (Hook.reached text key s n evs).1) eqn:Hc.
    + destruct Hset as [dt i id ini s' m Hi | ini tref s' m Hs];
        [discriminate|]. cbn [snd Hook.session].
      rewrite mount_played by exact Hs.
      case_bool_decide; cbn [fst snd Hook.displayText Hook.isComplete Hook.timers];
        auto.
    + rewrite hook_reached_session by exact Hc. reflexivity.
  - rewrite prompt_unmount_session.
    pose proof (prompt_reached_settled ps pn pevs) as Hset.
    destruct (Prompt.hasPlayed (Prompt.reached ps pn pevs).1) eqn:Hc.
    + destruct Hset as [dt i id s' m Hs Hi | s' m Hs]; [discriminate|].
      cbn [snd Prompt.session]. apply prompt_mount_played, Hs.
    + rewrite prompt_reached_session by exact Hc. reflexivity.
Qed.

(** X25. For every running typewriter animation of
    [useTypewriterAnimation] and of TerminalPrompt, the skip (the hook's
    [skip()], the component's key press) shows the full text at once and
    writes the session flag exactly once: the history of [setItem] calls is
    the one found at mount plus one entry, and no later event changes
    anything.  [IntroController.skip()] on an intro that is neither skipped
    nor complete marks it skipped and invokes [onSkip] when given; when the
    intro element was found, it adds the class [hidden] to it and removes
    the skip handlers, from the document's listeners and from
    [skipHandlers]; it leaves sessionStorage as it was. *)
Theorem skip_reveals_text_and_sets_flag_once
    (text : jsstring) (key : string) (s : Session.t) (n : nat)
    (evs : list Hook.Event)
    (ps : Session.t) (pn : nat) (pevs : list Prompt.Event)
    (c : Intro.Controller) (p : Intro.Page) :
  Hook.isComplete (Hook.reached text key s n evs).1 = false →
  Prompt.hasPlayed (Prompt.reached ps pn pevs).1 = false →
  Intro.isSkipped c = false →
  Intro.isComplete c = false →
  (Hook.displayText (Hook.skip text key (Hook.reached text key s n evs)).1 = text ∧
   Hook.isComplete (Hook.skip text key (Hook.reached text key s n evs)).1 = true ∧
   Hook.session (Hook.skip text key (Hook.reached text key s n evs)).2
     = Session.setItem key "true" s ∧
   ∀ later,
     Hook.run text key later (Hook.skip text key (Hook.reached text key s n evs))
     = Hook.skip text key (Hook.reached text key s n evs)) ∧
  (Prompt.displayText (Prompt.keydown (Prompt.reached ps pn pevs)).1
     = Prompt.fullText ∧
   Prompt.hasPlayed (Prompt.keydown (Prompt.reached ps pn pevs)).1 = true ∧
   Prompt.session (Prompt.keydown (Prompt.reached ps pn pevs)).2
     = Session.setItem Prompt.storageKey "true" ps ∧
   ∀ later,
     Prompt.run later (Prompt.keydown (Prompt.reached ps pn pevs))
     = Prompt.keydown (Prompt.reached ps pn pevs)) ∧
  (Intro.isSkipped (Intro.skip (c, p)).1 = true ∧
   Intro.fired (Intro.skip (c, p)).2
     = Intro.fired p ++ (if Intro.onSkip (Intro.config c) then [Intro.OnSkip] else []) ∧
   (∀ id e,
     Intro.introElement c = Some id → Intro.document p !! id = Some e →
     Intro.document (Intro.skip (c, p)).2 !! id = Some (Dom.classAdd "hidden" e) ∧
     Intro.skipHandlers (Intro.skip (c, p)).1 = [] ∧
     Intro.listeners (Intro.skip (c, p)).2
     = filter (λ l, l ∉ Intro.skipHandlers c) (Intro.listeners p)) ∧
   Intro.session (Intro.skip (c, p)).2 = Intro.session p).
Proof.
  intros Hh Hp Hs Hc. repeat apply conj.
  - apply skip_settled; [apply hook_reached_settled | exact Hh].
  - apply skip_settled; [apply hook_reached_settled | exact Hh].
  - destruct (skip_settled text key _ (hook_reached_settled text key s n evs) Hh)
      as (_ & _ & _ & _ & -> & _).
    rewrite hook_reached_session by exact Hh. reflexivity.
  - apply skip_settled; [apply hook_reached_settled | exact Hh].
  - apply prompt_keydown_settled; [apply prompt_reached_settled | exact Hp].
  - apply prompt_keydown_settled; [apply prompt_reached_settled | exact Hp].
  - destruct (prompt_keydown_settled _ (prompt_reached_settled ps pn pevs) Hp)
      as (_ & _ & _ & _ & -> & _).
    rewrite prompt_reached_session by exact Hp. reflexivity.
  - apply prompt_keydown_settled; [apply prompt_reached_settled | exact Hp].
  - apply skip_running_intro; assumption.
  - apply skip_running_intro; assumption.
  - intros id e Hi He. rewrite (skip_running_eq c p id e Hs Hc Hi He).
    cbn [fst snd Intro.document Intro.skipHandlers Intro.listeners].
    split; [apply lookup_insert_eq|]. split; reflexivity.
  - apply (skip_fields (c, p)).
Qed.

Lemma skip_reveals_text_and_sets_flag_once_witness :
  Hook.isComplete
    (Hook.reached (lit "ab") "typed" Session.empty 1 [Hook.Fire 1 true]).1 = false ∧
  Prompt.hasPlayed (Prompt.reached Session.empty 1 [Prompt.Fire 1]).1 = false ∧
  Intro.isSkipped (Intro.created (Intro.defaultOptions "intro")) = false ∧
  Intro.isComplete (Intro.created (Intro.defaultOptions "intro")) = false ∧
  Hook.session
    (Hook.skip (lit "ab") "typed"
       (Hook.reached (lit "ab") "typed" Session.empty 1 [Hook.Fire 1 true])).2
  = Session.setItem "typed" "true" Session.empty.
Proof.
  split; [reflexivity|]. split; [reflexivity|].
  split; [reflexivity|]. split; [reflexivity|].
  destruct (skip_reveals_text_and_sets_flag_once
              (lit "ab") "typed" Session.empty 1 [Hook.Fire 1 true]
              Session.empty 1 [Prompt.Fire 1]
              (Intro.created (Intro.defaultOptions "intro"))
              (Intro.freshPage "intro" ["reload"])
              eq_refl eq_refl eq_refl eq_refl) as [(_ & _ & H & _) _].
  exact H.
Defined.
